(** * BEAR agent (algos/offline/bear.py): a shallow embedding

    The file follows [bear.py] method by method.  Conventions:

    - A tensor entry is a real number ([R]).  Rounding, overflow and the
      special values of the 32-bit floats are outside the model; where the
      real-number value of an operation does not exist (division by zero,
      square root of a negative number, mean over no elements) the model
      reports [NotFinite], the place where torch yields [nan] or [inf].
    - A tensor of rank n is an n-fold nested list; a shape mismatch that
      torch rejects is the error [ShapeError].
    - A tensor that autograd tracks is a [dual]: its value together with its
      derivative with respect to the leaves under consideration.
    - The networks, the Adam optimizers, the replay buffer and the random
      generator are collaborators of [bear.py] (they live in other modules)
      and are parameters of the model. *)

From Stdlib Require Import Reals Lra Lia ZArith List.
From stdpp Require Import base option list gmap strings.

Open Scope R_scope.

(** ** Errors and the result monad *)

Inductive error : Type :=
  | ShapeError   (* torch raises RuntimeError on incompatible shapes *)
  | NotFinite    (* the value is nan or inf in torch *)
  | KeyError     (* a dict lookup of a missing key *)
  | TypeError.   (* a value of another kind than the one expected *)

Inductive res (A : Type) : Type :=
  | Ok (a : A)
  | Err (e : error).
Arguments Ok {A} a.
Arguments Err {A} e.

#[export] Instance res_ret : MRet res := fun A a => Ok a.
#[export] Instance res_bind : MBind res :=
  fun A B f m => match m with Ok a => f a | Err e => Err e end.
#[export] Instance res_fmap : FMap res :=
  fun A B f m => match m with Ok a => Ok (f a) | Err e => Err e end.

Fixpoint mapR {A B} (f : A -> res B) (l : list A) : res (list B) :=
  match l with
  | [] => Ok []
  | x :: l' => y ← f x; ys ← mapR f l'; Ok (y :: ys)
  end.

Fixpoint zipR {A B C} (f : A -> B -> res C) (l1 : list A) (l2 : list B)
  : res (list C) :=
  match l1, l2 with
  | x :: l1', y :: l2' => z ← f x y; zs ← zipR f l1' l2'; Ok (z :: zs)
  | _, _ => Ok []
  end.

(** ** Scalars: plain reals and autograd-tracked values *)

(** The arithmetic the methods of the agent use on tensor entries.  [tsqrt]
    is partial: it has no (finite) result outside its domain. *)
Class Scalar (T : Type) : Type := {
  of_R : R -> T;
  value : T -> R;
  tadd : T -> T -> T;
  tsub : T -> T -> T;
  tmul : T -> T -> T;
  tneg : T -> T;
  tscale : R -> T -> T;       (* python float * tensor *)
  tdiv : T -> R -> T;         (* tensor / python float, divisor non-zero *)
  tabs : T -> T;
  tsq : T -> T;               (* .pow(2) *)
  texp : T -> T;
  tsqrt : T -> res T;
  tmin : T -> T -> T;         (* torch.min(a, b) *)
  tmax : T -> T -> T          (* torch.max(a, b) *)
}.

Definition Rsqrt_res (x : R) : res R :=
  if Rle_dec 0 x then Ok (sqrt x) else Err NotFinite.

#[export] Instance Scalar_R : Scalar R := {|
  of_R := fun r => r;
  value := fun r => r;
  tadd := Rplus;
  tsub := Rminus;
  tmul := Rmult;
  tneg := Ropp;
  tscale := Rmult;
  tdiv := Rdiv;
  tabs := Rabs;
  tsq := fun x => x * x;
  texp := exp;
  tsqrt := Rsqrt_res;
  tmin := Rmin;
  tmax := Rmax
|}.

(** Gradients live in a module over the reals; only the operations are
    needed to run the code. *)
Class VSpace (G : Type) : Type := {
  vzero : G;
  vadd : G -> G -> G;
  vscale : R -> G -> G
}.

#[export] Instance VSpace_R : VSpace R :=
  {| vzero := 0; vadd := Rplus; vscale := Rmult |}.

#[export] Instance VSpace_unit : VSpace unit :=
  {| vzero := tt; vadd := fun _ _ => tt; vscale := fun _ _ => tt |}.

#[export] Instance VSpace_prod {A B} `{VSpace A, VSpace B} : VSpace (A * B) := {|
  vzero := (vzero, vzero);
  vadd := fun x y => (vadd (fst x) (fst y), vadd (snd x) (snd y));
  vscale := fun r x => (vscale r (fst x), vscale r (snd x))
|}.

(** A tracked tensor entry: the value and its derivative w.r.t. the leaves. *)
Record dual (G : Type) : Type := Dual { val : R; grad : G }.
Arguments Dual {G} val grad.
Arguments val {G} d.
Arguments grad {G} d.

Definition sign (x : R) : R :=
  if Rlt_dec 0 x then 1 else if Rlt_dec x 0 then -1 else 0.

Section DualOps.
Context {G : Type} `{VSpace G}.

Definition dconst (r : R) : dual G := Dual r vzero.
Definition dadd (x y : dual G) : dual G :=
  Dual (val x + val y) (vadd (grad x) (grad y)).
Definition dneg (x : dual G) : dual G :=
  Dual (- val x) (vscale (-1) (grad x)).
Definition dsub (x y : dual G) : dual G :=
  Dual (val x - val y) (vadd (grad x) (vscale (-1) (grad y))).
Definition dmul (x y : dual G) : dual G :=
  Dual (val x * val y)
       (vadd (vscale (val y) (grad x)) (vscale (val x) (grad y))).
Definition dscale (r : R) (x : dual G) : dual G :=
  Dual (r * val x) (vscale r (grad x)).
Definition ddiv (x : dual G) (r : R) : dual G :=
  Dual (val x / r) (vscale (/ r) (grad x)).
Definition dabs (x : dual G) : dual G :=
  Dual (Rabs (val x)) (vscale (sign (val x)) (grad x)).
Definition dsq (x : dual G) : dual G :=
  Dual (val x * val x) (vscale (2 * val x) (grad x)).
Definition dexp (x : dual G) : dual G :=
  Dual (exp (val x)) (vscale (exp (val x)) (grad x)).
(* the derivative of sqrt at 0 is not finite *)
Definition dsqrt (x : dual G) : res (dual G) :=
  if Rlt_dec 0 (val x)
  then Ok (Dual (sqrt (val x)) (vscale (/ (2 * sqrt (val x))) (grad x)))
  else Err NotFinite.
(* torch.min / torch.max of two tensors: the gradient goes to the selected
   argument and is split evenly on a tie *)
Definition dmin (x y : dual G) : dual G :=
  if Rlt_dec (val x) (val y) then x
  else if Rlt_dec (val y) (val x) then y
  else Dual (val x) (vadd (vscale (/ 2) (grad x)) (vscale (/ 2) (grad y))).
Definition dmax (x y : dual G) : dual G :=
  if Rlt_dec (val y) (val x) then x
  else if Rlt_dec (val x) (val y) then y
  else Dual (val x) (vadd (vscale (/ 2) (grad x)) (vscale (/ 2) (grad y))).

#[export] Instance Scalar_dual : Scalar (dual G) := {|
  of_R := dconst;
  value := val;
  tadd := dadd;
  tsub := dsub;
  tmul := dmul;
  tneg := dneg;
  tscale := dscale;
  tdiv := ddiv;
  tabs := dabs;
  tsq := dsq;
  texp := dexp;
  tsqrt := dsqrt;
  tmin := dmin;
  tmax := dmax
|}.
End DualOps.

(** ** Tensors as nested lists *)

Section Tensor.
Context {T : Type} `{Scalar T}.

(** Elementwise combination of one dimension with torch's broadcasting:
    equal sizes are matched up, a dimension of size 1 is stretched. *)
Definition broadcast {A B C} (f : A -> B -> res C) (l1 : list A) (l2 : list B)
  : res (list C) :=
  if (length l1 =? length l2)%nat then zipR f l1 l2
  else match l1, l2 with
       | [x], _ => mapR (f x) l2
       | _, [y] => mapR (fun x => f x y) l1
       | _, _ => Err ShapeError
       end.

Definition tsum (l : list T) : T := foldr tadd (of_R 0) l.

(** [t.mean()] over all the entries of a list. *)
Definition tmean (l : list T) : res T :=
  match l with
  | [] => Err NotFinite
  | _ => Ok (tdiv (tsum l) (INR (length l)))
  end.

(** [x.unsqueeze(2)] and [x.unsqueeze(1)] of a B x N x d tensor. *)
Definition unsqueeze2 (x : list (list (list T))) : list (list (list (list T))) :=
  map (map (fun v => [v])) x.
Definition unsqueeze1 (x : list (list (list T))) : list (list (list (list T))) :=
  map (fun m => [m]) x.

(** [a - b] on rank-4 tensors. *)
Definition sub4 (a b : list (list (list (list T)))) : res (list (list (list (list T)))) :=
  broadcast (broadcast (broadcast (broadcast (fun x y => Ok (tsub x y))))) a b.

(** [torch.mean(k, dim=(1, 2))] of a B x N x M tensor. *)
Definition mean_dims12 (k : list (list (list T))) : res (list T) :=
  mapR (fun m => tmean (concat m)) k.

(** The division by [2.0 * sigma] has a real value only for a non-zero
    divisor. *)
Definition check_divisor (r : R) : res unit :=
  if Req_dec_T r 0 then Err NotFinite else Ok tt.

(** [(-(diff.abs()).sum(-1) / (2.0 * sigma)).exp()] *)
Definition laplacian_kernel (sigma : R) (diff : list (list (list (list T))))
  : res (list (list (list T))) :=
  mapR (mapR (mapR (fun v =>
    _ ← check_divisor (2 * sigma);
    Ok (texp (tdiv (tneg (tsum (map tabs v))) (2 * sigma)))))) diff.

(** [(-(diff.pow(2)).sum(-1) / (2.0 * sigma)).exp()] *)
Definition gaussian_kernel (sigma : R) (diff : list (list (list (list T))))
  : res (list (list (list T))) :=
  mapR (mapR (mapR (fun v =>
    _ ← check_divisor (2 * sigma);
    Ok (texp (tdiv (tneg (tsum (map tsq v))) (2 * sigma)))))) diff.

(** [(diff_x_x + diff_y_y - 2.0 * diff_x_y + 1e-6).sqrt()] *)
Definition mmd_combine (xx yy xy : list T) : res (list T) :=
  s ← broadcast (fun a b => Ok (tadd a b)) xx yy;
  d ← broadcast (fun a b => Ok (tsub a (tscale 2 b))) s xy;
  mapR (fun a => tsqrt (tadd a (of_R (1 / 1000000)))) d.

(** The tensor of pairwise kernel values of two batches, B x N x M: the
    argument of each [torch.mean] in the two estimators. *)
Definition laplacian_terms (a b : list (list (list T))) (sigma : R)
  : res (list (list (list T))) :=
  diff ← sub4 (unsqueeze2 a) (unsqueeze1 b);
  laplacian_kernel sigma diff.

Definition gaussian_terms (a b : list (list (list T))) (sigma : R)
  : res (list (list (list T))) :=
  diff ← sub4 (unsqueeze2 a) (unsqueeze1 b);
  gaussian_kernel sigma diff.

Definition mmd_loss_laplacian (samples1 samples2 : list (list (list T))) (sigma : R)
  : res (list T) :=
  diff_x_x ← laplacian_terms samples1 samples1 sigma;
  diff_x_x ← mean_dims12 diff_x_x;
  diff_x_y ← laplacian_terms samples1 samples2 sigma;
  diff_x_y ← mean_dims12 diff_x_y;
  diff_y_y ← laplacian_terms samples2 samples2 sigma;
  diff_y_y ← mean_dims12 diff_y_y;
  mmd_combine diff_x_x diff_y_y diff_x_y.

Definition mmd_loss_gaussian (samples1 samples2 : list (list (list T))) (sigma : R)
  : res (list T) :=
  diff_x_x ← gaussian_terms samples1 samples1 sigma;
  diff_x_x ← mean_dims12 diff_x_x;
  diff_x_y ← gaussian_terms samples1 samples2 sigma;
  diff_x_y ← mean_dims12 diff_x_y;
  diff_y_y ← gaussian_terms samples2 samples2 sigma;
  diff_y_y ← mean_dims12 diff_y_y;
  mmd_combine diff_x_x diff_y_y diff_x_y.
End Tensor.

(** ** Small tensor helpers used by [train] and [choose_action] *)

(** [torch.repeat_interleave(x, repeats=n, dim=0)]: every row n times in a
    row. *)
Definition repeat_interleave {A} (x : list A) (n : nat) : list A :=
  concat (map (fun r => repeat r n) x).

(** [x.reshape(1, -1).repeat(n, 1)]: one row, n times. *)
Definition repeat_rows {A} (x : A) (n : nat) : list A := repeat x n.

(** Consecutive groups of [k] entries; used on a list whose length is a
    multiple of [k].  The fuel is the length of the list. *)
Fixpoint chunks_fuel {A} (fuel k : nat) (l : list A) : list (list A) :=
  match fuel, l with
  | S fuel', _ :: _ => take k l :: chunks_fuel fuel' k (drop k l)
  | _, _ => []
  end.
Definition chunks {A} (k : nat) (l : list A) : list (list A) :=
  chunks_fuel (length l) k l.

(** [t.reshape(rows, k, 1)] of a tensor with [length t] entries: torch
    accepts it exactly when the numbers of entries agree, and groups
    consecutive entries (row-major). *)
Definition reshape_groups {A} (rows k : nat) (t : list A) : res (list (list A)) :=
  if (length t =? rows * k)%nat
  then Ok (match k with O => repeat [] rows | _ => chunks k t end)
  else Err ShapeError.

(** [t.max(1)[0]] over a non-empty group; torch rejects a reduction over an
    empty dimension. *)
Definition max_list (g : list R) : res R :=
  match g with
  | [] => Err ShapeError
  | x :: g' => Ok (foldl Rmax x g')
  end.

(** [t.argmax(dim=0)]: the index of the first maximal entry. *)
Fixpoint argmax_from (best : R) (besti i : nat) (l : list R) : nat :=
  match l with
  | [] => besti
  | x :: l' =>
      if Rlt_dec best x then argmax_from x i (S i) l'
      else argmax_from best besti (S i) l'
  end.
Definition argmax (l : list R) : res nat :=
  match l with
  | [] => Err ShapeError
  | x :: l' => Ok (argmax_from x 0%nat 1%nat l')
  end.

(** Indexing a tensor by a computed index: [action[ind]]. *)
Definition index {A} (l : list A) (i : nat) : res A :=
  match l !! i with
  | Some a => Ok a
  | None => Err ShapeError
  end.

(** [tensor.data.clamp_(min=lo, max=hi)] *)
Definition clamp (lo hi x : R) : R := Rmin (Rmax x lo) hi.

(** ** Gradient buffers *)

(** [p.grad]: absent after [zero_grad()], otherwise a running sum. *)
Definition accumulate {G} `{VSpace G} (buf : option G) (g : G) : option G :=
  match buf with
  | None => Some g
  | Some h => Some (vadd h g)
  end.

(** A scalar leaf tensor: [log_alpha_prime]. *)
Record leaf : Type := Leaf { data : R; leaf_grad : option R }.

(** Whether the tensor an optimizer was constructed with is still the one
    the attribute of the agent refers to.  [load_agent_checkpoint] rebinds
    the attribute to the loaded tensor and leaves the optimizer with the
    previous one. *)
Inductive param_ref : Type := Current | Replaced.

(** ** The agent *)

(** A sampled minibatch ([data_buffer.sample()]). *)
Record Batch (Obs : Type) : Type := {
  obs : list Obs;
  acts : list (list R);
  rews : list R;
  next_obs : list Obs;
  done : list R
}.
Arguments obs {Obs} b.
Arguments acts {Obs} b.
Arguments rews {Obs} b.
Arguments next_obs {Obs} b.
Arguments done {Obs} b.

(** The hyper-parameters [__init__] stores on the agent. *)
Record Config : Type := {
  gamma : R;
  tau : R;
  lmbda : R;
  mmd_sigma : R;
  kernel_type : string;
  lagrange_thresh : R;
  n_action_samples : nat;
  n_target_samples : nat;
  n_mmd_action_samples : nat;
  warmup_step : Z
}.

(** What one row of [policy_net(obs)] returns, tracked w.r.t. the policy
    parameters. *)
Record PolicyOut (V : Type) : Type := {
  action : list (dual V);
  log_prob : dual V;
  mu_action : list (dual V)
}.
Arguments action {V} p.
Arguments log_prob {V} p.
Arguments mu_action {V} p.

(** What [learn] reads besides: how long to train, how often to evaluate
    and to save, and whether to start from the checkpoint file.  The step
    bound is an integer here, on which [int(self.max_train_step)] is the
    identity. *)
Record LearnConfig : Type := {
  max_train_step : Z;
  eval_freq : Z;
  log_interval : Z;
  resume : bool
}.

(** [a % b] on Python integers: the remainder takes the sign of the divisor,
    as [Z.modulo] does; a zero divisor raises [ZeroDivisionError]. *)
Definition py_mod (a b : Z) : option Z :=
  if (b =? 0)%Z then None else Some (a mod b)%Z.

Section Agent.
(** Collaborators: parameter and gradient spaces of the three kinds of
    network, optimizer states, observations, the random generator. *)
Context {Obs PolicyParams QParams CvaeParams AdamSt Rng : Type}.
Context {V VQ VC : Type} `{VSpace V, VSpace VQ, VSpace VC}.

(** [policy_net(obs)], one row: a reparameterised sample, its
    log-probability and the mean action. *)
Variable policy_net : PolicyParams -> Obs -> Rng -> PolicyOut V * Rng.
(** [policy_net.sample_multiple_without_squash(obs, sample_num)], one row. *)
Variable sample_multiple_without_squash :
  PolicyParams -> Obs -> nat -> Rng -> list (list (dual V)) * Rng.
(** A critic applied to one (observation, action) row.  The action may be
    tracked w.r.t. some leaves [G]; the result is tracked w.r.t. the
    critic's own parameters and [G]. *)
Variable q_net : forall G, VSpace G -> QParams -> Obs -> list (dual G) -> dual (VQ * G).
(** [cvae_net(obs, acts)] followed by [cvae_net.loss_function]. *)
Variable cvae_loss_function :
  CvaeParams -> list Obs -> list (list R) -> Rng -> dual VC * Rng.
(** [cvae_net.decode_multiple_without_squash(obs, decode_num)], one row. *)
Variable decode_multiple_without_squash :
  CvaeParams -> Obs -> nat -> Rng -> list (list R) * Rng.
(** [torch.optim.Adam.step] for each kind of parameter. *)
Variable adam_policy : AdamSt -> PolicyParams -> V -> AdamSt * PolicyParams.
Variable adam_q : AdamSt -> QParams -> VQ -> AdamSt * QParams.
Variable adam_cvae : AdamSt -> CvaeParams -> VC -> AdamSt * CvaeParams.
Variable adam_scalar : AdamSt -> R -> R -> AdamSt * R.
Variable adam_init : AdamSt.
(** [utils.train_tools.soft_target_update(online, target, tau)]. *)
Variable soft_target_update : QParams -> QParams -> R -> QParams.
(** [data_buffer.sample()]. *)
Variable buffer_sample : Rng -> Batch Obs * Rng.

(** The attributes that exist only under [auto_alpha_tuning]. *)
Record AlphaTuning : Type := {
  target_entropy : R;
  log_alpha : R;
  alpha_optimizer : AdamSt;
  alpha_param : param_ref
}.

Record Agent : Type := {
  cfg : Config;
  policy_params : PolicyParams;
  policy_grad : option V;
  q_net1 : QParams;
  q_net2 : QParams;
  target_q_net1 : QParams;
  target_q_net2 : QParams;
  cvae_net : CvaeParams;
  policy_optimizer : AdamSt;
  q_optimizer1 : AdamSt;
  q_optimizer2 : AdamSt;
  cvae_optimizer : AdamSt;
  alpha : R;
  alpha_tuning : option AlphaTuning;
  train_step : Z;
  log_alpha_prime : leaf;
  alpha_prime_optimizer : AdamSt;
  alpha_prime_param : param_ref
}.

Definition auto_alpha_tuning (s : Agent) : bool :=
  match alpha_tuning s with Some _ => true | None => false end.

(** [__init__].  [action_dim] is [np.prod(env.action_space.shape)]. *)
Definition init (c : Config) (policy0 : PolicyParams) (q1 q2 : QParams)
    (cvae0 : CvaeParams) (alpha0 : R) (auto : bool) (action_dim : nat) : Agent := {|
  cfg := c;
  policy_params := policy0;
  policy_grad := None;
  q_net1 := q1;
  q_net2 := q2;
  target_q_net1 := q1;      (* copy.deepcopy(self.q_net1) *)
  target_q_net2 := q2;
  cvae_net := cvae0;
  policy_optimizer := adam_init;
  q_optimizer1 := adam_init;
  q_optimizer2 := adam_init;
  cvae_optimizer := adam_init;
  alpha := if auto then exp 0 else alpha0;
  alpha_tuning :=
    if auto
    then Some {| target_entropy := - INR action_dim;
                 log_alpha := 0;
                 alpha_optimizer := adam_init;
                 alpha_param := Current |}
    else None;
  train_step := 0%Z;
  log_alpha_prime := Leaf 0 None;
  alpha_prime_optimizer := adam_init;
  alpha_prime_param := Current
|}.

(** *** Computations that draw random numbers or may fail *)

Definition M (A : Type) : Type := Rng -> res (A * Rng).
#[local] Instance M_ret : MRet M := fun A a r => Ok (a, r).
#[local] Instance M_bind : MBind M :=
  fun A B f m r => match m r with Ok (a, r') => f a r' | Err e => Err e end.

Definition draw {A} (f : Rng -> A * Rng) : M A := fun r => Ok (f r).
Definition lift {A} (x : res A) : M A :=
  fun r => match x with Ok a => Ok (a, r) | Err e => Err e end.

Fixpoint mapM_rng {A B} (f : A -> M B) (l : list A) : M (list B) :=
  match l with
  | [] => mret []
  | x :: l' => y ← f x; ys ← mapM_rng f l'; mret (y :: ys)
  end.

(** The value of a critic on an untracked row. *)
Definition q_value (q : QParams) (o : Obs) (a : list R) : R :=
  val (q_net unit _ q o (map dconst a)).
(** ... tracked w.r.t. its own parameters (critic training) ... *)
Definition q_own (q : QParams) (o : Obs) (a : list R) : dual VQ :=
  let y := q_net unit _ q o (map dconst a) in Dual (val y) (fst (grad y)).
(** ... and tracked w.r.t. the policy parameters through the action. *)
Definition q_through (q : QParams) (o : Obs) (a : list (dual V)) : dual V :=
  let y := q_net V _ q o a in Dual (val y) (snd (grad y)).

(** [policy_net(obs)] on a batch of rows. *)
Definition policy_forward (p : PolicyParams) (o : list Obs) : M (list (PolicyOut V)) :=
  mapM_rng (fun x => draw (policy_net p x)) o.

(** [choose_action(obs, eval)] *)
Definition choose_action (s : Agent) (o : Obs) (eval : bool) : M (list R) :=
  let o := repeat_rows o (n_action_samples (cfg s)) in
  out ← policy_forward (policy_params s) o;
  let action := map (fun p => map val (action p)) out in
  q1 ← lift (zipR (fun x a => Ok (q_value (q_net1 s) x a)) o action);
  ind ← lift (argmax q1);
  lift (index action ind).

(** *** [train]: the critic target (lines 174-184, under [torch.no_grad()]) *)

(** A network applied to two batches row by row; the numbers of rows have
    to agree. *)
Definition rows2 {A B C} (f : A -> B -> C) (l1 : list A) (l2 : list B) : res (list C) :=
  if (length l1 =? length l2)%nat then Ok (zip_with f l1 l2) else Err ShapeError.

(** [target_q_net(next_obs, policy_net(next_obs)[0])] *)
Definition target_q_of (s : Agent) (tq : QParams) (next : list Obs) : M (list R) :=
  out ← policy_forward (policy_params s) next;
  lift (rows2 (fun o p => q_value tq o (map val (action p))) next out).

(** [rews + gamma * (1. - done) * target_q] *)
Definition bootstrap (c : Config) (rews done target_q : list R) : res (list R) :=
  let w := map (fun d => gamma c * (1 - d)) done in
  t ← broadcast (fun a b => Ok (a * b)) w target_q;
  broadcast (fun a b => Ok (a + b)) rews t.

(** Lines 176-181: one soft-clipped value per repeated next-observation. *)
Definition target_q_draws (s : Agent) (b : Batch Obs) : M (list R) :=
  let next := repeat_interleave (next_obs b) (n_target_samples (cfg s)) in
  target_q1 ← target_q_of s (target_q_net1 s) next;
  target_q2 ← target_q_of s (target_q_net2 s) next;
  mn ← lift (broadcast (fun a b => Ok (Rmin a b)) target_q1 target_q2);
  mx ← lift (broadcast (fun a b => Ok (Rmax a b)) target_q1 target_q2);
  lift (broadcast (fun a b => Ok (lmbda (cfg s) * a + (1 - lmbda (cfg s)) * b)) mn mx).

(** Lines 183-184 after them: [reshape(obs.shape[0], 10, 1).max(1)[0]] and
    the one-step bootstrap. *)
Definition critic_target (s : Agent) (b : Batch Obs) : M (list R) :=
  target_q ← target_q_draws s b;
  groups ← lift (reshape_groups (length (obs b)) 10 target_q);
  target_q ← lift (mapR max_list groups);
  lift (bootstrap (cfg s) (rews b) (done b) target_q).

(** *** [train]: critic regression (lines 187-199) *)

(** [F.mse_loss(current_q, target_q)] *)
Definition mse_loss {T} `{Scalar T} (current : list T) (target : list R) : res T :=
  d ← broadcast (fun q t => Ok (tsq (tsub q (of_R t)))) current target;
  tmean d.

(** [zero_grad(); critic_loss.backward(); step()] of one critic: the
    optimizer sees the gradient of this critic's own loss. *)
Definition critic_update (q : QParams) (opt : AdamSt) (b : Batch Obs) (target_q : list R)
  : res (dual VQ * (AdamSt * QParams)) :=
  current_q ← rows2 (q_own q) (obs b) (acts b);
  critic_loss ← mse_loss current_q target_q;
  Ok (critic_loss, adam_q opt q (grad critic_loss)).

(** *** [train]: the support distance (lines 203-209) *)

Definition mmd_of (s : Agent) (cvae : CvaeParams) (b : Batch Obs) : M (list (dual V)) :=
  let n := n_mmd_action_samples (cfg s) in
  raw_sampled_actions ← mapM_rng (fun o => draw (decode_multiple_without_squash cvae o n)) (obs b);
  raw_actor_actions ← mapM_rng (fun o => draw (sample_multiple_without_squash (policy_params s) o n)) (obs b);
  let sampled := map (map (map dconst)) raw_sampled_actions in
  lift (if String.eqb (kernel_type (cfg s)) "gaussian"
        then mmd_loss_gaussian sampled raw_actor_actions (mmd_sigma (cfg s))
        else mmd_loss_laplacian sampled raw_actor_actions (mmd_sigma (cfg s))).

(** *** [train]: the multiplier of the support constraint (lines 214-219) *)

(** Tensors of the actor and multiplier losses are tracked w.r.t. the policy
    parameters and [log_alpha_prime].  The same backward passes also reach
    the critics, the CVAE and [log_alpha]; those buffers are not modelled,
    since each of their optimizers calls [zero_grad()] right before the
    backward pass of its own loss and steps on that gradient alone. *)
Definition from_policy (x : dual V) : dual (V * R) := Dual (val x) (grad x, 0).
Definition leaf_tensor (x : R) : dual (V * R) := Dual x (vzero, 1).

(** [-(self.log_alpha_prime.exp() * (mmd_loss - self.lagrange_thresh)).mean()] *)
Definition alpha_prime_loss_of (c : Config) (lap : R) (mmd_loss : list (dual V))
  : res (dual (V * R)) :=
  m ← tmean (map (fun d => tmul (texp (leaf_tensor lap))
                                (tsub (from_policy d) (of_R (lagrange_thresh c)))) mmd_loss);
  Ok (tneg m).

(** [optimizer.zero_grad()] of an optimizer over one scalar tensor. *)
Definition zero_grad_scalar (ref : param_ref) (l : leaf) : leaf :=
  match ref with
  | Current => Leaf (data l) None
  | Replaced => l
  end.

(** [optimizer.step()] of an optimizer over one scalar tensor; Adam skips
    a parameter without gradient, and so it does for the tensor it still
    holds after the attribute was rebound. *)
Definition step_scalar (ref : param_ref) (opt : AdamSt) (l : leaf) : AdamSt * leaf :=
  match ref, leaf_grad l with
  | Current, Some g =>
      let '(opt', x) := adam_scalar opt (data l) g in (opt', Leaf x (leaf_grad l))
  | _, _ => (opt, l)
  end.

(** [self.log_alpha_prime.data.clamp_(min=-5.0, max=10.0)] *)
Definition clamp_leaf (l : leaf) : leaf := Leaf (clamp (-5) 10 (data l)) (leaf_grad l).

(** Lines 214-219: returns the loss, the gradient buffer of the policy, the
    optimizer state and the multiplier. *)
Definition alpha_prime_update (s : Agent) (mmd_loss : list (dual V))
  : res (dual (V * R) * option V * AdamSt * leaf) :=
  alpha_prime_loss ← alpha_prime_loss_of (cfg s) (data (log_alpha_prime s)) mmd_loss;
  let l := zero_grad_scalar (alpha_prime_param s) (log_alpha_prime s) in
  (* alpha_prime_loss.backward(retain_graph=True) *)
  let pg := accumulate (policy_grad s) (fst (grad alpha_prime_loss)) in
  let l := Leaf (data l) (accumulate (leaf_grad l) (snd (grad alpha_prime_loss))) in
  let '(opt, l) := step_scalar (alpha_prime_param s) (alpha_prime_optimizer s) l in
  Ok (alpha_prime_loss, pg, opt, clamp_leaf l).

(** *** [train]: the actor (lines 226-236) *)

(** [(self.alpha * log_prob - min_q).mean()] with
    [min_q = torch.min(q_net1(obs, a), q_net2(obs, a))] *)
Definition policy_loss_of (alpha : R) (q1 q2 : QParams) (o : list Obs)
    (out : list (PolicyOut V)) : res (dual V) :=
  min_q ← rows2 (fun x p => tmin (q_through q1 x (action p)) (q_through q2 x (action p))) o out;
  d ← broadcast (fun p m => Ok (tsub (tscale alpha (log_prob p)) m)) out min_q;
  tmean d.

(** [(self.log_alpha_prime.exp() * mmd_loss).mean()] *)
Definition bear_actor_loss (lap : R) (mmd_loss : list (dual V)) : res (dual (V * R)) :=
  tmean (map (fun d => tmul (texp (leaf_tensor lap)) (from_policy d)) mmd_loss).

(** Lines 231-233. *)
Definition actor_loss_of (step warmup : Z) (lap : R) (policy_loss : dual V)
    (mmd_loss : list (dual V)) : res (dual (V * R)) :=
  actor_loss ← bear_actor_loss lap mmd_loss;
  Ok (if (step >? warmup)%Z then tadd (from_policy policy_loss) actor_loss
      else actor_loss).

(** Lines 234-236: [zero_grad(); actor_loss.backward(); step()].  Returns
    the gradient buffer of the policy, its optimizer and parameters, and
    the multiplier with what the backward pass left in its buffer. *)
Definition actor_update (opt : AdamSt) (p : PolicyParams) (l : leaf)
    (actor_loss : dual (V * R)) : option V * (AdamSt * PolicyParams) * leaf :=
  let pg := accumulate None (fst (grad actor_loss)) in
  let l := Leaf (data l) (accumulate (leaf_grad l) (snd (grad actor_loss))) in
  (pg, adam_policy opt p (fst (grad actor_loss)), l).

(** *** [train]: the temperature (lines 241-249) *)

(** [-(self.log_alpha * (log_prob + self.target_entropy).detach()).mean()],
    tracked w.r.t. [log_alpha]. *)
Definition alpha_loss_of (t : AlphaTuning) (out : list (PolicyOut V)) : res (dual R) :=
  m ← tmean (map (fun p => tmul (Dual (log_alpha t) 1)
                                (of_R (val (log_prob p) + target_entropy t))) out);
  Ok (tneg m).

Definition alpha_update (t : AlphaTuning) (out : list (PolicyOut V))
  : res (R * AlphaTuning) :=
  alpha_loss ← alpha_loss_of t out;
  let '(opt, la) :=
    match alpha_param t with
    | Current => adam_scalar (alpha_optimizer t) (log_alpha t) (grad alpha_loss)
    | Replaced => (alpha_optimizer t, log_alpha t)
    end in
  Ok (val alpha_loss,
      {| target_entropy := target_entropy t; log_alpha := la;
         alpha_optimizer := opt; alpha_param := alpha_param t |}).

(** *** [train] *)

(** The five losses [train] returns. *)
Record Losses : Type := {
  critic_loss1 : R;
  critic_loss2 : R;
  policy_loss : R;
  alpha_loss : R;
  alpha_prime_loss : R
}.

Definition train (s : Agent) : M (Losses * Agent) :=
  b ← draw buffer_sample;
  (* behaviour cloning: one step of the CVAE on its own loss *)
  cvae_loss ← draw (cvae_loss_function (cvae_net s) (obs b) (acts b));
  let '(cvae_opt, cvae) := adam_cvae (cvae_optimizer s) (cvae_net s) (grad cvae_loss) in
  (* critics *)
  target_q ← critic_target s b;
  '(loss1, (q_opt1, q1)) ← lift (critic_update (q_net1 s) (q_optimizer1 s) b target_q);
  '(loss2, (q_opt2, q2)) ← lift (critic_update (q_net2 s) (q_optimizer2 s) b target_q);
  (* support distance and its multiplier *)
  mmd_loss ← mmd_of s cvae b;
  '(ap_loss, pg, ap_opt, lap) ← lift (alpha_prime_update s mmd_loss);
  (* actor *)
  out ← policy_forward (policy_params s) (obs b);
  p_loss ← lift (policy_loss_of (alpha s) q1 q2 (obs b) out);
  actor_loss ← lift (actor_loss_of (train_step s) (warmup_step (cfg s)) (data lap) p_loss mmd_loss);
  let '(pg, (p_opt, p), lap) := actor_update (policy_optimizer s) (policy_params s) lap actor_loss in
  (* temperature *)
  '(a_loss, a, tuning) ← lift
    (match alpha_tuning s with
     | Some t => '(a_loss, t') ← alpha_update t out; Ok (a_loss, exp (log_alpha t'), Some t')
     | None => Ok (0, alpha s, None)
     end);
  mret ({| critic_loss1 := val loss1; critic_loss2 := val loss2;
           policy_loss := val p_loss; alpha_loss := a_loss;
           alpha_prime_loss := val ap_loss |},
        {| cfg := cfg s;
           policy_params := p;
           policy_grad := pg;
           q_net1 := q1;
           q_net2 := q2;
           target_q_net1 := soft_target_update q1 (target_q_net1 s) (tau (cfg s));
           target_q_net2 := soft_target_update q2 (target_q_net2 s) (tau (cfg s));
           cvae_net := cvae;
           policy_optimizer := p_opt;
           q_optimizer1 := q_opt1;
           q_optimizer2 := q_opt2;
           cvae_optimizer := cvae_opt;
           alpha := a;
           alpha_tuning := tuning;
           train_step := (train_step s + 1)%Z;
           log_alpha_prime := lap;
           alpha_prime_optimizer := ap_opt;
           alpha_prime_param := alpha_prime_param s |}).

(** [n] calls of [train] in a row, as in the loop of [learn] (whose
    evaluation and logging leave the agent alone). *)
Fixpoint train_n (n : nat) (s : Agent) : M Agent :=
  match n with
  | O => mret s
  | S n' => '(_, s') ← train s; train_n n' s'
  end.

(** *** Checkpoints *)

(** The values a checkpoint dict holds: state dicts of networks and of
    optimizers, the step counter, and the two scalar tensors. *)
Inductive CkptVal : Type :=
  | CkPolicy (p : PolicyParams)
  | CkCritic (q : QParams)
  | CkOptim (o : AdamSt)
  | CkInt (z : Z)
  | CkTensor (x : R).

Definition store_agent_checkpoint (s : Agent) : gmap string CkptVal :=
  let checkpoint : gmap string CkptVal :=
    <["q_net1" := CkCritic (q_net1 s)]> (
    <["q_net2" := CkCritic (q_net2 s)]> (
    <["policy_net" := CkPolicy (policy_params s)]> (
    <["q_optimizer1" := CkOptim (q_optimizer1 s)]> (
    <["q_optimizer2" := CkOptim (q_optimizer2 s)]> (
    <["policy_optimizer" := CkOptim (policy_optimizer s)]> (
    <["train_step" := CkInt (train_step s)]> ∅)))))) in
  let checkpoint :=
    match alpha_tuning s with
    | Some t =>
        <["alpha_optimizer" := CkOptim (alpha_optimizer t)]> (
        <["log_alpha" := CkTensor (log_alpha t)]> checkpoint)
    | None => checkpoint
    end in
  <["alpha_prime_optimizer" := CkOptim (alpha_prime_optimizer s)]> (
  <["log_alpha_prime" := CkTensor (data (log_alpha_prime s))]> checkpoint).

(** [checkpoint[key]] *)
Definition get (checkpoint : gmap string CkptVal) (key : string) : res CkptVal :=
  match checkpoint !! key with
  | Some v => Ok v
  | None => Err KeyError
  end.
Definition get_policy checkpoint key : res PolicyParams :=
  v ← get checkpoint key; match v with CkPolicy p => Ok p | _ => Err TypeError end.
Definition get_critic checkpoint key : res QParams :=
  v ← get checkpoint key; match v with CkCritic q => Ok q | _ => Err TypeError end.
Definition get_optim checkpoint key : res AdamSt :=
  v ← get checkpoint key; match v with CkOptim o => Ok o | _ => Err TypeError end.
Definition get_int checkpoint key : res Z :=
  v ← get checkpoint key; match v with CkInt z => Ok z | _ => Err TypeError end.
Definition get_tensor checkpoint key : res R :=
  v ← get checkpoint key; match v with CkTensor x => Ok x | _ => Err TypeError end.

(** [load_agent_checkpoint], given the record [torch.load] read.  The
    networks and optimizers are updated in place ([load_state_dict]); the
    two scalar tensors are rebound to freshly loaded tensors, which have no
    gradient yet and are not the ones their optimizers hold. *)
Definition load_agent_checkpoint (s : Agent) (checkpoint : gmap string CkptVal)
  : res Agent :=
  q1 ← get_critic checkpoint "q_net1";
  q2 ← get_critic checkpoint "q_net2";
  p ← get_policy checkpoint "policy_net";
  q_opt1 ← get_optim checkpoint "q_optimizer1";
  q_opt2 ← get_optim checkpoint "q_optimizer2";
  p_opt ← get_optim checkpoint "policy_optimizer";
  step ← get_int checkpoint "train_step";
  tuning ←
    match alpha_tuning s with
    | Some t =>
        la ← get_tensor checkpoint "log_alpha";
        a_opt ← get_optim checkpoint "alpha_optimizer";
        Ok (Some {| target_entropy := target_entropy t; log_alpha := la;
                    alpha_optimizer := a_opt; alpha_param := Replaced |})
    | None => Ok None
    end;
  lap ← get_tensor checkpoint "log_alpha_prime";
  ap_opt ← get_optim checkpoint "alpha_prime_optimizer";
  Ok {| cfg := cfg s;
        policy_params := p;
        policy_grad := policy_grad s;
        q_net1 := q1;
        q_net2 := q2;
        target_q_net1 := target_q_net1 s;
        target_q_net2 := target_q_net2 s;
        cvae_net := cvae_net s;
        policy_optimizer := p_opt;
        q_optimizer1 := q_opt1;
        q_optimizer2 := q_opt2;
        cvae_optimizer := cvae_optimizer s;
        alpha := alpha s;
        alpha_tuning := tuning;
        train_step := step;
        log_alpha_prime := Leaf lap None;
        alpha_prime_optimizer := ap_opt;
        alpha_prime_param := Replaced |}.

(** The parameter tensors and the step counter a checkpoint record holds
    agree in two agents. *)
Definition same_checkpointed (s s' : Agent) : Prop :=
  q_net1 s' = q_net1 s /\
  q_net2 s' = q_net2 s /\
  policy_params s' = policy_params s /\
  q_optimizer1 s' = q_optimizer1 s /\
  q_optimizer2 s' = q_optimizer2 s /\
  policy_optimizer s' = policy_optimizer s /\
  train_step s' = train_step s /\
  data (log_alpha_prime s') = data (log_alpha_prime s) /\
  alpha_prime_optimizer s' = alpha_prime_optimizer s /\
  option_map log_alpha (alpha_tuning s') = option_map log_alpha (alpha_tuning s) /\
  option_map alpha_optimizer (alpha_tuning s') = option_map alpha_optimizer (alpha_tuning s).

(** What a checkpoint record does not hold: the target critics and the
    behaviour model with its optimizer. *)
Definition same_unsaved (s s' : Agent) : Prop :=
  target_q_net1 s' = target_q_net1 s /\
  target_q_net2 s' = target_q_net2 s /\
  cvae_net s' = cvae_net s /\
  cvae_optimizer s' = cvae_optimizer s.

(** The critic target as the specification words it: one action per
    repeated next-observation, both target critics evaluated on it, the
    maximum over the [n_target_samples] draws of each next-observation. *)
Definition spec_critic_target (s : Agent) (b : Batch Obs) : M (list R) :=
  let n := n_target_samples (cfg s) in
  let next := repeat_interleave (next_obs b) n in
  out ← policy_forward (policy_params s) next;
  let a := map (fun p => map val (action p)) out in
  target_q1 ← lift (rows2 (q_value (target_q_net1 s)) next a);
  target_q2 ← lift (rows2 (q_value (target_q_net2 s)) next a);
  target_q ← lift (rows2 (fun x y => lmbda (cfg s) * Rmin x y + (1 - lmbda (cfg s)) * Rmax x y)
                     target_q1 target_q2);
  groups ← lift (reshape_groups (length (next_obs b)) n target_q);
  target_q ← lift (mapR max_list groups);
  lift (bootstrap (cfg s) (rews b) (done b) target_q).

(** *** [learn] (lines 258-280) *)

(** [utils.train_tools.evaluate(agent, episode_num)]: runs episodes with
    the agent's [choose_action] and returns the average reward and the
    average episode length.  It reads the agent and advances the random
    generator, whose state stands for that of the environment as well. *)
Variable evaluate : Agent -> nat -> Rng -> res (R * R * Rng).
(** [log_tools.del_all_files_in_dir(self.result_dir)], seen from the
    checkpoint file, which lives in that directory. *)
Variable del_all_files_in_dir :
  option (gmap string CkptVal) -> option (gmap string CkptVal).

(** What the tensorboard writer is handed: [log_eval_data] and
    [log_train_data], each with the step count. *)
Inductive LogEvent : Type :=
  | EvalData (eval_episode_length eval_episode_reward : R) (step : Z)
  | TrainData (losses : Losses) (step : Z).

(** The exceptions that can leave [learn]. *)
Inductive learn_error : Type :=
  | Raised (e : error)     (* raised inside [train], [evaluate] or the load *)
  | ZeroDivisionError      (* [self.train_step % 0] *)
  | FileNotFoundError.     (* [torch.load] without a checkpoint file *)

(** How [learn] ends: it returns, leaving the agent trained, or an
    exception leaves it.  Either way the checkpoint file and the logged
    events are those of that moment. *)
Inductive Ending : Type :=
  | Returns (s : Agent) (r : Rng)
  | Raises (e : learn_error).

(** The body of the loop (lines 267-280); [file] is the content of
    [checkpoint.pth], if the file exists. *)
Definition learn_iteration (lc : LearnConfig) (s : Agent)
    (file : option (gmap string CkptVal)) (log : list LogEvent) (r : Rng)
  : Ending * option (gmap string CkptVal) * list LogEvent :=
  match train s r with
  | Err e => (Raises (Raised e), file, log)
  | Ok (losses, s, r) =>
      match py_mod (train_step s) (eval_freq lc) with
      | None => (Raises ZeroDivisionError, file, log)
      | Some m =>
          match (if (m =? 0)%Z
                 then match evaluate s 5 r with
                      | Ok (avg_reward, avg_length, r) =>
                          Ok (log ++ [EvalData avg_length avg_reward (train_step s)], r)
                      | Err e => Err e
                      end
                 else Ok (log, r)) with
          | Err e => (Raises (Raised e), file, log)
          | Ok (log, r) =>
              match py_mod (train_step s) (log_interval lc) with
              | None => (Raises ZeroDivisionError, file, log)
              | Some m =>
                  if (m =? 0)%Z
                  then (Returns s r, Some (store_agent_checkpoint s),
                        log ++ [TrainData losses (train_step s)])
                  else (Returns s r, file, log)
              end
          end
      end
  end.

(** [while self.train_step < int(self.max_train_step): ...].  The fuel
    bounds the number of iterations; [None] is a loop cut short by it. *)
Fixpoint learn_loop (fuel : nat) (lc : LearnConfig) (s : Agent)
    (file : option (gmap string CkptVal)) (log : list LogEvent) (r : Rng)
  : option (Ending * option (gmap string CkptVal) * list LogEvent) :=
  if (train_step s <? max_train_step lc)%Z then
    match fuel with
    | O => None
    | S fuel' =>
        match learn_iteration lc s file log r with
        | (Returns s' r', file', log') => learn_loop fuel' lc s' file' log' r'
        | raised => Some raised
        end
    end
  else Some (Returns s r, file, log).

(** [learn()].  What [load_agent_checkpoint] prints is left out. *)
Definition learn (fuel : nat) (lc : LearnConfig) (s : Agent)
    (file : option (gmap string CkptVal)) (log : list LogEvent) (r : Rng)
  : option (Ending * option (gmap string CkptVal) * list LogEvent) :=
  if resume lc then
    match file with
    | None => Some (Raises FileNotFoundError, file, log)
    | Some checkpoint =>
        match load_agent_checkpoint s checkpoint with
        | Ok s' => learn_loop fuel lc s' file log r
        | Err e => Some (Raises (Raised e), file, log)
        end
    end
  else learn_loop fuel lc s (del_all_files_in_dir file) log r.
End Agent.

(** The arrays of a batch share the leading dimension. *)
Definition batch_ok {Obs} (b : Batch Obs) : Prop :=
  length (next_obs b) = length (obs b) /\
  length (rews b) = length (obs b) /\
  length (done b) = length (obs b).

(** ** Reference quantities the statements below compare the code with *)

(** L1 and squared Euclidean distance of two action vectors. *)
Definition l1_distance (x y : list R) : R := tsum (map Rabs (zip_with Rminus x y)).
Definition sq_distance (x y : list R) : R :=
  tsum (map (fun d => d * d) (zip_with Rminus x y)).

(** All pairs of a row of one set with a row of the other: N x M. *)
Definition pairwise {A B C} (k : A -> B -> C) (xs : list A) (ys : list B)
  : list (list C) :=
  map (fun x => map (k x) ys) xs.

(** The kernel values the code computes for one pair of action vectors. *)
Definition gaussian_value (sigma : R) (x y : list R) : R :=
  exp (- sq_distance x y / (2 * sigma)).
Definition laplacian_value (sigma : R) (x y : list R) : R :=
  exp (- l1_distance x y / (2 * sigma)).

(** The Gaussian kernel value as the specification words it: squared
    distance scaled by [-1/(2 sigma^2)]. *)
Definition spec_gaussian_value (sigma : R) (x y : list R) : R :=
  exp (- sq_distance x y / (2 * (sigma * sigma))).

(** A batch of B items with N action vectors of dimension d each. *)
Definition shape3 {A} (B N d : nat) (t : list (list (list A))) : Prop :=
  length t = B /\
  Forall (fun m => length m = N /\ Forall (fun v => length v = d) m) t.

Definition same_dim {A} (d : nat) (t : list (list (list A))) : Prop :=
  Forall (Forall (fun v => length v = d)) t.

(** The estimator built from a kernel [k] on pairs of action vectors:
    [sqrt(mean k(x,x') + mean k(y,y') - 2 mean k(x,y) + 1e-6)] per batch
    item. *)
Definition mmd_reference (k : list R -> list R -> R) (a b : list (list (list R)))
  : res (list R) :=
  xx ← mean_dims12 (zip_with (pairwise k) a a);
  xy ← mean_dims12 (zip_with (pairwise k) a b);
  yy ← mean_dims12 (zip_with (pairwise k) b b);
  mmd_combine xx yy xy.

(** The range the multiplier is kept in, and the range of
    [alpha_prime = log_alpha_prime.exp()] that follows. *)
Definition multiplier_in_range (l : leaf) : Prop :=
  (-5 <= data l <= 10) /\ (exp (-5) <= exp (data l) <= exp 10).

(** The mean of the values of a tracked tensor. *)
Definition mean_val {G} (l : list (dual G)) : R :=
  tsum (map val l) / INR (length l).

(** The support-penalty loss as the specification words it: the support
    distance scaled by the detached value of the multiplier,
    [(alpha_prime.detach() * mmd_loss).mean()]. *)
Definition spec_bear_actor_loss {V} `{VSpace V} (lap : R) (mmd_loss : list (dual V))
  : res (dual (V * R)) :=
  tmean (map (fun d => tmul (of_R (exp lap)) (from_policy d)) mmd_loss).

(** ** Quadratic forms of kernels

    The squared distance under the square root of the estimators is a
    quadratic form of the kernel: the sum over all pairs of weighted points
    of the product of the weights and the kernel value. *)

Definition Rsum (l : list R) : R := foldr Rplus 0 l.

Definition sum_over {A} (f : A -> R) (l : list A) : R := Rsum (map f l).

Definition quad {A} (K : A -> A -> R) (pts : list (R * A)) : R :=
  sum_over (fun p => sum_over (fun q => fst p * fst q * K (snd p) (snd q)) pts) pts.

(** The kernel of a finite list of features. *)
Definition gram {A} (F : list (A -> R)) (a b : A) : R :=
  sum_over (fun phi => phi a * phi b) F.

Definition reweight {A} (phi : A -> R) (pts : list (R * A)) : list (R * A) :=
  map (fun p => (fst p * phi (snd p), snd p)) pts.

(** The partial sums of the exponential series. *)
Definition exp_partial (n : nat) (x : R) : R :=
  sum_f_R0 (fun i => / INR (fact i) * x ^ i) n.

Definition dot (x y : list R) : R := Rsum (zip_with Rmult x y).

(** The coordinate functions of vectors of dimension [d]. *)
Fixpoint coords (d : nat) : list (list R -> R) :=
  match d with
  | O => []
  | S d' => (fun v => hd 0 v) :: map (fun phi v => phi (tl v)) (coords d')
  end.

Definition min_sum (x y : list R) : R := Rsum (zip_with Rmin x y).

(** The entries of [l] strictly above [mu]. *)
Fixpoint above (mu : R) (l : list R) : list R :=
  match l with
  | [] => []
  | s :: l' => if Rlt_dec mu s then s :: above mu l' else above mu l'
  end.

(** Features of the kernel [min(s, t) - m] on the values of a list, by
    peeling off the least value; the fuel bounds the length of the list. *)
Fixpoint min_features (fuel : nat) (m : R) (l : list R) : list (R -> R) :=
  match fuel, l with
  | S fuel', s0 :: l' =>
      let mu := foldr Rmin s0 l' in
      (fun _ => sqrt (mu - m))
        :: map (fun psi s => if Rlt_dec mu s then psi s else 0)
               (min_features fuel' mu (above mu l))
  | _, _ => []
  end.

(** One block of features per coordinate of a vector of dimension [d]. *)
Fixpoint vector_features (F : list (R -> R)) (d : nat) : list (list R -> R) :=
  match d with
  | O => []
  | S d' => map (fun psi v => psi (hd 0 v)) F
            ++ map (fun phi v => phi (tl v)) (vector_features F d')
  end.

(** The mean of the kernel over all pairs of two sample sets, and what
    stands under the square root for one batch item. *)
Definition mean2 (k : list R -> list R -> R) (xs ys : list (list R)) : R :=
  Rsum (concat (pairwise k xs ys)) / INR (length (concat (pairwise k xs ys))).

Definition radicand (k : list R -> list R -> R) (xs ys : list (list R)) : R :=
  mean2 k xs xs + mean2 k ys ys - 2 * mean2 k xs ys + 1 / 1000000.

(** The samples of both sets, weighted 1/N and -1/M. *)
Definition mmd_weights (xs ys : list (list R)) : list (R * list R) :=
  map (pair (/ INR (length xs))) xs ++ map (pair (- / INR (length ys))) ys.

(** *** The estimators item by item *)

(** The kernel entry of two action vectors and the mean over all pairs of
    two sample sets, on entries of any kind. *)
Definition gaussian_entry {T} `{Scalar T} (sigma : R) (x y : list T) : T :=
  texp (tdiv (tneg (tsum (map tsq (zip_with tsub x y)))) (2 * sigma)).
Definition laplacian_entry {T} `{Scalar T} (sigma : R) (x y : list T) : T :=
  texp (tdiv (tneg (tsum (map tabs (zip_with tsub x y)))) (2 * sigma)).
Definition mean_pairs {T} `{Scalar T} (k : list T -> list T -> T) (xs ys : list (list T)) : T :=
  tdiv (tsum (concat (pairwise k xs ys))) (INR (length (concat (pairwise k xs ys)))).
(** The estimator for one batch item. *)
Definition mmd_item {T} `{Scalar T} (k : list T -> list T -> T) (xs ys : list (list T)) : res T :=
  tsqrt (tadd (tsub (tadd (mean_pairs k xs xs) (mean_pairs k ys ys))
                    (tscale 2 (mean_pairs k xs ys)))
              (of_R (1 / 1000000))).
(** The values of a tracked batch of samples. *)
Definition untracked {G} (t : list (list (list (dual G)))) : list (list (list R)) :=
  map (map (map val)) t.

(** ** A small concrete instance

    One-dimensional observations and actions; every parameter space is [R].
    The toy policy ignores its parameters' values: its first ten draws are
    the action 0 and all later draws the action 1.  The toy critic is
    Q(o, a) = q * (a_1 + ... + a_d).  Optimizers take a plain gradient step. *)
Module Toy.

Definition policy_net (p : R) (o : R) (rng : nat) : PolicyOut R * nat :=
  ({| action := [Dual (if (rng <? 10)%nat then 0 else 1) 1];
      log_prob := Dual 0 1;
      mu_action := [Dual 0 1] |}, S rng).

Definition sample_multiple_without_squash (p : R) (o : R) (n : nat) (rng : nat)
  : list (list (dual R)) * nat :=
  (repeat [Dual 0 1] n, S rng).

Definition q_net (G : Type) (HG : VSpace G) (q : R) (o : R) (a : list (dual G))
  : dual (R * G) :=
  Dual (q * tsum (map val a))
       (tsum (map val a), vscale q (foldr vadd vzero (map grad a))).

Definition cvae_loss_function (c : R) (o : list R) (a : list (list R)) (rng : nat)
  : dual R * nat :=
  (Dual 0 0, rng).

Definition decode_multiple_without_squash (c : R) (o : R) (n : nat) (rng : nat)
  : list (list R) * nat :=
  (repeat [0] n, S rng).

Definition sgd (opt : unit) (p g : R) : unit * R := (opt, p - g).

Definition soft_target_update (online target tau : R) : R :=
  tau * online + (1 - tau) * target.

Definition config (n_target : nat) : Config := {|
  gamma := 1;
  tau := 1 / 20;
  lmbda := 3 / 4;
  mmd_sigma := 20;
  kernel_type := "gaussian";
  lagrange_thresh := 1 / 20;
  n_action_samples := 2;
  n_target_samples := n_target;
  n_mmd_action_samples := 1;
  warmup_step := 1
|}.

(** A batch of one transition. *)
Definition batch : Batch R :=
  {| obs := [0]; acts := [[0]]; rews := [0]; next_obs := [0]; done := [0] |}.

Definition buffer_sample (rng : nat) : Batch R * nat := (batch, rng).

(** A batch of one terminal transition with reward 5. *)
Definition terminal_batch : Batch R :=
  {| obs := [0]; acts := [[0]]; rews := [5]; next_obs := [0]; done := [1] |}.

(** The agent [__init__] builds from critics with parameter 1. *)
Definition agent (n_target : nat) : @Agent R R R unit R :=
  init tt (config n_target) 0 1 1 0 (1 / 2) false 1.

(** An agent in the middle of training, past the warm-up step: its critics
    (2 and 3) have moved away from its target critics (3/2 and 5/2), and its
    behaviour model has parameter 7. *)
Definition trained_agent : @Agent R R R unit R := {|
  cfg := config 10;
  policy_params := 0;
  policy_grad := Some 0;
  q_net1 := 2;
  q_net2 := 3;
  target_q_net1 := 3 / 2;
  target_q_net2 := 5 / 2;
  cvae_net := 7;
  policy_optimizer := tt;
  q_optimizer1 := tt;
  q_optimizer2 := tt;
  cvae_optimizer := tt;
  alpha := 1 / 2;
  alpha_tuning := None;
  train_step := 4%Z;
  log_alpha_prime := Leaf 2 (Some 0);
  alpha_prime_optimizer := tt;
  alpha_prime_param := Current
|}.

(** The agent [__init__] builds with automatic entropy tuning. *)
Definition tuned_agent : @Agent R R R unit R :=
  init tt (config 10) 0 1 1 0 (1 / 2) true 1.

Definition train : @Agent R R R unit R -> @M nat (@Losses * @Agent R R R unit R) :=
  train policy_net sample_multiple_without_squash q_net cvae_loss_function
    decode_multiple_without_squash sgd sgd sgd sgd soft_target_update buffer_sample.

Definition train_n : nat -> @Agent R R R unit R -> @M nat (@Agent R R R unit R) :=
  train_n policy_net sample_multiple_without_squash q_net cvae_loss_function
    decode_multiple_without_squash sgd sgd sgd sgd soft_target_update buffer_sample.

Definition critic_target : @Agent R R R unit R -> Batch R -> @M nat (list R) :=
  critic_target policy_net q_net.

Definition spec_critic_target : @Agent R R R unit R -> Batch R -> @M nat (list R) :=
  spec_critic_target policy_net q_net.

End Toy.

(** The toy instance of [learn]: evaluation returns fixed averages and the
    result directory is emptied. *)
Module ToyLearn.

Definition evaluate (s : @Agent R R R unit R) (episode_num : nat) (rng : nat)
  : res (R * R * nat) :=
  Ok (0, 1, S rng).

Definition del_all_files_in_dir (file : option (gmap string (@CkptVal R R unit)))
  : option (gmap string (@CkptVal R R unit)) :=
  None.

Definition learn_config (n eval_every log_every : Z) (from_checkpoint : bool)
  : LearnConfig :=
  {| max_train_step := n; eval_freq := eval_every; log_interval := log_every;
     resume := from_checkpoint |}.

Definition learn :=
  learn Toy.policy_net Toy.sample_multiple_without_squash Toy.q_net Toy.cvae_loss_function
    Toy.decode_multiple_without_squash Toy.sgd Toy.sgd Toy.sgd Toy.sgd
    Toy.soft_target_update Toy.buffer_sample evaluate del_all_files_in_dir.

End ToyLearn.

(** Evaluation of the toy instance down to the arithmetic of the reals. *)
Ltac run_toy :=
  cbv - [Rplus Rminus Rmult Rdiv Ropp Rinv IZR INR Rmin Rmax exp sqrt Rabs
         Rlt_dec Rle_dec Req_dec_T].

(** Lookup of a key in the record [store_agent_checkpoint] builds. *)
Ltac store_lookup :=
  intros; unfold store_agent_checkpoint;
  repeat match goal with
         | |- context [match alpha_tuning ?s with _ => _ end] => destruct (alpha_tuning s)
         end;
  simplify_map_eq; reflexivity.

(** ** Properties *)

Section ResLemmas.
Context {A B C : Type}.

Lemma mapR_ok (f : A -> res B) (g : A -> B) (l : list A) :
  Forall (fun x => f x = Ok (g x)) l -> mapR f l = Ok (map g l).
Proof.
  induction 1 as [|x l Hx _ IH]; simpl; [reflexivity|].
  rewrite Hx, IH. reflexivity.
Qed.

Lemma mapR_pure (g : A -> B) (l : list A) :
  mapR (fun x => Ok (g x)) l = Ok (map g l).
Proof. apply mapR_ok, Forall_forall. reflexivity. Qed.

Lemma mapR_map {A'} (h : A' -> A) (f : A -> res B) (l : list A') :
  mapR f (map h l) = mapR (fun x => f (h x)) l.
Proof. induction l as [|x l IH]; simpl; [reflexivity|]. rewrite IH. reflexivity. Qed.

Lemma zipR_ok (f : A -> B -> res C) (g : A -> B -> C) (l1 : list A) (l2 : list B) :
  Forall2 (fun x y => f x y = Ok (g x y)) l1 l2 ->
  zipR f l1 l2 = Ok (zip_with g l1 l2).
Proof.
  induction 1 as [|x y l1 l2 Hxy _ IH]; simpl; [reflexivity|].
  rewrite Hxy, IH. reflexivity.
Qed.

Lemma zipR_pure (g : A -> B -> C) (l1 : list A) (l2 : list B) :
  zipR (fun x y => Ok (g x y)) l1 l2 = Ok (zip_with g l1 l2).
Proof.
  revert l2. induction l1 as [|x l1 IH]; intros [|y l2]; simpl; try reflexivity.
  rewrite IH. reflexivity.
Qed.

Lemma broadcast_same_length (f : A -> B -> res C) l1 l2 :
  length l1 = length l2 -> broadcast f l1 l2 = zipR f l1 l2.
Proof.
  intros E. unfold broadcast. rewrite E, Nat.eqb_refl. reflexivity.
Qed.

Lemma broadcast_singleton_r (f : A -> B -> res C) l y :
  broadcast f l [y] = mapR (fun x => f x y) l.
Proof.
  destruct l as [|x [|x' l]]; reflexivity.
Qed.

Lemma broadcast_singleton_l (f : A -> B -> res C) x l :
  broadcast f [x] l = mapR (f x) l.
Proof.
  destruct l as [|y [|y' l]]; reflexivity.
Qed.
End ResLemmas.

(** *** The pairwise kernel terms (lines 124-131 and 139-146) *)

Section KernelTerms.
Context {T : Type} `{Scalar T}.

Lemma shape3_same_dim B N d (t : list (list (list T))) :
  shape3 B N d t -> same_dim d t.
Proof.
  intros [_ Ht]. unfold same_dim. eapply Forall_impl; [exact Ht|].
  intros m [_ Hm]. exact Hm.
Qed.

(** One batch item: the N x 1 x d rows against the 1 x M x d rows. *)
Lemma diff_item (xs ys : list (list T)) d :
  Forall (fun v => length v = d) xs -> Forall (fun v => length v = d) ys ->
  broadcast (broadcast (broadcast (fun x y => Ok (tsub x y))))
    (map (fun v => [v]) xs) [ys]
  = Ok (pairwise (zip_with tsub) xs ys).
Proof.
  intros Hx Hy. rewrite broadcast_singleton_r, mapR_map.
  apply mapR_ok. eapply Forall_impl; [exact Hx|]. intros x Ex. simpl.
  rewrite broadcast_singleton_l. apply mapR_ok.
  eapply Forall_impl; [exact Hy|]. intros y Ey. simpl.
  rewrite broadcast_same_length by congruence. apply zipR_pure.
Qed.

Lemma sub4_pairs (a b : list (list (list T))) d :
  length a = length b -> same_dim d a -> same_dim d b ->
  sub4 (unsqueeze2 a) (unsqueeze1 b) = Ok (zip_with (pairwise (zip_with tsub)) a b).
Proof.
  intros E Ha Hb. unfold sub4, unsqueeze2, unsqueeze1.
  rewrite broadcast_same_length by (rewrite !length_map; exact E).
  revert b E Hb. induction Ha as [|xs a Hxs _ IH]; intros [|ys b] E Hb;
    simpl in E; try discriminate; [reflexivity|].
  inversion Hb as [|? ? Hys Hb']; subst. simpl.
  rewrite (diff_item xs ys d Hxs Hys). simpl.
  rewrite IH by (try lia; assumption). reflexivity.
Qed.

Lemma kernel_map (k : list T -> T) sigma (diff : list (list (list (list T)))) :
  2 * sigma <> 0 ->
  mapR (mapR (mapR (fun v => _ ← check_divisor (2 * sigma); Ok (k v)))) diff
  = Ok (map (map (map k)) diff).
Proof.
  intros Hs. apply mapR_ok, Forall_forall. intros t _.
  apply mapR_ok, Forall_forall. intros m _.
  apply mapR_ok, Forall_forall. intros v _.
  unfold check_divisor. destruct (Req_dec_T (2 * sigma) 0); [contradiction|reflexivity].
Qed.

Lemma map3_pairs {X Y Z} (k : Z -> T) (g : X -> Y -> Z) (a : list (list X)) (b : list (list Y)) :
  map (map (map k)) (zip_with (pairwise g) a b)
  = zip_with (pairwise (fun x y => k (g x y))) a b.
Proof.
  revert b. induction a as [|xs a IH]; intros [|ys b]; simpl; try reflexivity.
  rewrite IH. f_equal. unfold pairwise. rewrite map_map.
  apply map_ext. intros x. rewrite map_map. reflexivity.
Qed.

Lemma laplacian_terms_pairs (a b : list (list (list T))) sigma d :
  2 * sigma <> 0 -> length a = length b -> same_dim d a -> same_dim d b ->
  laplacian_terms a b sigma
  = Ok (zip_with (pairwise (fun x y =>
          texp (tdiv (tneg (tsum (map tabs (zip_with tsub x y)))) (2 * sigma)))) a b).
Proof.
  intros Hs E Ha Hb. unfold laplacian_terms.
  rewrite (sub4_pairs a b d E Ha Hb). simpl. unfold laplacian_kernel.
  rewrite (kernel_map (fun v => texp (tdiv (tneg (tsum (map tabs v))) (2 * sigma))))
    by exact Hs.
  rewrite map3_pairs. reflexivity.
Qed.

Lemma gaussian_terms_pairs (a b : list (list (list T))) sigma d :
  2 * sigma <> 0 -> length a = length b -> same_dim d a -> same_dim d b ->
  gaussian_terms a b sigma
  = Ok (zip_with (pairwise (fun x y =>
          texp (tdiv (tneg (tsum (map tsq (zip_with tsub x y)))) (2 * sigma)))) a b).
Proof.
  intros Hs E Ha Hb. unfold gaussian_terms.
  rewrite (sub4_pairs a b d E Ha Hb). simpl. unfold gaussian_kernel.
  rewrite (kernel_map (fun v => texp (tdiv (tneg (tsum (map tsq v))) (2 * sigma))))
    by exact Hs.
  rewrite map3_pairs. reflexivity.
Qed.
End KernelTerms.

Lemma mmd_loss_gaussian_reference (sigma : R) (a b : list (list (list R))) (d : nat) :
  sigma <> 0 -> length a = length b -> same_dim d a -> same_dim d b ->
  mmd_loss_gaussian a b sigma = mmd_reference (gaussian_value sigma) a b.
Proof.
  intros Hs E Ha Hb. assert (Hs' : 2 * sigma <> 0) by lra.
  unfold mmd_loss_gaussian, mmd_reference.
  rewrite (gaussian_terms_pairs a a sigma d), (gaussian_terms_pairs a b sigma d),
    (gaussian_terms_pairs b b sigma d) by auto.
  reflexivity.
Qed.

Lemma mmd_loss_laplacian_reference (sigma : R) (a b : list (list (list R))) (d : nat) :
  sigma <> 0 -> length a = length b -> same_dim d a -> same_dim d b ->
  mmd_loss_laplacian a b sigma = mmd_reference (laplacian_value sigma) a b.
Proof.
  intros Hs E Ha Hb. assert (Hs' : 2 * sigma <> 0) by lra.
  unfold mmd_loss_laplacian, mmd_reference.
  rewrite (laplacian_terms_pairs a a sigma d), (laplacian_terms_pairs a b sigma d),
    (laplacian_terms_pairs b b sigma d) by auto.
  reflexivity.
Qed.

(** C1, as amended: for every non-zero bandwidth sigma and every pair of
    batches of shapes (B, N, d) and (B, M, d), the tensor of pairwise kernel
    terms of the Gaussian estimator holds exp(-|x - y|_2^2 / (2 sigma)) --
    the squared Euclidean distance scaled by -1/(2 sigma), sigma not
    squared -- and that of the Laplacian estimator holds
    exp(-|x - y|_1 / (2 sigma)); each estimator is the square root of
    mean(within 1) + mean(within 2) - 2 mean(cross) + 1e-6 of these terms. *)
Theorem kernel_terms_formula (sigma : R) (a b : list (list (list R))) (B N M d : nat) :
  sigma <> 0 -> shape3 B N d a -> shape3 B M d b ->
  gaussian_terms a b sigma = Ok (zip_with (pairwise (gaussian_value sigma)) a b) /\
  laplacian_terms a b sigma = Ok (zip_with (pairwise (laplacian_value sigma)) a b) /\
  mmd_loss_gaussian a b sigma = mmd_reference (gaussian_value sigma) a b /\
  mmd_loss_laplacian a b sigma = mmd_reference (laplacian_value sigma) a b.
Proof.
  intros Hs Ha Hb.
  assert (E : length a = length b) by (destruct Ha, Hb; congruence).
  apply shape3_same_dim in Ha, Hb. assert (Hs' : 2 * sigma <> 0) by lra.
  split; [|split; [|split]].
  - exact (gaussian_terms_pairs a b sigma d Hs' E Ha Hb).
  - exact (laplacian_terms_pairs a b sigma d Hs' E Ha Hb).
  - exact (mmd_loss_gaussian_reference sigma a b d Hs E Ha Hb).
  - exact (mmd_loss_laplacian_reference sigma a b d Hs E Ha Hb).
Qed.

Lemma shape3_single {A} (v : list A) : shape3 1 1 (length v) [[v]].
Proof. split; [reflexivity|]. repeat constructor. Qed.

(** The formula at sigma = 2 for the one-sample batches (0) and (1). *)
Lemma kernel_terms_formula_witness :
  gaussian_terms [[[0]]] [[[1]]] 2 = Ok (zip_with (pairwise (gaussian_value 2)) [[[0]]] [[[1]]]) /\
  laplacian_terms [[[0]]] [[[1]]] 2 = Ok (zip_with (pairwise (laplacian_value 2)) [[[0]]] [[[1]]]) /\
  mmd_loss_gaussian [[[0]]] [[[1]]] 2 = mmd_reference (gaussian_value 2) [[[0]]] [[[1]]] /\
  mmd_loss_laplacian [[[0]]] [[[1]]] 2 = mmd_reference (laplacian_value 2) [[[0]]] [[[1]]].
Proof.
  apply (kernel_terms_formula 2 [[[0]]] [[[1]]] 1 1 1 1).
  - lra.
  - exact (shape3_single [0]).
  - exact (shape3_single [1]).
Defined.

(** C1, as stated, fails: at sigma = 2 the Gaussian term of the action
    vectors (0) and (1) is exp(-1/4), the distance 1 divided by 2 sigma; the
    claim's exp(-1/(2 sigma^2)) is exp(-1/8).  At sigma = 0 the term of a
    vector with itself is 0/0, not a number. *)
Lemma gaussian_terms_not_sigma_squared :
  gaussian_terms [[[0]]] [[[1]]] 2 = Ok [[[exp (- 1 / 4)]]] /\
  spec_gaussian_value 2 [0] [1] = exp (- 1 / 8) /\
  exp (- 1 / 4) <> exp (- 1 / 8) /\
  gaussian_terms [[[0]]] [[[0]]] 0 = Err NotFinite.
Proof.
  split; [|split; [|split]].
  - rewrite (gaussian_terms_pairs [[[0]]] [[[1]]] 2 1);
      [| lra | reflexivity | repeat constructor | repeat constructor ].
    simpl. replace (- ((0 - 1) * (0 - 1) + 0) / (2 * 2)) with (- 1 / 4) by field.
    reflexivity.
  - unfold spec_gaussian_value, sq_distance. simpl.
    replace (- ((0 - 1) * (0 - 1) + 0) / (2 * (2 * 2))) with (- 1 / 8) by field.
    reflexivity.
  - intros E. apply exp_inv in E. lra.
  - unfold gaussian_terms, sub4, unsqueeze2, unsqueeze1, gaussian_kernel. simpl.
    unfold check_divisor. destruct (Req_dec_T (2 * 0) 0) as [_|N]; [reflexivity|].
    exfalso. apply N. lra.
Qed.

(** *** Action selection (lines 113-119) *)

Lemma argmax_from_spec (full l : list R) (best : R) (besti i : nat) :
  full !! besti = Some best ->
  (forall j x, (j < i)%nat -> full !! j = Some x -> x <= best) ->
  drop i full = l ->
  exists y, full !! argmax_from best besti i l = Some y /\
            forall x, x ∈ full -> x <= y.
Proof.
  revert best besti i. induction l as [|x l IH]; intros best besti i Hb Hle Hd; simpl.
  - exists best. split; [exact Hb|]. intros x Hx.
    apply list_elem_of_lookup in Hx as [j Hj].
    apply (Hle j x); [|exact Hj].
    assert (length full <= i)%nat.
    { destruct (Nat.le_gt_cases (length full) i) as [|Hlt]; [assumption|].
      apply (f_equal length) in Hd. rewrite length_drop in Hd. simpl in Hd. lia. }
    apply lookup_lt_Some in Hj. lia.
  - assert (Hi : full !! i = Some x).
    { pose proof (lookup_drop full i 0) as E. rewrite Hd, Nat.add_0_r in E.
      symmetry. exact E. }
    assert (Hd' : drop (S i) full = l).
    { pose proof (drop_drop full 1 i) as E. rewrite Hd in E. simpl in E.
      rewrite Nat.add_1_r in E. symmetry. exact E. }
    destruct (Rlt_dec best x) as [Hlt|Hge].
    + apply IH; [exact Hi| |exact Hd'].
      intros j z Hj Hz. destruct (Nat.eq_dec j i) as [->|Hne].
      * rewrite Hi in Hz. injection Hz as <-. lra.
      * assert (z <= best) by (apply (Hle j z); [lia|exact Hz]). lra.
    + apply IH; [exact Hb| |exact Hd'].
      intros j z Hj Hz. destruct (Nat.eq_dec j i) as [->|Hne].
      * rewrite Hi in Hz. injection Hz as <-. lra.
      * apply (Hle j z); [lia|exact Hz].
Qed.

Lemma argmax_spec (l : list R) :
  l <> [] ->
  exists i y, argmax l = Ok i /\ l !! i = Some y /\ forall x, x ∈ l -> x <= y.
Proof.
  destruct l as [|x l]; [congruence|]. intros _.
  destruct (argmax_from_spec (x :: l) l x 0 1) as [y [Hy Hmax]].
  - reflexivity.
  - intros j z Hj Hz. assert (j = 0)%nat as -> by lia. injection Hz as <-. lra.
  - reflexivity.
  - exists (argmax_from x 0 1 l), y. split; [reflexivity|]. split; assumption.
Qed.

Lemma zipR_repeat {A B C} (f : A -> B -> C) (x : A) (l : list B) :
  zipR (fun a b => Ok (f a b)) (repeat x (length l)) l = Ok (map (f x) l).
Proof.
  induction l as [|b l IH]; simpl; [reflexivity|]. rewrite IH. reflexivity.
Qed.

Section AgentProps.
Context {Obs PolicyParams QParams CvaeParams AdamSt Rng : Type}.
Context {V VQ VC : Type} `{VSpace V, VSpace VQ, VSpace VC}.
Variable policy_net : PolicyParams -> Obs -> Rng -> PolicyOut V * Rng.
Variable q_net : forall G, VSpace G -> QParams -> Obs -> list (dual G) -> dual (VQ * G).

Abbreviation Agent := (@Agent PolicyParams QParams CvaeParams AdamSt V).

Lemma mapM_rng_draw {A B} (f : A -> Rng -> B * Rng) (l : list A) (r : Rng) :
  exists out r', mapM_rng (fun x => draw (f x)) l r = Ok (out, r') /\
                 length out = length l.
Proof.
  revert r. induction l as [|x l IH]; intros r; simpl.
  - exists [], r. split; reflexivity.
  - unfold mbind, M_bind, draw at 1. destruct (f x r) as [y r1].
    destruct (IH r1) as [out [r' [E L]]]. rewrite E.
    exists (y :: out), r'. split; [reflexivity|]. simpl. congruence.
Qed.

Lemma policy_forward_ok (p : PolicyParams) (o : list Obs) (r : Rng) :
  exists out r', policy_forward policy_net p o r = Ok (out, r') /\
                 length out = length o.
Proof. apply mapM_rng_draw. Qed.

(** C10: [choose_action] never looks at [eval].  Whatever the flag, it
    repeats the observation [n_action_samples] times, draws one candidate
    per copy from the policy, scores the candidates with the first critic
    and returns a candidate of maximal score (torch rejects the argmax when
    there is no candidate). *)
Theorem choose_action_ignores_eval (s : Agent) (o : Obs) (r : Rng) :
  (forall eval1 eval2 : bool,
      choose_action policy_net q_net s o eval1 r
      = choose_action policy_net q_net s o eval2 r) /\
  exists out r',
    policy_forward policy_net (policy_params s)
      (repeat o (n_action_samples (cfg s))) r = Ok (out, r') /\
    length out = n_action_samples (cfg s) /\
    let candidates := map (fun p => map val (action p)) out in
    forall eval : bool,
      match n_action_samples (cfg s) with
      | O => choose_action policy_net q_net s o eval r = Err ShapeError
      | S _ =>
          exists a, choose_action policy_net q_net s o eval r = Ok (a, r') /\
                    a ∈ candidates /\
                    forall c, c ∈ candidates ->
                              q_value q_net (q_net1 s) o c <= q_value q_net (q_net1 s) o a
      end.
Proof.
  split; [reflexivity|].
  destruct (policy_forward_ok (policy_params s) (repeat o (n_action_samples (cfg s))) r)
    as [out [r' [E L]]].
  rewrite repeat_length in L.
  exists out, r'. split; [exact E|]. split; [exact L|].
  intros candidates eval.
assert (Lc : length candidates = n_action_samples (cfg s))
  by (unfold candidates; rewrite length_map; exact L).
assert (Hz : zipR (fun x a => Ok (q_value q_net (q_net1 s) x a))
               (repeat o (n_action_samples (cfg s))) candidates
             = Ok (map (q_value q_net (q_net1 s) o) candidates))
  by (rewrite <- Lc; apply zipR_repeat).
assert (Hrun : choose_action policy_net q_net s o eval r
               = match argmax (map (q_value q_net (q_net1 s) o) candidates) with
                 | Ok i => match index candidates i with
                           | Ok a => Ok (a, r')
                           | Err e => Err e
                           end
                 | Err e => Err e
                 end).
{ unfold choose_action, repeat_rows, mbind, M_bind, lift. rewrite E.
  fold candidates. rewrite Hz. destruct (argmax _); reflexivity. }
rewrite Hrun. clear Hrun Hz E.
destruct (n_action_samples (cfg s)) as [|n].
- destruct candidates; [reflexivity|discriminate].
- destruct (argmax_spec (map (q_value q_net (q_net1 s) o) candidates))
    as [i [y [Ea [Hy Hmax]]]].
  { destruct candidates; discriminate. }
  rewrite Ea. rewrite list_lookup_fmap in Hy.
  destruct (candidates !! i) as [a|] eqn:Hi; [|discriminate].
  simpl in Hy. injection Hy as <-.
  exists a. unfold index. rewrite Hi. split; [reflexivity|].
  split; [eapply list_elem_of_lookup_2; exact Hi|].
  intros c Hc. apply Hmax. apply list_elem_of_fmap. exists c. split; [reflexivity|exact Hc].
Qed.
End AgentProps.

(** *** The actor update (lines 226-236) *)

Section ActorProps.
Context {PolicyParams AdamSt V : Type} `{VSpace V}.
Variable adam_policy : AdamSt -> PolicyParams -> V -> AdamSt * PolicyParams.

(** Lines 231-236 on their own.  Let [penalty] be the support-penalty term
    mean(exp(log_alpha_prime) * mmd_loss).  Up to the warm-up step count the
    gradient buffer the policy optimizer steps on holds the gradient of the
    penalty alone, whatever [policy_loss] is; after the warm-up step count
    it holds the sum of the gradient of [policy_loss] and that of the
    penalty. *)
Lemma actor_loss_gate (step warmup : Z) (lap : R) (opt : AdamSt)
    (p : PolicyParams) (l : leaf) (policy_loss : dual V) (mmd_loss : list (dual V))
    (penalty : dual (V * R)) :
  bear_actor_loss lap mmd_loss = Ok penalty ->
  exists actor_loss,
    actor_loss_of step warmup lap policy_loss mmd_loss = Ok actor_loss /\
    ((step <= warmup)%Z ->
       actor_loss = penalty /\
       fst (actor_update adam_policy opt p l actor_loss)
       = (Some (fst (grad penalty)), adam_policy opt p (fst (grad penalty)))) /\
    ((step > warmup)%Z ->
       fst (actor_update adam_policy opt p l actor_loss)
       = (Some (vadd (grad policy_loss) (fst (grad penalty))),
          adam_policy opt p (vadd (grad policy_loss) (fst (grad penalty))))).
Proof.
  intros Hp. unfold actor_loss_of. rewrite Hp. simpl.
  destruct (Z.gtb_spec step warmup) as [Hgt|Hle].
  - eexists. split; [reflexivity|]. split; [lia|]. intros _. reflexivity.
  - exists penalty. split; [reflexivity|]. split; [|lia]. intros _.
    split; reflexivity.
Qed.
End ActorProps.

Section TrainProps.
Context {Obs PolicyParams QParams CvaeParams AdamSt Rng : Type}.
Context {V VQ VC : Type} `{VSpace V, VSpace VQ, VSpace VC}.
Variable policy_net : PolicyParams -> Obs -> Rng -> PolicyOut V * Rng.
Variable sample_multiple_without_squash :
  PolicyParams -> Obs -> nat -> Rng -> list (list (dual V)) * Rng.
Variable q_net : forall G, VSpace G -> QParams -> Obs -> list (dual G) -> dual (VQ * G).
Variable cvae_loss_function :
  CvaeParams -> list Obs -> list (list R) -> Rng -> dual VC * Rng.
Variable decode_multiple_without_squash :
  CvaeParams -> Obs -> nat -> Rng -> list (list R) * Rng.
Variable adam_policy : AdamSt -> PolicyParams -> V -> AdamSt * PolicyParams.
Variable adam_q : AdamSt -> QParams -> VQ -> AdamSt * QParams.
Variable adam_cvae : AdamSt -> CvaeParams -> VC -> AdamSt * CvaeParams.
Variable adam_scalar : AdamSt -> R -> R -> AdamSt * R.
Variable soft_target_update : QParams -> QParams -> R -> QParams.
Variable buffer_sample : Rng -> Batch Obs * Rng.

Abbreviation Agent' := (@Agent PolicyParams QParams CvaeParams AdamSt V).
Abbreviation train' :=
  (train policy_net sample_multiple_without_squash q_net cvae_loss_function
     decode_multiple_without_squash adam_policy adam_q adam_cvae adam_scalar
     soft_target_update buffer_sample).

(** What one call of [train] does to the policy and to the multiplier: the
    multiplier update (lines 214-219) followed by the actor update (lines
    226-236), both on the support distance of this step. *)
Lemma train_inv (s s' : Agent') (ls : Losses) (r r' : Rng) :
  train' s r = Ok (ls, s', r') ->
  exists mmd_loss ap_loss pg ap_opt lap p_loss actor_loss,
    alpha_prime_update adam_scalar s mmd_loss = Ok (ap_loss, pg, ap_opt, lap) /\
    actor_loss_of (train_step s) (warmup_step (cfg s)) (data lap) p_loss mmd_loss
      = Ok actor_loss /\
    actor_update adam_policy (policy_optimizer s) (policy_params s) lap actor_loss
      = (policy_grad s', (policy_optimizer s', policy_params s'), log_alpha_prime s') /\
    alpha_prime_optimizer s' = ap_opt /\
    alpha_prime_param s' = alpha_prime_param s /\
    cfg s' = cfg s /\
    train_step s' = (train_step s + 1)%Z.
Proof.
  unfold train, mbind, M_bind, mret, M_ret, lift, draw. intros Htrain.
  repeat match type of Htrain with
         | context [match ?x with _ => _ end] =>
             let E := fresh "E" in destruct x eqn:E; try discriminate
         end.
  repeat match goal with
         | Hm : match ?x with Ok _ => _ | Err _ => _ end = Ok _ |- _ =>
             let E := fresh "E" in
             destruct x eqn:E; [|discriminate]; injection Hm; intros; subst; clear Hm
         end.
  injection Htrain as <- <- <-. simpl.
  do 7 eexists. repeat split; eassumption.
Qed.

(** *** The multiplier stays in its range (lines 214-219) *)

Lemma clamp_range (lo hi x : R) : lo <= hi -> lo <= clamp lo hi x <= hi.
Proof.
  intros Hlh. unfold clamp. split.
  - apply Rmin_glb; [apply Rmax_r|exact Hlh].
  - apply Rmin_r.
Qed.

Lemma in_range_exp (l : leaf) : -5 <= data l <= 10 -> multiplier_in_range l.
Proof.
  intros [Hlo Hhi]. split; [split; assumption|]. split.
  - destruct Hlo as [Hlt | <-]; [left; apply exp_increasing; exact Hlt|right; reflexivity].
  - destruct Hhi as [Hlt | ->]; [left; apply exp_increasing; exact Hlt|right; reflexivity].
Qed.

Lemma clamp_leaf_in_range (l : leaf) : multiplier_in_range (clamp_leaf l).
Proof. apply in_range_exp. simpl. apply clamp_range. lra. Qed.

Lemma alpha_prime_update_in_range (s : Agent') (mmd_loss : list (dual V))
    ap_loss pg ap_opt lap :
  alpha_prime_update adam_scalar s mmd_loss = Ok (ap_loss, pg, ap_opt, lap) ->
  multiplier_in_range lap.
Proof.
  unfold alpha_prime_update. destruct (alpha_prime_loss_of _ _ _); [|discriminate].
  simpl. destruct (step_scalar _ _ _ _) as [o l]. intros E. injection E as _ _ _ <-.
  apply clamp_leaf_in_range.
Qed.

Lemma actor_update_data (opt : AdamSt) (p : PolicyParams) (l : leaf)
    (actor_loss : dual (V * R)) :
  data (snd (actor_update adam_policy opt p l actor_loss)) = data l.
Proof. reflexivity. Qed.

Lemma train_in_range (s s' : Agent') (ls : Losses) (r r' : Rng) :
  train' s r = Ok (ls, s', r') -> multiplier_in_range (log_alpha_prime s').
Proof.
  intros Ht. apply train_inv in Ht.
  destruct Ht as (mmd & apl & pg & opt & lap & pl & al & Hap & _ & Hact & _).
  apply alpha_prime_update_in_range in Hap.
  apply (f_equal (fun x => data (snd x))) in Hact. simpl in Hact.
  destruct Hap as [Hd _]. apply in_range_exp. rewrite <- Hact. exact Hd.
Qed.

Lemma train_n_in_range (n : nat) (s s' : Agent') (r r' : Rng) :
  multiplier_in_range (log_alpha_prime s) ->
  train_n policy_net sample_multiple_without_squash q_net cvae_loss_function
    decode_multiple_without_squash adam_policy adam_q adam_cvae adam_scalar
    soft_target_update buffer_sample n s r = Ok (s', r') ->
  multiplier_in_range (log_alpha_prime s').
Proof.
  revert s r. induction n as [|n IH]; intros s r Hs; simpl.
  - intros E. injection E as <- <-. exact Hs.
  - unfold mbind, M_bind. destruct (train' s r) as [[[ls s1] r1]|] eqn:Et; [|discriminate].
    apply IH. exact (train_in_range s s1 ls r r1 Et).
Qed.

(** C5: from the agent [__init__] builds, after any number of calls of
    [train], log_alpha_prime lies in [-5, 10] and alpha_prime =
    exp(log_alpha_prime) in [exp(-5), exp(10)]: every multiplier update ends
    with the clamp, whatever its optimizer step did, and the actor update
    that follows leaves the value alone. *)
Theorem log_alpha_prime_stays_clamped (adam_init : AdamSt) (c : Config)
    (policy0 : PolicyParams) (q1 q2 : QParams) (cvae0 : CvaeParams) (alpha0 : R)
    (auto : bool) (action_dim n : nat) (s' : Agent') (r r' : Rng) :
  train_n policy_net sample_multiple_without_squash q_net cvae_loss_function
    decode_multiple_without_squash adam_policy adam_q adam_cvae adam_scalar
    soft_target_update buffer_sample n
    (init adam_init c policy0 q1 q2 cvae0 alpha0 auto action_dim) r = Ok (s', r') ->
  multiplier_in_range (log_alpha_prime s') /\
  (forall (s : Agent') (mmd_loss : list (dual V)) ap_loss pg ap_opt lap,
      alpha_prime_update adam_scalar s mmd_loss = Ok (ap_loss, pg, ap_opt, lap) ->
      multiplier_in_range lap /\
      forall opt p actor_loss,
        data (snd (actor_update adam_policy opt p lap actor_loss)) = data lap).
Proof.
  intros Ht. split.
  - eapply train_n_in_range; [|exact Ht]. apply in_range_exp. simpl. lra.
  - intros s mmd_loss ap_loss pg ap_opt lap Hap. split.
    + exact (alpha_prime_update_in_range s mmd_loss ap_loss pg ap_opt lap Hap).
    + intros. reflexivity.
Qed.
End TrainProps.

(** One step of the toy agent runs to the end. *)

Lemma toy_kernel_value : exp (- ((0 - 0) * (0 - 0) + 0) / (2 * 20)) = 1.
Proof.
  replace (- ((0 - 0) * (0 - 0) + 0) / (2 * 20)) with 0 by field. apply exp_0.
Qed.

Lemma toy_train_runs : exists x, Toy.train_n 1 (Toy.agent 10) 0%nat = Ok x.
Proof.
  eexists. run_toy.
  destruct (Req_dec_T (2 * 20) 0) as [E|_]; [exfalso; lra|].
  run_toy. rewrite !toy_kernel_value.
  match goal with
  | |- context [Rlt_dec 0 ?x] =>
      destruct (Rlt_dec 0 x) as [_|N]; [|exfalso; apply N; simpl; lra]
  end.
  run_toy. reflexivity.
Qed.

(** The multiplier of the toy agent after one call of [train]. *)
Lemma log_alpha_prime_stays_clamped_witness :
  exists s' r',
    Toy.train_n 1 (Toy.agent 10) 0%nat = Ok (s', r') /\
    multiplier_in_range (log_alpha_prime s') /\
    (forall (s : @Agent R R R unit R) (mmd_loss : list (dual R)) ap_loss pg ap_opt lap,
        alpha_prime_update Toy.sgd s mmd_loss = Ok (ap_loss, pg, ap_opt, lap) ->
        multiplier_in_range lap /\
        forall opt p actor_loss,
          data (snd (actor_update Toy.sgd opt p lap actor_loss)) = data lap).
Proof.
  destruct toy_train_runs as [[s' r'] E]. exists s', r'. split; [exact E|].
  exact (log_alpha_prime_stays_clamped Toy.policy_net
           Toy.sample_multiple_without_squash Toy.q_net Toy.cvae_loss_function
           Toy.decode_multiple_without_squash Toy.sgd Toy.sgd Toy.sgd Toy.sgd
           Toy.soft_target_update Toy.buffer_sample
           tt (Toy.config 10) 0 1 1 0 (1 / 2) false 1 1 s' 0%nat r' E).
Defined.

(** *** What the actor's backward pass leaves in log_alpha_prime.grad *)

Section MultiplierGrad.
Context {PolicyParams QParams CvaeParams AdamSt V : Type} `{VSpace V}.
Variable adam_policy : AdamSt -> PolicyParams -> V -> AdamSt * PolicyParams.
Variable adam_scalar : AdamSt -> R -> R -> AdamSt * R.

Lemma penalty_sum_grad (lap : R) (mmd_loss : list (dual V)) :
  snd (grad (tsum (map (fun d => tmul (texp (leaf_tensor lap)) (from_policy d)) mmd_loss)))
  = exp lap * tsum (map val mmd_loss).
Proof.
  induction mmd_loss as [|d l IH]; simpl.
  - lra.
  - transitivity (val d * (exp lap * 1) + exp lap * 0 + exp lap * tsum (map val l));
      [apply (f_equal (Rplus _)); exact IH | lra].
Qed.

Lemma bear_actor_loss_grad (lap : R) (mmd_loss : list (dual V)) (penalty : dual (V * R)) :
  bear_actor_loss lap mmd_loss = Ok penalty ->
  snd (grad penalty) = exp lap * mean_val mmd_loss.
Proof.
  unfold bear_actor_loss, tmean.
  destruct mmd_loss as [|d0 l0]; [discriminate|].
  intros Hp. injection Hp as <-.
  set (f := fun d : dual V => tmul (texp (leaf_tensor lap)) (from_policy d)).
  change (/ INR (length (map f (d0 :: l0))) * snd (grad (tsum (map f (d0 :: l0))))
          = exp lap * mean_val (d0 :: l0)).
  unfold f. rewrite penalty_sum_grad, length_map. unfold mean_val. lra.
Qed.

(** C6, as amended: the support-penalty loss of the policy update multiplies
    the support distance by exp(log_alpha_prime) without detaching it.  Its
    backward pass adds exp(log_alpha_prime) * mean(mmd_loss) to the gradient
    buffer of log_alpha_prime and leaves the value of log_alpha_prime alone.
    The multiplier update (4.4) computes the new value from the gradient of
    its own loss only (or, when its optimizer holds another tensor, only
    clamps it): what the buffer held before does not enter. *)
Theorem penalty_gradient_reaches_multiplier (step warmup : Z) (opt : AdamSt)
    (p : PolicyParams) (l : leaf) (policy_loss : dual V) (mmd_loss : list (dual V))
    (actor_loss : dual (V * R)) :
  actor_loss_of step warmup (data l) policy_loss mmd_loss = Ok actor_loss ->
  snd (grad actor_loss) = exp (data l) * mean_val mmd_loss /\
  snd (actor_update adam_policy opt p l actor_loss)
  = Leaf (data l) (accumulate (leaf_grad l) (exp (data l) * mean_val mmd_loss)) /\
  forall (s : @Agent PolicyParams QParams CvaeParams AdamSt V) mmd_loss' ap_loss pg ap_opt lap,
    alpha_prime_update adam_scalar s mmd_loss' = Ok (ap_loss, pg, ap_opt, lap) ->
    alpha_prime_loss_of (cfg s) (data (log_alpha_prime s)) mmd_loss' = Ok ap_loss /\
    data lap
    = clamp (-5) 10
        match alpha_prime_param s with
        | Current => snd (adam_scalar (alpha_prime_optimizer s)
                            (data (log_alpha_prime s)) (snd (grad ap_loss)))
        | Replaced => data (log_alpha_prime s)
        end.
Proof.
  intros Hl.
  assert (Hg : snd (grad actor_loss) = exp (data l) * mean_val mmd_loss).
  { unfold actor_loss_of in Hl.
    destruct (bear_actor_loss (data l) mmd_loss) as [penalty|] eqn:Hp; [|discriminate].
    apply bear_actor_loss_grad in Hp. simpl in Hl. injection Hl as <-.
    destruct (step >? warmup)%Z; simpl; rewrite Hp; lra. }
  split; [exact Hg|]. split.
  - unfold actor_update. simpl. rewrite Hg. reflexivity.
  - intros s mmd_loss' ap_loss pg ap_opt lap. unfold alpha_prime_update.
    destruct (alpha_prime_loss_of _ _ _) as [a|]; [|discriminate]. simpl.
    unfold step_scalar, zero_grad_scalar.
    destruct (alpha_prime_param s); simpl.
    + destruct (adam_scalar _ _ _) as [o x] eqn:Ea. intros E.
      injection E as <- _ _ <-. rewrite Ea. split; reflexivity.
    + destruct (leaf_grad (log_alpha_prime s)); intros E;
        injection E as <- _ _ <-; split; reflexivity.
Qed.
End MultiplierGrad.

(** The backward pass at log_alpha_prime = 0 for a support distance of 1. *)
Lemma penalty_gradient_reaches_multiplier_witness :
  exists actor_loss : dual (R * R),
    actor_loss_of 0 1 (data (Leaf 0 (Some 0))) (Dual 5 7) [Dual 1 1] = Ok actor_loss /\
    snd (grad actor_loss) = exp 0 * mean_val [Dual 1 (1 : R)] /\
    snd (actor_update Toy.sgd tt 0 (Leaf 0 (Some 0)) actor_loss)
    = Leaf 0 (accumulate (Some 0) (exp 0 * mean_val [Dual 1 (1 : R)])) /\
    forall (s : @Agent R R R unit R) mmd_loss' ap_loss pg ap_opt lap,
      alpha_prime_update Toy.sgd s mmd_loss' = Ok (ap_loss, pg, ap_opt, lap) ->
      alpha_prime_loss_of (cfg s) (data (log_alpha_prime s)) mmd_loss' = Ok ap_loss /\
      data lap
      = clamp (-5) 10
          match alpha_prime_param s with
          | Current => snd (Toy.sgd (alpha_prime_optimizer s)
                              (data (log_alpha_prime s)) (snd (grad ap_loss)))
          | Replaced => data (log_alpha_prime s)
          end.
Proof.
  eexists. split; [reflexivity|].
  apply (penalty_gradient_reaches_multiplier (QParams:=R) (CvaeParams:=R)
           Toy.sgd Toy.sgd 0 1 tt 0 (Leaf 0 (Some 0)) (Dual 5 7) [Dual 1 1]).
  reflexivity.
Defined.

(** C6, as stated, fails: with log_alpha_prime = 0 and a support distance of
    1 the actor loss has derivative 1 w.r.t. log_alpha_prime, and the
    backward pass of the policy update turns a gradient buffer of 0 into 1.
    With the multiplier detached, as the claim has it, the derivative would
    be 0. *)
Lemma actor_backward_reaches_log_alpha_prime :
  exists actor_loss detached : dual (R * R),
    actor_loss_of 0 1 0 (Dual 5 7) [Dual 1 1] = Ok actor_loss /\
    spec_bear_actor_loss 0 [Dual 1 1] = Ok detached /\
    snd (grad detached) = 0 /\
    snd (grad actor_loss) = 1 /\
    leaf_grad (snd (actor_update Toy.sgd tt 0 (Leaf 0 (Some 0)) actor_loss)) = Some (0 + 1) /\
    1 <> 0.
Proof.
  eexists. eexists. split; [reflexivity|]. split; [reflexivity|].
  assert (E : (/ INR 1 * (1 * (exp 0 * 1) + exp 0 * 0 + 0)) = 1).
  { simpl. rewrite exp_0. field. }
  split; [simpl; field|]. split; [exact E|]. split.
  - unfold actor_update. simpl leaf_grad. unfold accumulate. f_equal.
    change (vadd 0 (/ INR 1 * (1 * (exp 0 * 1) + exp 0 * 0 + 0)) = 0 + 1).
    rewrite E. reflexivity.
  - lra.
Qed.

(** *** The critic target (lines 174-184) *)

Lemma length_repeat_interleave {A} (l : list A) (n : nat) :
  length (repeat_interleave l n) = (length l * n)%nat.
Proof.
  unfold repeat_interleave. induction l as [|x l IH]; simpl; [reflexivity|].
  rewrite length_app, repeat_length, IH. reflexivity.
Qed.

Lemma broadcast_pure {A B C} (g : A -> B -> C) (l1 : list A) (l2 : list B) :
  length l1 = length l2 ->
  broadcast (fun a b => Ok (g a b)) l1 l2 = Ok (zip_with g l1 l2).
Proof. intros E. rewrite broadcast_same_length by exact E. apply zipR_pure. Qed.

Lemma chunks_fuel_groups {A} (k B fuel : nat) (l : list A) :
  (0 < k)%nat -> length l = (B * k)%nat -> (length l <= fuel)%nat ->
  length (chunks_fuel fuel k l) = B /\ Forall (fun g => g <> []) (chunks_fuel fuel k l).
Proof.
  intros Hk. revert fuel l. induction B as [|B IH]; intros fuel l Hl Hf.
  - destruct l; [|discriminate]. destruct fuel; simpl; split; constructor.
  - destruct l as [|x l]; [simpl in Hl; lia|].
    destruct fuel as [|fuel]; [simpl in Hf; lia|].
    simpl chunks_fuel.
    destruct (IH fuel (drop k (x :: l))) as [IH1 IH2].
    + rewrite length_drop, Hl. simpl. lia.
    + rewrite length_drop. simpl in *. lia.
    + split; [simpl; rewrite IH1; reflexivity|].
      constructor; [|exact IH2]. destruct k; [lia|]. discriminate.
Qed.

Lemma reshape_groups_ok {A} (rows k : nat) (t : list A) :
  (0 < k)%nat -> length t = (rows * k)%nat ->
  exists groups, reshape_groups rows k t = Ok groups /\
                 length groups = rows /\ Forall (fun g => g <> []) groups.
Proof.
  intros Hk Hl. unfold reshape_groups.
  rewrite (proj2 (Nat.eqb_eq _ _) Hl). destruct k as [|k]; [lia|].
  exists (chunks (S k) t). split; [reflexivity|].
  apply (chunks_fuel_groups (S k) rows (length t) t); [lia|exact Hl|lia].
Qed.

Lemma reshape_groups_mismatch {A} (rows k : nat) (t : list A) :
  length t <> (rows * k)%nat -> reshape_groups rows k t = Err ShapeError.
Proof.
  intros Hl. unfold reshape_groups.
  rewrite (proj2 (Nat.eqb_neq _ _) Hl). reflexivity.
Qed.

Lemma mapR_max_list (groups : list (list R)) :
  Forall (fun g => g <> []) groups ->
  exists m, mapR max_list groups = Ok m /\ length m = length groups.
Proof.
  induction 1 as [|g groups Hg _ [m [E L]]]; simpl.
  - exists []. split; reflexivity.
  - destruct g as [|x g]; [congruence|]. simpl. rewrite E. simpl.
    eexists. split; [reflexivity|]. simpl. congruence.
Qed.

Lemma bootstrap_ok (c : Config) (rews done target_q : list R) :
  length done = length target_q -> length rews = length target_q ->
  exists t, bootstrap c rews done target_q = Ok t.
Proof.
  intros Hd Hr. unfold bootstrap.
  rewrite broadcast_pure by (rewrite length_map; exact Hd). simpl.
  rewrite broadcast_pure.
  - eexists. reflexivity.
  - rewrite length_zip_with, length_map. lia.
Qed.

Section CriticTargetProps.
Context {Obs PolicyParams QParams CvaeParams AdamSt Rng : Type}.
Context {V VQ : Type} `{VSpace V, VSpace VQ}.
Variable policy_net : PolicyParams -> Obs -> Rng -> PolicyOut V * Rng.
Variable q_net : forall G, VSpace G -> QParams -> Obs -> list (dual G) -> dual (VQ * G).

Abbreviation Agent'' := (@Agent PolicyParams QParams CvaeParams AdamSt V).

Lemma target_q_of_ok (s : Agent'') (tq : QParams) (next : list Obs) (r : Rng) :
  exists t r', target_q_of policy_net q_net s tq next r = Ok (t, r') /\
               length t = length next.
Proof.
  unfold target_q_of, mbind, M_bind.
  destruct (policy_forward_ok policy_net (policy_params s) next r) as [out [r' [E L]]].
  rewrite E. unfold lift, rows2. rewrite <- L, Nat.eqb_refl.
  eexists. eexists. split; [reflexivity|].
  rewrite length_zip_with. lia.
Qed.

Lemma target_q_draws_ok (s : Agent'') (b : Batch Obs) (r : Rng) :
  exists t r', target_q_draws policy_net q_net s b r = Ok (t, r') /\
               length t = (length (next_obs b) * n_target_samples (cfg s))%nat.
Proof.
  unfold target_q_draws, mbind, M_bind.
  set (next := repeat_interleave (next_obs b) (n_target_samples (cfg s))).
  destruct (target_q_of_ok s (target_q_net1 s) next r) as [t1 [r1 [E1 L1]]].
  rewrite E1.
  destruct (target_q_of_ok s (target_q_net2 s) next r1) as [t2 [r2 [E2 L2]]].
  rewrite E2. unfold lift.
  rewrite !broadcast_pure by congruence.
  rewrite broadcast_pure by (rewrite !length_zip_with; lia).
  eexists. eexists. split; [reflexivity|].
  rewrite !length_zip_with. unfold next in L1, L2.
  rewrite length_repeat_interleave in L1, L2. lia.
Qed.

Lemma critic_target_ok (s : Agent'') (b : Batch Obs) (r : Rng) :
  n_target_samples (cfg s) = 10%nat -> batch_ok b ->
  exists x, critic_target policy_net q_net s b r = Ok x.
Proof.
  intros Hn (Hnext & Hrews & Hdone). unfold critic_target, mbind, M_bind.
  destruct (target_q_draws_ok s b r) as [t [r' [E L]]]. rewrite E. unfold lift.
  destruct (reshape_groups_ok (length (obs b)) 10 t) as [groups [Eg [Lg Hg]]];
    [lia|rewrite L, Hn, Hnext; reflexivity|].
  rewrite Eg.
  destruct (mapR_max_list groups Hg) as [m [Em Lm]]. rewrite Em.
  destruct (bootstrap_ok (cfg s) (rews b) (done b) m) as [x Ex]; [lia|lia|].
  rewrite Ex. eexists. reflexivity.
Qed.

Lemma critic_target_shape_error (s : Agent'') (b : Batch Obs) (r : Rng) :
  n_target_samples (cfg s) <> 10%nat -> batch_ok b -> obs b <> [] ->
  critic_target policy_net q_net s b r = Err ShapeError.
Proof.
  intros Hn (Hnext & _) Hne. unfold critic_target, mbind, M_bind.
  destruct (target_q_draws_ok s b r) as [t [r' [E L]]]. rewrite E. unfold lift.
  rewrite reshape_groups_mismatch; [reflexivity|].
  rewrite L, Hnext. destruct (obs b); [congruence|]. simpl. nia.
Qed.

(** C7: the repeat of the next-observations uses [n_target_samples], the
    reshape that groups the draws uses the literal 10.  The target
    computation goes through for every batch (with aligned arrays) exactly
    when [n_target_samples] is 10; with any other value the reshape is
    rejected for every non-empty batch. *)
Theorem reshape_needs_ten_target_samples (s : Agent'') (o : Obs) (r0 : Rng) :
  ((forall (b : Batch Obs) (r : Rng), batch_ok b ->
       exists x, critic_target policy_net q_net s b r = Ok x)
   <-> n_target_samples (cfg s) = 10%nat) /\
  (n_target_samples (cfg s) <> 10%nat ->
   forall (b : Batch Obs) (r : Rng), batch_ok b -> obs b <> [] ->
     critic_target policy_net q_net s b r = Err ShapeError).
Proof.
  split; [split|].
  - intros Hall.
    destruct (Nat.eq_dec (n_target_samples (cfg s)) 10%nat) as [E|N]; [exact E|].
    exfalso.
    set (b := {| obs := [o]; acts := [[]]; rews := [0]; next_obs := [o]; done := [0] |}).
    assert (Hb : batch_ok b) by (repeat split).
    destruct (Hall b r0 Hb) as [x Hx].
    rewrite (critic_target_shape_error s b r0 N Hb) in Hx; discriminate.
  - intros Hn b r Hb. exact (critic_target_ok s b r Hn Hb).
  - intros Hn b r Hb Hne. exact (critic_target_shape_error s b r Hn Hb Hne).
Qed.
End CriticTargetProps.

(** C3 (the code departs from the claim): the target computation at two
    concrete inputs.  With [n_target_samples = 10] the policy is sampled
    twice for every repeated next-observation, the first target critic
    sees the first draw and the second critic the second: for a policy whose
    first ten draws are 0 and whose next ten are 1, and critics Q(o, a) = a,
    the target is 3/4 * 0 + 1/4 * 1 = 1/4, where one action per copy scored
    by both critics gives 0.  With [n_target_samples = 5] the reshape with
    the literal 10 is rejected, where grouping by the configured count gives
    a target. *)
Theorem critic_target_at_failing_inputs :
  Toy.critic_target (Toy.agent 10) Toy.batch 0%nat = Ok ([1 / 4], 20%nat) /\
  Toy.spec_critic_target (Toy.agent 10) Toy.batch 0%nat = Ok ([0], 10%nat) /\
  Toy.critic_target (Toy.agent 5) Toy.batch 0%nat = Err ShapeError /\
  Toy.spec_critic_target (Toy.agent 5) Toy.batch 0%nat = Ok ([0], 5%nat).
Proof.
  assert (Hmin : Rmin (1 * (0 + 0)) (1 * (1 + 0)) = 0) by (rewrite Rmin_left; lra).
  assert (Hmax : Rmax (1 * (0 + 0)) (1 * (1 + 0)) = 1) by (rewrite Rmax_right; lra).
  assert (Hmin0 : Rmin (1 * (0 + 0)) (1 * (0 + 0)) = 0) by (rewrite Rmin_left; lra).
  assert (Hmax0 : Rmax (1 * (0 + 0)) (1 * (0 + 0)) = 0) by (rewrite Rmax_left; lra).
  split; [|split; [|split]].
  - run_toy. rewrite Hmin, Hmax.
    set (x := 3 / 4 * 0 + (1 - 3 / 4) * 1).
    repeat rewrite (Rmax_left x x) by lra.
    do 3 f_equal. unfold x. lra.
  - run_toy. rewrite Hmin0, Hmax0.
    set (x := 3 / 4 * 0 + (1 - 3 / 4) * 0).
    repeat rewrite (Rmax_left x x) by lra.
    do 3 f_equal. unfold x. lra.
  - reflexivity.
  - run_toy. rewrite Hmin0, Hmax0.
    set (x := 3 / 4 * 0 + (1 - 3 / 4) * 0).
    repeat rewrite (Rmax_left x x) by lra.
    do 3 f_equal. unfold x. lra.
Qed.

(** *** Checkpoints (lines 282-319) *)

Section CheckpointProps.
Context {PolicyParams QParams CvaeParams AdamSt V : Type}.

Abbreviation AgentC := (@Agent PolicyParams QParams CvaeParams AdamSt V).
Abbreviation Ckpt := (gmap string (@CkptVal PolicyParams QParams AdamSt)).

Lemma store_q_net1 (s : AgentC) :
  get_critic (store_agent_checkpoint s) "q_net1" = Ok (q_net1 s).
Proof. unfold get_critic, get. store_lookup. Qed.

Lemma store_q_net2 (s : AgentC) :
  get_critic (store_agent_checkpoint s) "q_net2" = Ok (q_net2 s).
Proof. unfold get_critic, get. store_lookup. Qed.

Lemma store_policy_net (s : AgentC) :
  get_policy (store_agent_checkpoint s) "policy_net" = Ok (policy_params s).
Proof. unfold get_policy, get. store_lookup. Qed.

Lemma store_q_optimizer1 (s : AgentC) :
  get_optim (store_agent_checkpoint s) "q_optimizer1" = Ok (q_optimizer1 s).
Proof. unfold get_optim, get. store_lookup. Qed.

Lemma store_q_optimizer2 (s : AgentC) :
  get_optim (store_agent_checkpoint s) "q_optimizer2" = Ok (q_optimizer2 s).
Proof. unfold get_optim, get. store_lookup. Qed.

Lemma store_policy_optimizer (s : AgentC) :
  get_optim (store_agent_checkpoint s) "policy_optimizer" = Ok (policy_optimizer s).
Proof. unfold get_optim, get. store_lookup. Qed.

Lemma store_train_step (s : AgentC) :
  get_int (store_agent_checkpoint s) "train_step" = Ok (train_step s).
Proof. unfold get_int, get. store_lookup. Qed.

Lemma store_log_alpha_prime (s : AgentC) :
  get_tensor (store_agent_checkpoint s) "log_alpha_prime" = Ok (data (log_alpha_prime s)).
Proof. unfold get_tensor, get. store_lookup. Qed.

Lemma store_alpha_prime_optimizer (s : AgentC) :
  get_optim (store_agent_checkpoint s) "alpha_prime_optimizer"
  = Ok (alpha_prime_optimizer s).
Proof. unfold get_optim, get. store_lookup. Qed.

Lemma store_log_alpha (s : AgentC) :
  get_tensor (store_agent_checkpoint s) "log_alpha"
  = match alpha_tuning s with Some t => Ok (log_alpha t) | None => Err KeyError end.
Proof. unfold get_tensor, get. store_lookup. Qed.

Lemma store_alpha_optimizer (s : AgentC) :
  get_optim (store_agent_checkpoint s) "alpha_optimizer"
  = match alpha_tuning s with Some t => Ok (alpha_optimizer t) | None => Err KeyError end.
Proof. unfold get_optim, get. store_lookup. Qed.

(** Loading what [s] stored into an agent [s0] with the same
    [auto_alpha_tuning] flag. *)
Lemma load_store (s s0 : AgentC) :
  auto_alpha_tuning s0 = auto_alpha_tuning s ->
  exists s', load_agent_checkpoint s0 (store_agent_checkpoint s) = Ok s' /\
             same_checkpointed s s' /\ same_unsaved s0 s'.
Proof.
  intros Hflag. unfold load_agent_checkpoint.
  rewrite store_q_net1, store_q_net2, store_policy_net, store_q_optimizer1,
    store_q_optimizer2, store_policy_optimizer, store_train_step,
    store_log_alpha_prime, store_alpha_prime_optimizer,
    store_log_alpha, store_alpha_optimizer.
  unfold auto_alpha_tuning in Hflag.
  destruct (alpha_tuning s0) as [t0|], (alpha_tuning s) as [t|] eqn:Et;
    try discriminate; simpl;
    (eexists; split; [reflexivity|]);
    (split; [unfold same_checkpointed; simpl; rewrite ?Et; repeat split
            |repeat split]).
Qed.

(** Loading the record of an agent without automatic entropy tuning into
    an agent with it: the record has no [log_alpha]. *)
Lemma load_tuned_from_untuned (s s0 : AgentC) :
  auto_alpha_tuning s0 = true -> auto_alpha_tuning s = false ->
  load_agent_checkpoint s0 (store_agent_checkpoint s) = Err KeyError.
Proof.
  unfold auto_alpha_tuning, load_agent_checkpoint.
  rewrite store_q_net1, store_q_net2, store_policy_net, store_q_optimizer1,
    store_q_optimizer2, store_policy_optimizer, store_train_step,
    store_log_alpha_prime, store_alpha_prime_optimizer,
    store_log_alpha, store_alpha_optimizer.
  destruct (alpha_tuning s0), (alpha_tuning s); try discriminate. reflexivity.
Qed.

(** C8, as amended: the record [s] saves, loaded into any agent [s0] with
    the same [auto_alpha_tuning] flag (the saving agent itself, or the fresh
    agent of a resume), restores every tensor the record holds to its value
    at save time -- both critics and their optimizer states, the policy and
    its optimizer state, log_alpha_prime and its optimizer state, log_alpha
    and its optimizer state when the flag is set -- and the step counter.
    The target critics, the behaviour model and its optimizer are not in the
    record: after the load they are those of the loading agent [s0], not
    those of [s]. *)
Theorem checkpoint_roundtrip (s s0 : AgentC) :
  auto_alpha_tuning s0 = auto_alpha_tuning s ->
  exists s', load_agent_checkpoint s0 (store_agent_checkpoint s) = Ok s' /\
             same_checkpointed s s' /\ same_unsaved s0 s'.
Proof. apply load_store. Qed.

(** C9: whatever record is loaded, loading leaves the two target critics,
    the behaviour model and its optimizer as they were: the record has no
    entry for them.  In an agent [__init__] has just built (a resume), the
    target critics after loading are still the copies of the critics the
    constructor was given, while the online critics are those of the
    record. *)
Theorem load_keeps_targets_and_cvae (s s' : AgentC) (checkpoint : Ckpt) :
  load_agent_checkpoint s checkpoint = Ok s' ->
  same_unsaved s s' /\
  get_critic checkpoint "q_net1" = Ok (q_net1 s') /\
  get_critic checkpoint "q_net2" = Ok (q_net2 s') /\
  dom (store_agent_checkpoint s)
  = {[ "q_net1"; "q_net2"; "policy_net"; "q_optimizer1"; "q_optimizer2";
       "policy_optimizer"; "train_step"; "log_alpha_prime";
       "alpha_prime_optimizer" ]}
    ∪ (if auto_alpha_tuning s then {[ "log_alpha"; "alpha_optimizer" ]} else ∅) /\
  forall adam_init c policy0 q1 q2 cvae0 alpha0 auto action_dim,
    s = init adam_init c policy0 q1 q2 cvae0 alpha0 auto action_dim ->
    target_q_net1 s' = q1 /\ target_q_net2 s' = q2.
Proof.
  unfold load_agent_checkpoint. intros Hload.
  destruct (get_critic checkpoint "q_net1") as [q1'|]; [|discriminate].
  destruct (get_critic checkpoint "q_net2") as [q2'|]; [|discriminate].
  unfold mbind, res_bind in Hload.
  assert (Hs' : same_unsaved s s' /\ q_net1 s' = q1' /\ q_net2 s' = q2').
  { repeat match type of Hload with
           | context [match ?x with _ => _ end] => destruct x; try discriminate
           end;
    injection Hload as <-; repeat split. }
  destruct Hs' as (Hu & <- & <-).
  split; [exact Hu|]. split; [reflexivity|]. split; [reflexivity|]. split.
  - unfold store_agent_checkpoint, auto_alpha_tuning.
    destruct (alpha_tuning s); rewrite !dom_insert_L, dom_empty_L; set_solver.
  - intros adam_init c policy0 q1 q2 cvae0 alpha0 auto action_dim ->.
    destruct Hu as (-> & -> & _). split; reflexivity.
Qed.
End CheckpointProps.

(** A fresh toy agent (critics 1 and 1) loads the record of an agent with
    critics 2 and 3: its target critics stay 1 and 1. *)
Lemma load_keeps_targets_and_cvae_witness :
  let s := Toy.agent 10 in
  let checkpoint :=
    store_agent_checkpoint (init (V:=R) tt (Toy.config 10) 0 2 3 0 (1 / 2) false 1) in
  exists s',
    load_agent_checkpoint s checkpoint = Ok s' /\
    same_unsaved s s' /\
    get_critic checkpoint "q_net1" = Ok (q_net1 s') /\
    get_critic checkpoint "q_net2" = Ok (q_net2 s') /\
    dom (store_agent_checkpoint s)
    = {[ "q_net1"; "q_net2"; "policy_net"; "q_optimizer1"; "q_optimizer2";
         "policy_optimizer"; "train_step"; "log_alpha_prime";
         "alpha_prime_optimizer" ]}
      ∪ (if auto_alpha_tuning s then {[ "log_alpha"; "alpha_optimizer" ]} else ∅) /\
    forall adam_init c policy0 q1 q2 cvae0 alpha0 auto action_dim,
      s = init adam_init c policy0 q1 q2 cvae0 alpha0 auto action_dim ->
      target_q_net1 s' = q1 /\ target_q_net2 s' = q2.
Proof.
  intros s checkpoint.
  destruct (load_store (init (V:=R) tt (Toy.config 10) 0 2 3 0 (1 / 2) false 1) s eq_refl)
    as [s' [E _]].
  exists s'. split; [exact E|].
  exact (load_keeps_targets_and_cvae s s' checkpoint E).
Defined.

(** The fresh toy agent loads the record the trained toy agent saved. *)
Lemma checkpoint_roundtrip_witness :
  auto_alpha_tuning (Toy.agent 10) = auto_alpha_tuning Toy.trained_agent /\
  exists s', load_agent_checkpoint (Toy.agent 10) (store_agent_checkpoint Toy.trained_agent)
             = Ok s' /\
             same_checkpointed Toy.trained_agent s' /\ same_unsaved (Toy.agent 10) s'.
Proof.
  split; [reflexivity|].
  apply (checkpoint_roundtrip Toy.trained_agent (Toy.agent 10)). reflexivity.
Defined.

(** C8, as stated, fails on a resume.  The trained toy agent (critics 2 and
    3, target critics 3/2 and 5/2, behaviour model 7) saves its record and a
    fresh agent (critics and target critics 1, behaviour model 0) loads it:
    the critics are restored, the target critics and the behaviour model are
    not.  And a fresh agent with automatic entropy tuning cannot load that
    record at all. *)
Lemma resume_restores_no_targets_no_cvae :
  (exists s',
     load_agent_checkpoint (Toy.agent 10) (store_agent_checkpoint Toy.trained_agent) = Ok s' /\
     q_net1 s' = 2 /\ q_net2 s' = 3 /\
     target_q_net1 Toy.trained_agent = 3 / 2 /\ target_q_net1 s' = 1 /\
     target_q_net2 Toy.trained_agent = 5 / 2 /\ target_q_net2 s' = 1 /\
     cvae_net Toy.trained_agent = 7 /\ cvae_net s' = 0 /\
     target_q_net1 s' <> target_q_net1 Toy.trained_agent /\
     target_q_net2 s' <> target_q_net2 Toy.trained_agent /\
     cvae_net s' <> cvae_net Toy.trained_agent) /\
  load_agent_checkpoint Toy.tuned_agent (store_agent_checkpoint Toy.trained_agent)
  = Err KeyError.
Proof.
  split.
  - destruct (load_store Toy.trained_agent (Toy.agent 10) eq_refl)
      as (s' & E & (E1 & E2 & _) & (T1 & T2 & C & _)).
    exists s'. split; [exact E|].
    rewrite E1, E2, T1, T2, C. simpl.
    repeat split; lra.
  - apply load_tuned_from_untuned; reflexivity.
Qed.

(** *** The estimators return non-negative values (lines 121-149)

    Both kernels are positive definite: the quadratic form of the kernel
    over any weighted points is non-negative.  The proof writes the kernel
    as exp(t * G) times factors that go into the weights, where G is the
    kernel of a finite list of features (the dot product for the Gaussian
    kernel, a sum of minima for the Laplacian one), shows that the quadratic
    form of every power of G is non-negative, and passes to the limit of
    the exponential series. *)

Lemma sum_over_cons {A} (f : A -> R) x l : sum_over f (x :: l) = f x + sum_over f l.
Proof. reflexivity. Qed.

Lemma sum_over_app {A} (f : A -> R) l1 l2 :
  sum_over f (l1 ++ l2) = sum_over f l1 + sum_over f l2.
Proof.
  induction l1 as [|x l1 IH]; simpl.
  - unfold sum_over at 2. simpl. lra.
  - rewrite !sum_over_cons, IH. lra.
Qed.

Lemma sum_over_ext {A} (f g : A -> R) l :
  Forall (fun x => f x = g x) l -> sum_over f l = sum_over g l.
Proof.
  induction 1 as [|x l Hx _ IH]; [reflexivity|].
  rewrite !sum_over_cons, Hx, IH. reflexivity.
Qed.

Lemma sum_over_ext_all {A} (f g : A -> R) l :
  (forall x, f x = g x) -> sum_over f l = sum_over g l.
Proof. intros E. apply sum_over_ext, Forall_forall. intros x _. apply E. Qed.

Lemma sum_over_plus {A} (f g : A -> R) l :
  sum_over (fun x => f x + g x) l = sum_over f l + sum_over g l.
Proof.
  induction l as [|x l IH]; [unfold sum_over; simpl; lra|].
  rewrite !sum_over_cons, IH. lra.
Qed.

Lemma sum_over_scale {A} (c : R) (f : A -> R) l :
  sum_over (fun x => c * f x) l = c * sum_over f l.
Proof.
  induction l as [|x l IH]; [unfold sum_over; simpl; lra|].
  rewrite !sum_over_cons, IH. lra.
Qed.

Lemma sum_over_zero {A} (l : list A) : sum_over (fun _ => 0) l = 0.
Proof. induction l as [|x l IH]; [reflexivity|]. rewrite sum_over_cons, IH. lra. Qed.

Lemma sum_over_nonneg {A} (f : A -> R) l :
  Forall (fun x => 0 <= f x) l -> 0 <= sum_over f l.
Proof.
  induction 1 as [|x l Hx _ IH]; [unfold sum_over; simpl; lra|].
  rewrite sum_over_cons. lra.
Qed.

Lemma sum_over_map {A B} (f : B -> R) (g : A -> B) l :
  sum_over f (map g l) = sum_over (fun x => f (g x)) l.
Proof. unfold sum_over. rewrite map_map. reflexivity. Qed.

Lemma sum_over_exchange {A B} (f : A -> B -> R) l1 l2 :
  sum_over (fun x => sum_over (f x) l2) l1
  = sum_over (fun y => sum_over (fun x => f x y) l1) l2.
Proof.
  induction l1 as [|x l1 IH].
  - unfold sum_over at 1. simpl. symmetry. apply sum_over_zero.
  - rewrite sum_over_cons, IH, <- sum_over_plus. reflexivity.
Qed.

Lemma quad_one {A} (pts : list (R * A)) :
  quad (fun _ _ => 1) pts = sum_over fst pts * sum_over fst pts.
Proof.
  unfold quad.
  rewrite (sum_over_ext_all _ (fun p => fst p * sum_over fst pts)).
  - transitivity (sum_over (fun p => sum_over fst pts * fst p) pts);
      [apply sum_over_ext_all; intros; lra | apply sum_over_scale].
  - intros p. rewrite <- sum_over_scale. apply sum_over_ext_all. intros q. lra.
Qed.

Lemma quad_ext {A} (K K' : A -> A -> R) (P : A -> Prop) (pts : list (R * A)) :
  (forall a b, P a -> P b -> K a b = K' a b) ->
  Forall (fun p => P (snd p)) pts ->
  quad K pts = quad K' pts.
Proof.
  intros E HP. unfold quad. apply sum_over_ext.
  rewrite Forall_forall in *. intros p Hp.
  apply sum_over_ext. rewrite Forall_forall. intros q Hq.
  rewrite (E (snd p) (snd q)); auto.
Qed.

Lemma quad_plus {A} (K K' : A -> A -> R) (pts : list (R * A)) :
  quad (fun a b => K a b + K' a b) pts = quad K pts + quad K' pts.
Proof.
  unfold quad. rewrite <- sum_over_plus. apply sum_over_ext_all. intros p.
  rewrite <- sum_over_plus. apply sum_over_ext_all. intros q. lra.
Qed.

Lemma quad_scale {A} (c : R) (K : A -> A -> R) (pts : list (R * A)) :
  quad (fun a b => c * K a b) pts = c * quad K pts.
Proof.
  unfold quad. rewrite <- sum_over_scale. apply sum_over_ext_all. intros p.
  rewrite <- sum_over_scale. apply sum_over_ext_all. intros q. lra.
Qed.

Lemma quad_reweight {A} (phi : A -> R) (K : A -> A -> R) (pts : list (R * A)) :
  quad K (reweight phi pts) = quad (fun a b => phi a * phi b * K a b) pts.
Proof.
  unfold quad, reweight. rewrite sum_over_map. apply sum_over_ext_all. intros p.
  rewrite sum_over_map. apply sum_over_ext_all. intros q. simpl. lra.
Qed.

Lemma quad_gram_mul {A} (F : list (A -> R)) (K : A -> A -> R) (pts : list (R * A)) :
  quad (fun a b => gram F a b * K a b) pts
  = sum_over (fun phi => quad K (reweight phi pts)) F.
Proof.
  induction F as [|phi F IH].
  - transitivity (quad (fun a b => 0 * K a b) pts).
    + apply (quad_ext _ _ (fun _ => True)); [|apply Forall_forall; auto].
      intros. unfold gram, sum_over. simpl. lra.
    + rewrite quad_scale. unfold sum_over. simpl. lra.
  - rewrite sum_over_cons, <- IH, quad_reweight, <- quad_plus.
    apply (quad_ext _ _ (fun _ => True)); [|apply Forall_forall; auto].
    intros a b _ _. unfold gram. rewrite sum_over_cons. lra.
Qed.

Lemma reweight_points {A} (P : A -> Prop) phi (pts : list (R * A)) :
  Forall (fun p => P (snd p)) pts -> Forall (fun p => P (snd p)) (reweight phi pts).
Proof.
  induction 1 as [|p pts Hp _ IH]; simpl; constructor; assumption.
Qed.

Section Powers.
Context {A : Type} (P : A -> Prop) (K : A -> A -> R) (F : list (A -> R)).
Hypothesis K_gram : forall a b, P a -> P b -> K a b = gram F a b.

Lemma quad_pow_nonneg (n : nat) (pts : list (R * A)) :
  Forall (fun p => P (snd p)) pts -> 0 <= quad (fun a b => K a b ^ n) pts.
Proof.
  revert pts. induction n as [|n IH]; intros pts HP.
  - simpl. rewrite quad_one. apply Rle_0_sqr.
  - rewrite (quad_ext _ (fun a b => gram F a b * K a b ^ n) P); [| |exact HP].
    + rewrite quad_gram_mul. apply sum_over_nonneg, Forall_forall. intros phi _.
      apply IH, reweight_points, HP.
    + intros a b Ha Hb. simpl. rewrite K_gram by assumption. reflexivity.
Qed.

Lemma quad_exp_partial_nonneg (t : R) (n : nat) (pts : list (R * A)) :
  0 <= t -> Forall (fun p => P (snd p)) pts ->
  0 <= quad (fun a b => exp_partial n (t * K a b)) pts.
Proof.
  intros Ht HP. induction n as [|n IH].
  - unfold exp_partial. simpl.
    rewrite (quad_ext _ (fun a b => / 1 * (K a b ^ 0)) (fun _ => True));
      [|intros; simpl; lra|apply Forall_forall; auto].
    rewrite quad_scale. pose proof (quad_pow_nonneg 0 pts HP). lra.
  - unfold exp_partial in *. 
    rewrite (quad_ext _ (fun a b => sum_f_R0 (fun i => / INR (fact i) * (t * K a b) ^ i) n
                                  + (/ INR (fact (S n)) * t ^ S n) * K a b ^ S n)
               (fun _ => True)); [| |apply Forall_forall; auto].
    + rewrite quad_plus, quad_scale.
      pose proof (quad_pow_nonneg (S n) pts HP) as Hp.
      assert (0 <= / INR (fact (S n)) * t ^ S n).
      { apply Rmult_le_pos; [left; apply Rinv_0_lt_compat, INR_fact_lt_0|apply pow_le, Ht]. }
      assert (0 <= / INR (fact (S n)) * t ^ S n * quad (fun a b => K a b ^ S n) pts)
        by (apply Rmult_le_pos; assumption).
      lra.
    + intros a b _ _. rewrite tech5, Rpow_mult_distr. lra.
Qed.
End Powers.

Lemma Un_cv_sum_over {A} (f : nat -> A -> R) (g : A -> R) (l : list A) :
  (forall x, Un_cv (fun n => f n x) (g x)) ->
  Un_cv (fun n => sum_over (f n) l) (sum_over g l).
Proof.
  intros Hcv. induction l as [|x l IH].
  - unfold sum_over. simpl. intros eps Heps. exists 0%nat. intros n _.
    unfold Rdist. rewrite Rminus_diag, Rabs_R0. exact Heps.
  - apply (CV_plus (fun n => f n x) (fun n => sum_over (f n) l)); [apply Hcv|exact IH].
Qed.

Lemma Un_cv_const (c : R) : Un_cv (fun _ => c) c.
Proof.
  intros eps Heps. exists 0%nat. intros n _.
  unfold Rdist. rewrite Rminus_diag, Rabs_R0. exact Heps.
Qed.

Lemma exp_partial_cv (x : R) : Un_cv (fun n => exp_partial n x) (exp x).
Proof. exact (proj2_sig (exist_exp x)). Qed.

Lemma quad_exp_cv {A} (G : A -> A -> R) (pts : list (R * A)) :
  Un_cv (fun n => quad (fun a b => exp_partial n (G a b)) pts)
        (quad (fun a b => exp (G a b)) pts).
Proof.
  unfold quad.
  apply (Un_cv_sum_over
           (fun n p => sum_over (fun q => fst p * fst q * exp_partial n (G (snd p) (snd q))) pts)).
  intros p.
  apply (Un_cv_sum_over (fun n q => fst p * fst q * exp_partial n (G (snd p) (snd q)))).
  intros q.
  apply (CV_mult (fun _ => fst p * fst q) (fun n => exp_partial n (G (snd p) (snd q)))).
  - apply Un_cv_const.
  - apply exp_partial_cv.
Qed.

Lemma quad_exp_nonneg {A} (P : A -> Prop) (K : A -> A -> R) (F : list (A -> R))
    (t : R) (pts : list (R * A)) :
  (forall a b, P a -> P b -> K a b = gram F a b) ->
  0 <= t -> Forall (fun p => P (snd p)) pts ->
  0 <= quad (fun a b => exp (t * K a b)) pts.
Proof.
  intros HK Ht HP.
  apply Rle_cv_lim with (Un := fun _ => 0)
    (Vn := fun n => quad (fun a b => exp_partial n (t * K a b)) pts).
  - intros n. apply (quad_exp_partial_nonneg P K F HK t n pts Ht HP).
  - apply Un_cv_const.
  - apply (quad_exp_cv (fun a b => t * K a b)).
Qed.

Lemma dot_gram (d : nat) (x y : list R) :
  length x = d -> length y = d -> dot x y = gram (coords d) x y.
Proof.
  revert x y. induction d as [|d IH]; intros [|a x] [|b y] Hx Hy; try discriminate.
  - reflexivity.
  - simpl in Hx, Hy. unfold gram. simpl coords. rewrite sum_over_cons, sum_over_map.
    simpl. unfold dot. simpl. f_equal. apply IH; lia.
Qed.

Lemma sq_distance_dot (x y : list R) :
  length x = length y ->
  sq_distance x y = dot x x + dot y y - 2 * dot x y.
Proof.
  revert y. induction x as [|a x IH]; intros [|b y] E; try discriminate.
  - unfold sq_distance, dot. simpl. lra.
  - simpl in E.
    change (sq_distance (a :: x) (b :: y)) with ((a - b) * (a - b) + sq_distance x y).
    change (dot (a :: x) (a :: x)) with (a * a + dot x x).
    change (dot (b :: y) (b :: y)) with (b * b + dot y y).
    change (dot (a :: x) (b :: y)) with (a * b + dot x y).
    rewrite IH by lia. lra.
Qed.

Lemma gaussian_value_factor (sigma : R) (x y : list R) :
  sigma <> 0 -> length x = length y ->
  gaussian_value sigma x y
  = exp (- dot x x / (2 * sigma)) * exp (- dot y y / (2 * sigma))
    * exp (/ sigma * dot x y).
Proof.
  intros Hs E. unfold gaussian_value. rewrite sq_distance_dot by exact E.
  rewrite <- !exp_plus. f_equal. field. exact Hs.
Qed.

Lemma gaussian_pd (sigma : R) (d : nat) (pts : list (R * list R)) :
  0 < sigma -> Forall (fun p => length (snd p) = d) pts ->
  0 <= quad (gaussian_value sigma) pts.
Proof.
  intros Hs HP.
  rewrite (quad_ext _ (fun a b => exp (- dot a a / (2 * sigma)) * exp (- dot b b / (2 * sigma))
                                  * exp (/ sigma * dot a b))
             (fun v => length v = d)); [| |exact HP].
  - rewrite <- (quad_reweight (fun v => exp (- dot v v / (2 * sigma)))).
    apply (quad_exp_nonneg (fun v => length v = d) dot (coords d)).
    + intros a b Ha Hb. apply dot_gram; assumption.
    + left. apply Rinv_0_lt_compat, Hs.
    + apply (reweight_points (fun v => length v = d)), HP.
  - intros a b Ha Hb. apply gaussian_value_factor; [lra|congruence].
Qed.

Lemma abs_diff_min (s t : R) : Rabs (s - t) = s + t - 2 * Rmin s t.
Proof.
  unfold Rmin. destruct (Rle_dec s t).
  - rewrite Rabs_left1 by lra. lra.
  - rewrite Rabs_right by lra. lra.
Qed.

Lemma l1_distance_min (x y : list R) :
  length x = length y ->
  l1_distance x y = Rsum x + Rsum y - 2 * min_sum x y.
Proof.
  revert y. induction x as [|a x IH]; intros [|b y] E; try discriminate.
  - unfold l1_distance, min_sum. simpl. lra.
  - simpl in E.
    change (l1_distance (a :: x) (b :: y)) with (Rabs (a - b) + l1_distance x y).
    change (min_sum (a :: x) (b :: y)) with (Rmin a b + min_sum x y).
    change (Rsum (a :: x)) with (a + Rsum x).
    change (Rsum (b :: y)) with (b + Rsum y).
    rewrite IH by lia. rewrite abs_diff_min. lra.
Qed.

Lemma foldr_Rmin_le (s0 : R) (l : list R) :
  foldr Rmin s0 l <= s0 /\ Forall (fun s => foldr Rmin s0 l <= s) l.
Proof.
  induction l as [|s l [IH1 IH2]]; simpl.
  - split; [lra|constructor].
  - split.
    + eapply Rle_trans; [apply Rmin_r|exact IH1].
    + constructor; [apply Rmin_l|].
      eapply Forall_impl; [exact IH2|]. intros t Ht. simpl in Ht.
      eapply Rle_trans; [apply Rmin_r|exact Ht].
Qed.

Lemma foldr_Rmin_in (s0 : R) (l : list R) : In (foldr Rmin s0 l) (s0 :: l).
Proof.
  induction l as [|s l IH]; simpl.
  - left. reflexivity.
  - destruct (Rle_dec s (foldr Rmin s0 l)) as [Hle|Hgt].
    + rewrite Rmin_left by exact Hle. right. left. reflexivity.
    + rewrite Rmin_right by lra.
      destruct IH as [IH|IH]; [left; exact IH|right; right; exact IH].
Qed.

Lemma above_in (mu s : R) (l : list R) : In s (above mu l) <-> In s l /\ mu < s.
Proof.
  induction l as [|a l IH]; simpl.
  - tauto.
  - destruct (Rlt_dec mu a) as [Ha|Ha]; simpl; rewrite IH; split.
    + intros [<-|[H1 H2]]; auto.
    + intros [[<-|H1] H2]; auto.
    + intros [H1 H2]; auto.
    + intros [[<-|H1] H2]; [contradiction|auto].
Qed.

Lemma above_length (mu : R) (l : list R) : (length (above mu l) <= length l)%nat.
Proof.
  induction l as [|a l IH]; simpl; [lia|].
  destruct (Rlt_dec mu a); simpl; lia.
Qed.

Lemma above_length_lt (mu : R) (l : list R) :
  In mu l -> (length (above mu l) < length l)%nat.
Proof.
  induction l as [|a l IH]; simpl; [tauto|].
  intros [->|Hin].
  - destruct (Rlt_dec mu mu) as [H|_]; [lra|]. pose proof (above_length mu l). lia.
  - specialize (IH Hin). destruct (Rlt_dec mu a); simpl; lia.
Qed.

Lemma min_features_cons (fuel : nat) (m s0 : R) (l' : list R) :
  min_features (S fuel) m (s0 :: l')
  = (fun _ => sqrt (foldr Rmin s0 l' - m))
      :: map (fun psi s => if Rlt_dec (foldr Rmin s0 l') s then psi s else 0)
             (min_features fuel (foldr Rmin s0 l') (above (foldr Rmin s0 l') (s0 :: l'))).
Proof. reflexivity. Qed.

Lemma min_features_gram (fuel : nat) (m : R) (l : list R) :
  (length l <= fuel)%nat -> Forall (fun s => m <= s) l ->
  forall s t, In s l -> In t l ->
              Rmin s t - m = gram (min_features fuel m l) s t.
Proof.
  revert m l. induction fuel as [|fuel IH]; intros m l Hlen Hm s t Hs Ht.
  - destruct l; [destruct Hs|simpl in Hlen; lia].
  - destruct l as [|s0 l']; [destruct Hs|].
    rewrite min_features_cons.
    set (mu := foldr Rmin s0 l'). set (l := s0 :: l') in *.
    assert (Hmu_in : In mu l) by apply foldr_Rmin_in.
    assert (Hmu_le : forall u, In u l -> mu <= u).
    { intros u [<-|Hu]; [apply foldr_Rmin_le|].
      pose proof (proj2 (foldr_Rmin_le s0 l')) as Hall.
      rewrite Forall_forall in Hall. apply Hall. apply list_elem_of_In. exact Hu. }
    assert (Hm_mu : m <= mu).
    { rewrite Forall_forall in Hm. apply Hm. apply list_elem_of_In. exact Hmu_in. }
    unfold gram. rewrite sum_over_cons, sum_over_map.
    rewrite sqrt_sqrt by lra.
    assert (IH' : forall s t, In s (above mu l) -> In t (above mu l) ->
                   Rmin s t - mu = gram (min_features fuel mu (above mu l)) s t).
    { apply IH.
      - pose proof (above_length_lt mu l Hmu_in). simpl in Hlen. unfold l in *. simpl in *. lia.
      - apply Forall_forall. intros u Hu. apply list_elem_of_In, above_in in Hu. lra. }
    destruct (Rlt_dec mu s) as [Hs'|Hs'], (Rlt_dec mu t) as [Ht'|Ht']; cbn beta iota.
    + pose proof (IH' s t) as E. unfold gram in E.
      rewrite <- E by (apply above_in; auto). lra.
    + rewrite (sum_over_ext_all _ (fun _ => 0)) by (intros; lra).
      rewrite sum_over_zero. assert (t = mu) by (pose proof (Hmu_le t Ht); lra).
      subst t. rewrite Rmin_right by lra. lra.
    + rewrite (sum_over_ext_all _ (fun _ => 0)) by (intros; lra).
      rewrite sum_over_zero. assert (s = mu) by (pose proof (Hmu_le s Hs); lra).
      subst s. rewrite Rmin_left by lra. lra.
    + rewrite (sum_over_ext_all _ (fun _ => 0)) by (intros; lra).
      rewrite sum_over_zero. assert (s = mu) by (pose proof (Hmu_le s Hs); lra).
      assert (t = mu) by (pose proof (Hmu_le t Ht); lra).
      subst s t. rewrite Rmin_left by lra. lra.
Qed.

Lemma gram_app {A} (F1 F2 : list (A -> R)) (a b : A) :
  gram (F1 ++ F2) a b = gram F1 a b + gram F2 a b.
Proof. unfold gram. apply sum_over_app. Qed.

Lemma vector_features_gram (F : list (R -> R)) (values : list R) (m : R) (d : nat)
    (x y : list R) :
  (forall s t, In s values -> In t values -> Rmin s t - m = gram F s t) ->
  length x = d -> length y = d ->
  Forall (fun s => In s values) x -> Forall (fun s => In s values) y ->
  min_sum x y - INR d * m = gram (vector_features F d) x y.
Proof.
  intros HF. revert x y. induction d as [|d IH]; intros [|a x] [|b y] Hx Hy Vx Vy;
    try discriminate.
  - unfold min_sum, gram, sum_over. simpl. lra.
  - simpl in Hx, Hy. inversion Vx; subst. inversion Vy; subst.
    simpl vector_features. rewrite gram_app. unfold gram at 1 2.
    rewrite !sum_over_map. simpl hd. simpl tl.
    fold (gram F a b). fold (gram (vector_features F d) x y).
    rewrite <- HF, <- IH by (try lia; assumption).
    change (min_sum (a :: x) (b :: y)) with (Rmin a b + min_sum x y).
    rewrite S_INR. lra.
Qed.

Lemma laplacian_value_factor (sigma c : R) (x y : list R) :
  sigma <> 0 -> length x = length y ->
  laplacian_value sigma x y
  = exp (/ sigma * c) *
    (exp (- Rsum x / (2 * sigma)) * exp (- Rsum y / (2 * sigma))
     * exp (/ sigma * (min_sum x y - c))).
Proof.
  intros Hs E. unfold laplacian_value. rewrite l1_distance_min by exact E.
  rewrite <- !exp_plus. f_equal. field. exact Hs.
Qed.

Lemma in_concat_values (pts : list (R * list R)) :
  Forall (fun p => Forall (fun s => In s (concat (map snd pts))) (snd p)) pts.
Proof.
  induction pts as [|p pts IH]; constructor.
  - apply Forall_forall. intros s Hs. apply list_elem_of_In in Hs.
    simpl. apply in_or_app. left. exact Hs.
  - eapply Forall_impl; [exact IH|]. intros q Hq. simpl in Hq.
    eapply Forall_impl; [exact Hq|]. intros s Hs. simpl in Hs.
    simpl. apply in_or_app. right. exact Hs.
Qed.

Lemma laplacian_pd (sigma : R) (d : nat) (pts : list (R * list R)) :
  0 < sigma -> Forall (fun p => length (snd p) = d) pts ->
  0 <= quad (laplacian_value sigma) pts.
Proof.
  intros Hs HP.
  set (values := concat (map snd pts)).
  set (m := foldr Rmin 0 values).
  set (F := min_features (length values) m values).
  set (P := fun v : list R => length v = d /\ Forall (fun s => In s values) v).
  assert (HF : forall s t, In s values -> In t values -> Rmin s t - m = gram F s t).
  { apply min_features_gram; [lia|]. apply foldr_Rmin_le. }
  assert (HP' : Forall (fun p => P (snd p)) pts).
  { pose proof (in_concat_values pts) as Hv. fold values in Hv.
    rewrite Forall_forall in *. intros p Hp. split; auto. }
  rewrite (quad_ext _
             (fun a b => exp (/ sigma * (INR d * m)) *
                         (exp (- Rsum a / (2 * sigma)) * exp (- Rsum b / (2 * sigma))
                          * exp (/ sigma * (min_sum a b - INR d * m)))) P);
    [| |exact HP'].
  - rewrite quad_scale.
    apply Rmult_le_pos; [left; apply exp_pos|].
    rewrite <- (quad_reweight (fun v => exp (- Rsum v / (2 * sigma)))
                  (fun a b => exp (/ sigma * (min_sum a b - INR d * m)))).
    apply (quad_exp_nonneg P (fun a b => min_sum a b - INR d * m) (vector_features F d)).
    + intros a b [Ha Va] [Hb Vb].
      apply (vector_features_gram F values m d a b HF Ha Hb Va Vb).
    + left. apply Rinv_0_lt_compat, Hs.
    + apply (reweight_points P), HP'.
  - intros a b [Ha _] [Hb _]. apply laplacian_value_factor; [lra|congruence].
Qed.

Lemma Rsum_app (l1 l2 : list R) : Rsum (l1 ++ l2) = Rsum l1 + Rsum l2.
Proof.
  induction l1 as [|x l1 IH]; simpl; [lra|].
  change (Rsum (x :: l1 ++ l2)) with (x + Rsum (l1 ++ l2)).
  change (Rsum (x :: l1)) with (x + Rsum l1). rewrite IH. lra.
Qed.

Lemma Rsum_pairwise {A B} (k : A -> B -> R) (xs : list A) (ys : list B) :
  Rsum (concat (pairwise k xs ys)) = sum_over (fun x => sum_over (k x) ys) xs.
Proof.
  induction xs as [|x xs IH]; [reflexivity|].
  simpl. rewrite Rsum_app, IH. reflexivity.
Qed.

Lemma length_pairwise {A B C} (k : A -> B -> C) (xs : list A) (ys : list B) :
  length (concat (pairwise k xs ys)) = (length xs * length ys)%nat.
Proof.
  induction xs as [|x xs IH]; [reflexivity|].
  simpl. rewrite length_app, length_map, IH. reflexivity.
Qed.

Lemma mean2_sum (k : list R -> list R -> R) (xs ys : list (list R)) :
  mean2 k xs ys
  = sum_over (fun x => sum_over (k x) ys) xs / (INR (length xs) * INR (length ys)).
Proof. unfold mean2. rewrite Rsum_pairwise, length_pairwise, mult_INR. reflexivity. Qed.

Lemma quad_mmd_weights (k : list R -> list R -> R) (xs ys : list (list R)) :
  (forall x y, k x y = k y x) -> xs <> [] -> ys <> [] ->
  quad k (mmd_weights xs ys)
  = mean2 k xs xs + mean2 k ys ys - 2 * mean2 k xs ys.
Proof.
  intros Hsym Hx Hy.
  assert (HN : INR (length xs) <> 0) by (apply not_0_INR; destruct xs; [congruence|discriminate]).
  assert (HM : INR (length ys) <> 0) by (apply not_0_INR; destruct ys; [congruence|discriminate]).
  rewrite !mean2_sum. unfold quad, mmd_weights.
  set (cx := / INR (length xs)). set (cy := - / INR (length ys)).
  rewrite sum_over_app, !sum_over_map.
  rewrite (sum_over_ext_all
             (fun p => sum_over _ (map (pair cx) xs ++ map (pair cy) ys))
             (fun x => cx * cx * sum_over (k x) xs + cx * cy * sum_over (k x) ys)).
  2:{ intros x. rewrite sum_over_app, !sum_over_map, <- !sum_over_scale.
      simpl. reflexivity. }
  rewrite (sum_over_ext_all
             (fun p => sum_over _ (map (pair cx) xs ++ map (pair cy) ys))
             (fun y => cy * cx * sum_over (k y) xs + cy * cy * sum_over (k y) ys)).
  2:{ intros y. rewrite sum_over_app, !sum_over_map, <- !sum_over_scale.
      simpl. reflexivity. }
  rewrite !sum_over_plus, !sum_over_scale.
  assert (Hyx : sum_over (fun y => sum_over (k y) xs) ys
                = sum_over (fun x => sum_over (k x) ys) xs).
  { rewrite sum_over_exchange. apply sum_over_ext_all. intros x.
    apply sum_over_ext_all. intros y. apply Hsym. }
  rewrite Hyx. unfold cx, cy. field. split; assumption.
Qed.

Lemma sq_distance_sym (x y : list R) : sq_distance x y = sq_distance y x.
Proof.
  revert y. induction x as [|a x IH]; intros [|b y]; try reflexivity.
  change (sq_distance (a :: x) (b :: y)) with ((a - b) * (a - b) + sq_distance x y).
  change (sq_distance (b :: y) (a :: x)) with ((b - a) * (b - a) + sq_distance y x).
  rewrite IH. lra.
Qed.

Lemma l1_distance_sym (x y : list R) : l1_distance x y = l1_distance y x.
Proof.
  revert y. induction x as [|a x IH]; intros [|b y]; try reflexivity.
  change (l1_distance (a :: x) (b :: y)) with (Rabs (a - b) + l1_distance x y).
  change (l1_distance (b :: y) (a :: x)) with (Rabs (b - a) + l1_distance y x).
  rewrite IH, Rabs_minus_sym. reflexivity.
Qed.

Lemma weighted_dim (d : nat) (c : R) (xs : list (list R)) :
  Forall (fun v => length v = d) xs ->
  Forall (fun p => length (snd p) = d) (map (pair c) xs).
Proof. induction 1; simpl; constructor; assumption. Qed.

Lemma mmd_weights_dim (d : nat) (xs ys : list (list R)) :
  Forall (fun v => length v = d) xs -> Forall (fun v => length v = d) ys ->
  Forall (fun p => length (snd p) = d) (mmd_weights xs ys).
Proof.
  intros Hx Hy. unfold mmd_weights. apply Forall_app.
  split; apply weighted_dim; assumption.
Qed.

(** The radicand is at least the epsilon. *)
Lemma radicand_gaussian (sigma : R) (d : nat) (xs ys : list (list R)) :
  0 < sigma -> xs <> [] -> ys <> [] ->
  Forall (fun v => length v = d) xs -> Forall (fun v => length v = d) ys ->
  1 / 1000000 <= radicand (gaussian_value sigma) xs ys.
Proof.
  intros Hs Hx Hy Dx Dy. unfold radicand.
  rewrite <- quad_mmd_weights; [| |exact Hx|exact Hy].
  - pose proof (gaussian_pd sigma d (mmd_weights xs ys) Hs (mmd_weights_dim d xs ys Dx Dy)).
    lra.
  - intros x y. unfold gaussian_value. rewrite sq_distance_sym. reflexivity.
Qed.

Lemma radicand_laplacian (sigma : R) (d : nat) (xs ys : list (list R)) :
  0 < sigma -> xs <> [] -> ys <> [] ->
  Forall (fun v => length v = d) xs -> Forall (fun v => length v = d) ys ->
  1 / 1000000 <= radicand (laplacian_value sigma) xs ys.
Proof.
  intros Hs Hx Hy Dx Dy. unfold radicand.
  rewrite <- quad_mmd_weights; [| |exact Hx|exact Hy].
  - pose proof (laplacian_pd sigma d (mmd_weights xs ys) Hs (mmd_weights_dim d xs ys Dx Dy)).
    lra.
  - intros x y. unfold laplacian_value. rewrite l1_distance_sym. reflexivity.
Qed.

Lemma radicand_same (k : list R -> list R -> R) (xs : list (list R)) :
  radicand k xs xs = 1 / 1000000.
Proof. unfold radicand. lra. Qed.

Lemma sqrt_eps : sqrt (1 / 1000000) = 1 / 1000.
Proof. apply sqrt_lem_1; lra. Qed.

Lemma mean_dims12_pairs (k : list R -> list R -> R) (a b : list (list (list R))) :
  Forall (fun xs => xs <> []) a -> Forall (fun ys => ys <> []) b ->
  mean_dims12 (zip_with (pairwise k) a b) = Ok (zip_with (mean2 k) a b).
Proof.
  intros Ha. revert b. unfold mean_dims12.
  induction Ha as [|xs a Hxs _ IH]; intros b Hb; [reflexivity|].
  destruct Hb as [|ys b Hys Hb]; [reflexivity|].
  simpl. rewrite IH by exact Hb.
  destruct xs as [|x xs]; [congruence|]. destruct ys as [|y ys]; [congruence|].
  reflexivity.
Qed.

Lemma sqrt_radicands (k : list R -> list R -> R) (a b : list (list (list R))) :
  Forall2 (fun xs ys => 0 <= radicand k xs ys) a b ->
  mapR (fun r => Rsqrt_res (r + 1 / 1000000))
    (zip_with (fun s c => s - 2 * c)
       (zip_with Rplus (zip_with (mean2 k) a a) (zip_with (mean2 k) b b))
       (zip_with (mean2 k) a b))
  = Ok (zip_with (fun xs ys => sqrt (radicand k xs ys)) a b).
Proof.
  induction 1 as [|xs ys a b Hr _ IH]; [reflexivity|].
  simpl. rewrite IH. unfold Rsqrt_res.
  change (mean2 k xs xs + mean2 k ys ys - 2 * mean2 k xs ys + 1 / 1000000)
    with (radicand k xs ys).
  destruct (Rle_dec 0 (radicand k xs ys)); [reflexivity|contradiction].
Qed.

Lemma mmd_reference_value (k : list R -> list R -> R) (a b : list (list (list R))) :
  length a = length b ->
  Forall (fun xs => xs <> []) a -> Forall (fun ys => ys <> []) b ->
  Forall2 (fun xs ys => 0 <= radicand k xs ys) a b ->
  mmd_reference k a b = Ok (zip_with (fun xs ys => sqrt (radicand k xs ys)) a b).
Proof.
  intros E Ha Hb Hr. unfold mmd_reference.
  rewrite !mean_dims12_pairs by assumption. simpl.
  unfold mmd_combine.
  rewrite broadcast_pure by (rewrite !length_zip_with; lia). simpl.
  rewrite broadcast_pure by (rewrite !length_zip_with; lia). simpl.
  apply sqrt_radicands, Hr.
Qed.

Lemma Forall2_of_Forall {A B} (P : A -> Prop) (Q : B -> Prop) (R2 : A -> B -> Prop)
    (a : list A) (b : list B) :
  length a = length b -> Forall P a -> Forall Q b ->
  (forall x y, P x -> Q y -> R2 x y) -> Forall2 R2 a b.
Proof.
  intros E Ha. revert b E. induction Ha as [|x a Hx _ IH]; intros [|y b] E Hb HR;
    try discriminate; constructor.
  - inversion Hb; subst. auto.
  - inversion Hb; subst. apply IH; auto.
Qed.

Lemma shape3_items {A} (B N d : nat) (t : list (list (list A))) :
  (0 < N)%nat -> shape3 B N d t ->
  Forall (fun m => m <> [] /\ Forall (fun v => length v = d) m) t.
Proof.
  intros HN [_ Ht]. eapply Forall_impl; [exact Ht|].
  intros m [Hm Hd]. split; [|exact Hd]. destruct m; [simpl in Hm; lia|discriminate].
Qed.

Lemma zip_with_diag {A B} (f : A -> A -> B) (l : list A) :
  zip_with f l l = map (fun x => f x x) l.
Proof. induction l as [|x l IH]; simpl; [reflexivity|]. rewrite IH. reflexivity. Qed.

Lemma map_const_repeat {A B} (c : B) (l : list A) :
  map (fun _ => c) l = repeat c (length l).
Proof. induction l as [|x l IH]; simpl; [reflexivity|]. rewrite IH. reflexivity. Qed.

Lemma mmd_reference_bound (k : list R -> list R -> R) (a b : list (list (list R)))
    (B N M d : nat) :
  (forall xs ys, xs <> [] -> ys <> [] ->
                 Forall (fun v => length v = d) xs -> Forall (fun v => length v = d) ys ->
                 1 / 1000000 <= radicand k xs ys) ->
  (0 < N)%nat -> (0 < M)%nat -> shape3 B N d a -> shape3 B M d b ->
  exists v, mmd_reference k a b = Ok v /\ length v = B /\
            Forall (fun x => 1 / 1000 <= x) v.
Proof.
  intros Hk HN HM Ha Hb.
  assert (E : length a = length b) by (destruct Ha, Hb; congruence).
  assert (LB : length a = B) by (destruct Ha; assumption).
  apply (shape3_items B N d a HN) in Ha. apply (shape3_items B M d b HM) in Hb.
  assert (Hr : Forall2 (fun xs ys => 1 / 1000000 <= radicand k xs ys) a b).
  { eapply Forall2_of_Forall; [exact E|exact Ha|exact Hb|].
    intros xs ys [Hx Dx] [Hy Dy]. apply Hk; assumption. }
  exists (zip_with (fun xs ys => sqrt (radicand k xs ys)) a b). split; [|split].
  - apply mmd_reference_value; [exact E| | |].
    + eapply Forall_impl; [exact Ha|]. intros ? [? ?]; assumption.
    + eapply Forall_impl; [exact Hb|]. intros ? [? ?]; assumption.
    + eapply Forall2_impl; [exact Hr|]. intros; simpl in *; lra.
  - rewrite length_zip_with. lia.
  - clear -Hr. induction Hr as [|xs ys a b Hxy _ IH]; simpl; constructor; [|exact IH].
    rewrite <- sqrt_eps. apply sqrt_le_1_alt. exact Hxy.
Qed.

Lemma mmd_reference_same (k : list R -> list R -> R) (a : list (list (list R)))
    (B N d : nat) :
  (0 < N)%nat -> shape3 B N d a ->
  mmd_reference k a a = Ok (repeat (1 / 1000) B).
Proof.
  intros HN Ha.
  assert (LB : length a = B) by (destruct Ha; assumption).
  apply (shape3_items B N d a HN) in Ha.
  rewrite mmd_reference_value.
  - rewrite zip_with_diag.
    rewrite (map_ext _ (fun _ => 1 / 1000)).
    + rewrite map_const_repeat, LB. reflexivity.
    + intros xs. rewrite radicand_same. apply sqrt_eps.
  - reflexivity.
  - eapply Forall_impl; [exact Ha|]. intros ? [? ?]; assumption.
  - eapply Forall_impl; [exact Ha|]. intros ? [? ?]; assumption.
  - clear. induction a as [|xs a IH]; constructor; [|exact IH].
    rewrite radicand_same. lra.
Qed.

(** C4, as amended: for a positive bandwidth and batches of shapes
    (B, N, d) and (B, M, d) with at least one sample per batch item
    (N, M >= 1), both estimators return one value per batch item and every
    value is non-negative.  When the two batches are the same samples, every
    value is within numerical tolerance of zero: the within and cross terms
    cancel, the epsilon 1e-6 is all that is left under the square root, and
    the value is no more than 0.002. *)
Theorem mmd_non_negative (sigma : R) (a b : list (list (list R))) (B N M d : nat) :
  0 < sigma -> (0 < N)%nat -> (0 < M)%nat -> shape3 B N d a -> shape3 B M d b ->
  (exists v, mmd_loss_gaussian a b sigma = Ok v /\ length v = B /\
             Forall (fun x => 0 <= x) v) /\
  (exists v, mmd_loss_laplacian a b sigma = Ok v /\ length v = B /\
             Forall (fun x => 0 <= x) v) /\
  (exists v, mmd_loss_gaussian a a sigma = Ok v /\ length v = B /\
             Forall (fun x => 0 <= x <= 2 / 1000) v) /\
  (exists v, mmd_loss_laplacian a a sigma = Ok v /\ length v = B /\
             Forall (fun x => 0 <= x <= 2 / 1000) v).
Proof.
  intros Hs HN HM Ha Hb.
  assert (Hs' : sigma <> 0) by lra.
  assert (E : length a = length b) by (destruct Ha, Hb; congruence).
  pose proof (shape3_same_dim B N d a Ha) as Da.
  pose proof (shape3_same_dim B M d b Hb) as Db.
  rewrite (mmd_loss_gaussian_reference sigma a b d Hs' E Da Db).
  rewrite (mmd_loss_laplacian_reference sigma a b d Hs' E Da Db).
  rewrite (mmd_loss_gaussian_reference sigma a a d Hs' eq_refl Da Da).
  rewrite (mmd_loss_laplacian_reference sigma a a d Hs' eq_refl Da Da).
  assert (Hsame : forall k, exists v,
             mmd_reference k a a = Ok v /\ length v = B /\
             Forall (fun x => 0 <= x <= 2 / 1000) v).
  { intros k. exists (repeat (1 / 1000) B).
    split; [exact (mmd_reference_same k a B N d HN Ha)|].
    split; [apply repeat_length|].
    apply Forall_forall. intros x Hx. apply list_elem_of_In, repeat_spec in Hx. lra. }
  split; [|split; [|split]].
  - destruct (mmd_reference_bound (gaussian_value sigma) a b B N M d) as [v [Ev [Lv Hv]]];
      try assumption.
    { intros. apply (radicand_gaussian sigma d); assumption. }
    exists v. split; [exact Ev|]. split; [exact Lv|].
    eapply Forall_impl; [exact Hv|]. intros x Hx. simpl in Hx. lra.
  - destruct (mmd_reference_bound (laplacian_value sigma) a b B N M d) as [v [Ev [Lv Hv]]];
      try assumption.
    { intros. apply (radicand_laplacian sigma d); assumption. }
    exists v. split; [exact Ev|]. split; [exact Lv|].
    eapply Forall_impl; [exact Hv|]. intros x Hx. simpl in Hx. lra.
  - apply Hsame.
  - apply Hsame.
Qed.

(** Both estimators at sigma = 1/5 for the one-sample batches (0) and (1). *)
Lemma mmd_non_negative_witness :
  0 < 1 / 5 /\ (0 < 1)%nat /\ shape3 1 1 1 [[[0]]] /\ shape3 1 1 1 [[[1]]] /\
  (exists v, mmd_loss_gaussian [[[0]]] [[[1]]] (1 / 5) = Ok v /\ length v = 1%nat /\
             Forall (fun x => 0 <= x) v) /\
  (exists v, mmd_loss_laplacian [[[0]]] [[[1]]] (1 / 5) = Ok v /\ length v = 1%nat /\
             Forall (fun x => 0 <= x) v) /\
  (exists v, mmd_loss_gaussian [[[0]]] [[[0]]] (1 / 5) = Ok v /\ length v = 1%nat /\
             Forall (fun x => 0 <= x <= 2 / 1000) v) /\
  (exists v, mmd_loss_laplacian [[[0]]] [[[0]]] (1 / 5) = Ok v /\ length v = 1%nat /\
             Forall (fun x => 0 <= x <= 2 / 1000) v).
Proof.
  assert (Hs : 0 < 1 / 5) by lra.
  split; [exact Hs|]. split; [lia|].
  split; [exact (shape3_single [0])|]. split; [exact (shape3_single [1])|].
  exact (mmd_non_negative (1 / 5) [[[0]]] [[[1]]] 1 1 1 1 Hs
           (Nat.lt_0_succ 0) (Nat.lt_0_succ 0) (shape3_single [0]) (shape3_single [1])).
Defined.

(** C4, as stated, fails: for a batch item without samples the means are
    taken over no entries; for a negative bandwidth (here -1, samples (0)
    and (1)) the sum under the square root is 2 - 2 exp(1/2) + 1e-6 < 0; for
    the bandwidth 0 the kernel of a sample with itself is 0/0.  In each case
    the estimator returns nan, no non-negative value. *)
Lemma mmd_not_a_number :
  mmd_loss_gaussian [[]] [[]] (1 / 5) = Err NotFinite /\
  mmd_loss_laplacian [[]] [[]] (1 / 5) = Err NotFinite /\
  mmd_loss_gaussian [[[0]]] [[[1]]] (-1) = Err NotFinite /\
  mmd_loss_gaussian [[[0]]] [[[0]]] 0 = Err NotFinite.
Proof.
  split; [reflexivity|]. split; [reflexivity|]. split.
  - rewrite (mmd_loss_gaussian_reference (-1) [[[0]]] [[[1]]] 1);
      [|lra|reflexivity|repeat constructor|repeat constructor].
    unfold mmd_reference. simpl. unfold mmd_combine, broadcast. simpl.
    unfold Rsqrt_res.
    match goal with |- context [Rle_dec 0 ?x] => destruct (Rle_dec 0 x) as [Hle|_] end;
      [|reflexivity].
    exfalso. unfold gaussian_value, sq_distance in Hle. simpl in Hle.
    replace (- ((0 - 0) * (0 - 0) + 0) / (2 * -1)) with 0 in Hle by field.
    replace (- ((1 - 1) * (1 - 1) + 0) / (2 * -1)) with 0 in Hle by field.
    replace (- ((0 - 1) * (0 - 1) + 0) / (2 * -1)) with (1 / 2) in Hle by field.
    rewrite exp_0 in Hle. pose proof (exp_ineq1 (1 / 2)) as Hexp.
    simpl in Hle. lra.
  - unfold mmd_loss_gaussian, gaussian_terms, sub4, unsqueeze2, unsqueeze1,
      gaussian_kernel. simpl.
    unfold check_divisor. destruct (Req_dec_T (2 * 0) 0) as [_|N]; [reflexivity|].
    exfalso. apply N. lra.
Qed.

(** ** Further properties of the code *)

(** *** More on checkpoints (lines 282-319) *)

Section CheckpointMore.
Context {PolicyParams QParams CvaeParams AdamSt V : Type}.

Abbreviation AgentK := (@Agent PolicyParams QParams CvaeParams AdamSt V).
Abbreviation CkptK := (gmap string (@CkptVal PolicyParams QParams AdamSt)).

Lemma dom_store (s : AgentK) :
  dom (store_agent_checkpoint s)
  = {[ "q_net1"; "q_net2"; "policy_net"; "q_optimizer1"; "q_optimizer2";
       "policy_optimizer"; "train_step"; "log_alpha_prime";
       "alpha_prime_optimizer" ]}
    ∪ (if auto_alpha_tuning s then {[ "log_alpha"; "alpha_optimizer" ]} else ∅).
Proof.
  unfold store_agent_checkpoint, auto_alpha_tuning.
  destruct (alpha_tuning s); rewrite !dom_insert_L, dom_empty_L; set_solver.
Qed.

Lemma get_Ok_dom (checkpoint : CkptK) (key : string) v :
  get checkpoint key = Ok v -> key ∈ dom checkpoint.
Proof.
  unfold get. destruct (checkpoint !! key) eqn:E; [|discriminate].
  intros _. apply elem_of_dom. eexists. exact E.
Qed.

Lemma get_critic_dom (checkpoint : CkptK) key x :
  get_critic checkpoint key = Ok x -> key ∈ dom checkpoint.
Proof.
  unfold get_critic. destruct (get checkpoint key) eqn:E; [|discriminate].
  intros _. exact (get_Ok_dom _ _ _ E).
Qed.

Lemma get_policy_dom (checkpoint : CkptK) key x :
  get_policy checkpoint key = Ok x -> key ∈ dom checkpoint.
Proof.
  unfold get_policy. destruct (get checkpoint key) eqn:E; [|discriminate].
  intros _. exact (get_Ok_dom _ _ _ E).
Qed.

Lemma get_optim_dom (checkpoint : CkptK) key x :
  get_optim checkpoint key = Ok x -> key ∈ dom checkpoint.
Proof.
  unfold get_optim. destruct (get checkpoint key) eqn:E; [|discriminate].
  intros _. exact (get_Ok_dom _ _ _ E).
Qed.

Lemma get_int_dom (checkpoint : CkptK) key x :
  get_int checkpoint key = Ok x -> key ∈ dom checkpoint.
Proof.
  unfold get_int. destruct (get checkpoint key) eqn:E; [|discriminate].
  intros _. exact (get_Ok_dom _ _ _ E).
Qed.

Lemma get_tensor_dom (checkpoint : CkptK) key x :
  get_tensor checkpoint key = Ok x -> key ∈ dom checkpoint.
Proof.
  unfold get_tensor. destruct (get checkpoint key) eqn:E; [|discriminate].
  intros _. exact (get_Ok_dom _ _ _ E).
Qed.

(** What a successful load has read. *)
Lemma load_inv (s s' : AgentK) (checkpoint : CkptK) :
  load_agent_checkpoint s checkpoint = Ok s' ->
  get_critic checkpoint "q_net1" = Ok (q_net1 s') /\
  get_critic checkpoint "q_net2" = Ok (q_net2 s') /\
  get_policy checkpoint "policy_net" = Ok (policy_params s') /\
  get_optim checkpoint "q_optimizer1" = Ok (q_optimizer1 s') /\
  get_optim checkpoint "q_optimizer2" = Ok (q_optimizer2 s') /\
  get_optim checkpoint "policy_optimizer" = Ok (policy_optimizer s') /\
  get_int checkpoint "train_step" = Ok (train_step s') /\
  get_tensor checkpoint "log_alpha_prime" = Ok (data (log_alpha_prime s')) /\
  get_optim checkpoint "alpha_prime_optimizer" = Ok (alpha_prime_optimizer s') /\
  match alpha_tuning s with
  | Some t =>
      exists la a_opt,
        get_tensor checkpoint "log_alpha" = Ok la /\
        get_optim checkpoint "alpha_optimizer" = Ok a_opt /\
        alpha_tuning s' = Some {| target_entropy := target_entropy t; log_alpha := la;
                                  alpha_optimizer := a_opt; alpha_param := Replaced |}
  | None => alpha_tuning s' = None
  end /\
  alpha s' = alpha s /\ cfg s' = cfg s /\ policy_grad s' = policy_grad s /\
  leaf_grad (log_alpha_prime s') = None /\ alpha_prime_param s' = Replaced /\
  same_unsaved s s'.
Proof.
  unfold load_agent_checkpoint. intros Hload.
  destruct (get_critic checkpoint "q_net1") as [q1|]; [|discriminate].
  destruct (get_critic checkpoint "q_net2") as [q2|]; [|discriminate].
  destruct (get_policy checkpoint "policy_net") as [p|]; [|discriminate].
  destruct (get_optim checkpoint "q_optimizer1") as [o1|]; [|discriminate].
  destruct (get_optim checkpoint "q_optimizer2") as [o2|]; [|discriminate].
  destruct (get_optim checkpoint "policy_optimizer") as [po|]; [|discriminate].
  destruct (get_int checkpoint "train_step") as [z|]; [|discriminate].
  unfold mbind, res_bind in Hload.
  destruct (alpha_tuning s) as [t|].
  - destruct (get_tensor checkpoint "log_alpha") as [la|]; [|discriminate].
    destruct (get_optim checkpoint "alpha_optimizer") as [ao|]; [|discriminate].
    destruct (get_tensor checkpoint "log_alpha_prime") as [lap|]; [|discriminate].
    destruct (get_optim checkpoint "alpha_prime_optimizer") as [apo|]; [|discriminate].
    injection Hload as <-. simpl. repeat split. exists la, ao. repeat split.
  - destruct (get_tensor checkpoint "log_alpha_prime") as [lap|]; [|discriminate].
    destruct (get_optim checkpoint "alpha_prime_optimizer") as [apo|]; [|discriminate].
    injection Hload as <-. simpl. repeat split.
Qed.

Lemma load_needs_keys (s s' : AgentK) (checkpoint : CkptK) :
  load_agent_checkpoint s checkpoint = Ok s' ->
  dom (store_agent_checkpoint s) ⊆ dom checkpoint.
Proof.
  intros Hload. apply load_inv in Hload.
  destruct Hload as (H1 & H2 & H3 & H4 & H5 & H6 & H7 & H8 & H9 & Ht & _).
  apply get_critic_dom in H1, H2. apply get_policy_dom in H3.
  apply get_optim_dom in H4, H5, H6, H9. apply get_int_dom in H7.
  apply get_tensor_dom in H8.
  rewrite dom_store. unfold auto_alpha_tuning.
  destruct (alpha_tuning s) as [t|].
  - destruct Ht as (la & ao & Hla & Hao & _).
    apply get_tensor_dom in Hla. apply get_optim_dom in Hao.
    apply elem_of_subseteq. intros k Hk.
    repeat (apply elem_of_union in Hk as [Hk|Hk]);
      apply elem_of_singleton in Hk; subst k; assumption.
  - apply elem_of_subseteq. intros k Hk.
    repeat (apply elem_of_union in Hk as [Hk|Hk]);
      first [ apply elem_of_empty in Hk; contradiction
            | apply elem_of_singleton in Hk; subst k; assumption ].
Qed.

Lemma get_insert_ne (checkpoint : CkptK) (k key : string) v :
  k <> key -> get (<[k := v]> checkpoint) key = get checkpoint key.
Proof. intros Hne. unfold get. rewrite lookup_insert_ne by exact Hne. reflexivity. Qed.

Lemma load_insert_other (s : AgentK) (checkpoint : CkptK) (k : string) v :
  k ∉ dom (store_agent_checkpoint s) ->
  load_agent_checkpoint s (<[k := v]> checkpoint) = load_agent_checkpoint s checkpoint.
Proof.
  rewrite dom_store. unfold auto_alpha_tuning, load_agent_checkpoint. intros Hk.
  unfold get_critic, get_policy, get_optim, get_int, get_tensor.
  destruct (alpha_tuning s) as [t|];
    rewrite !get_insert_ne by (intros E; apply Hk; rewrite E; clear; set_solver); reflexivity.
Qed.

(** X1: [load_agent_checkpoint] reads exactly the keys [store_agent_checkpoint]
    writes for an agent with the loading agent's [auto_alpha_tuning] flag.
    A load that succeeds has found every one of them in the record; with
    any one of them deleted from the record the load raises; an entry under
    any other key makes no difference; the empty record raises KeyError. *)
Theorem load_reads_exactly_its_keys (s : AgentK) (checkpoint : CkptK) :
  (forall s', load_agent_checkpoint s checkpoint = Ok s' ->
              dom (store_agent_checkpoint s) ⊆ dom checkpoint) /\
  (forall k, k ∈ dom (store_agent_checkpoint s) ->
             exists e, load_agent_checkpoint s (delete k checkpoint) = Err e) /\
  (forall k v, k ∉ dom (store_agent_checkpoint s) ->
               load_agent_checkpoint s (<[k := v]> checkpoint)
               = load_agent_checkpoint s checkpoint) /\
  load_agent_checkpoint s ∅ = Err KeyError.
Proof.
  split; [|split; [|split]].
  - intros s'. apply load_needs_keys.
  - intros k Hk.
    destruct (load_agent_checkpoint s (delete k checkpoint)) as [s'|e] eqn:E;
      [|exists e; reflexivity].
    exfalso. apply load_needs_keys in E.
    pose proof (proj1 (elem_of_subseteq _ _) E k Hk) as Hin.
    apply elem_of_dom in Hin as [v Hv]. rewrite lookup_delete_eq in Hv. discriminate.
  - intros k v. apply load_insert_other.
  - reflexivity.
Qed.

(** X2: loading across different [auto_alpha_tuning] flags.  An agent
    with the flag set cannot load the record of an agent without it: the
    record has no log_alpha and the load raises KeyError.  An agent without
    the flag loads the record of any agent: it ignores log_alpha and
    alpha_optimizer, restores the critics, the policy, their optimizer
    states, log_alpha_prime, its optimizer state and the step counter, and
    keeps its own fixed temperature. *)
Theorem load_across_tuning_flags (s s0 : AgentK) :
  (auto_alpha_tuning s0 = true -> auto_alpha_tuning s = false ->
   load_agent_checkpoint s0 (store_agent_checkpoint s) = Err KeyError) /\
  (auto_alpha_tuning s0 = false ->
   exists s', load_agent_checkpoint s0 (store_agent_checkpoint s) = Ok s' /\
     alpha_tuning s' = None /\ alpha s' = alpha s0 /\
     q_net1 s' = q_net1 s /\ q_net2 s' = q_net2 s /\
     policy_params s' = policy_params s /\
     q_optimizer1 s' = q_optimizer1 s /\ q_optimizer2 s' = q_optimizer2 s /\
     policy_optimizer s' = policy_optimizer s /\
     train_step s' = train_step s /\
     data (log_alpha_prime s') = data (log_alpha_prime s) /\
     alpha_prime_optimizer s' = alpha_prime_optimizer s).
Proof.
  unfold auto_alpha_tuning, load_agent_checkpoint.
  rewrite store_q_net1, store_q_net2, store_policy_net, store_q_optimizer1,
    store_q_optimizer2, store_policy_optimizer, store_train_step,
    store_log_alpha_prime, store_alpha_prime_optimizer,
    store_log_alpha, store_alpha_optimizer.
  split.
  - destruct (alpha_tuning s0), (alpha_tuning s); try discriminate. reflexivity.
  - destruct (alpha_tuning s0); [discriminate|]. intros _. simpl.
    eexists. split; [reflexivity|]. simpl. repeat split.
Qed.

Lemma store_same_checkpointed (s s' : AgentK) :
  same_checkpointed s s' -> store_agent_checkpoint s' = store_agent_checkpoint s.
Proof.
  intros (E1 & E2 & E3 & E4 & E5 & E6 & E7 & E8 & E9 & E10 & E11).
  unfold store_agent_checkpoint.
  rewrite E1, E2, E3, E4, E5, E6, E7, E8, E9.
  destruct (alpha_tuning s') as [t'|], (alpha_tuning s) as [t|]; simpl in *;
    try discriminate; [|reflexivity].
  injection E10 as ->. injection E11 as ->. reflexivity.
Qed.

(** X3: the record an agent saves, loaded into any agent with the same
    [auto_alpha_tuning] flag and saved again from there, is the same
    record. *)
Theorem stored_record_survives_reload (s s0 : AgentK) :
  auto_alpha_tuning s0 = auto_alpha_tuning s ->
  exists s', load_agent_checkpoint s0 (store_agent_checkpoint s) = Ok s' /\
             store_agent_checkpoint s' = store_agent_checkpoint s.
Proof.
  intros Hflag. destruct (load_store s s0 Hflag) as [s' [E [Hc _]]].
  exists s'. split; [exact E|]. apply store_same_checkpointed, Hc.
Qed.

End CheckpointMore.

(** *** More on the estimators (lines 121-149) *)

Lemma mmd_reference_radicands (k : list R -> list R -> R) (a b : list (list (list R))) :
  length a = length b ->
  Forall (fun xs => xs <> []) a -> Forall (fun ys => ys <> []) b ->
  mmd_reference k a b = mapR Rsqrt_res (zip_with (radicand k) a b).
Proof.
  intros E Ha Hb. unfold mmd_reference.
  rewrite !mean_dims12_pairs by assumption. simpl.
  unfold mmd_combine.
  rewrite broadcast_pure by (rewrite !length_zip_with; lia). simpl.
  rewrite broadcast_pure by (rewrite !length_zip_with; lia). simpl.
  clear Ha Hb. revert b E. induction a as [|xs a IH]; intros [|ys b] E;
    try discriminate; [reflexivity|].
  simpl. rewrite IH by (simpl in E; lia). reflexivity.
Qed.

(** Bounds on kernel values *)
Lemma sq_distance_nonneg (x y : list R) : 0 <= sq_distance x y.
Proof.
  revert y. induction x as [|a x IH]; intros [|b y]; try (right; reflexivity).
  change (sq_distance (a :: x) (b :: y)) with ((a - b) * (a - b) + sq_distance x y).
  specialize (IH y). pose proof (Rle_0_sqr (a - b)) as Hsq. unfold Rsqr in Hsq. lra.
Qed.

Lemma l1_distance_nonneg (x y : list R) : 0 <= l1_distance x y.
Proof.
  revert y. induction x as [|a x IH]; intros [|b y]; try (right; reflexivity).
  change (l1_distance (a :: x) (b :: y)) with (Rabs (a - b) + l1_distance x y).
  specialize (IH y). pose proof (Rabs_pos (a - b)). lra.
Qed.

Lemma exp_nonpos_le_1 (t : R) : t <= 0 -> 0 < exp t <= 1.
Proof.
  intros Ht. split; [apply exp_pos|].
  destruct Ht as [Ht | ->]; [|rewrite exp_0; lra].
  left. rewrite <- exp_0. apply exp_increasing. exact Ht.
Qed.

Lemma gaussian_value_range (sigma : R) (x y : list R) :
  0 < sigma -> 0 < gaussian_value sigma x y <= 1.
Proof.
  intros Hs. apply exp_nonpos_le_1. pose proof (sq_distance_nonneg x y) as Hd.
  unfold Rdiv. assert (0 < / (2 * sigma)) by (apply Rinv_0_lt_compat; lra). nra.
Qed.

Lemma laplacian_value_range (sigma : R) (x y : list R) :
  0 < sigma -> 0 < laplacian_value sigma x y <= 1.
Proof.
  intros Hs. apply exp_nonpos_le_1. pose proof (l1_distance_nonneg x y) as Hd.
  unfold Rdiv. assert (0 < / (2 * sigma)) by (apply Rinv_0_lt_compat; lra). nra.
Qed.

Lemma sum_over_le {A} (f g : A -> R) (l : list A) :
  (forall x, f x <= g x) -> sum_over f l <= sum_over g l.
Proof.
  intros H. induction l as [|x l IH]; [unfold sum_over; simpl; lra|].
  rewrite !sum_over_cons. specialize (H x). lra.
Qed.

Lemma sum_over_const {A} (c : R) (l : list A) : sum_over (fun _ => c) l = INR (length l) * c.
Proof.
  induction l as [|x l IH]; [unfold sum_over; simpl; lra|].
  rewrite sum_over_cons, IH. rewrite length_cons, S_INR. lra.
Qed.

Lemma mean2_range (k : list R -> list R -> R) (xs ys : list (list R)) :
  (forall x y, 0 < k x y <= 1) -> xs <> [] -> ys <> [] -> 0 <= mean2 k xs ys <= 1.
Proof.
  intros Hk Hx Hy. rewrite mean2_sum.
  assert (HN : 0 < INR (length xs)) by (apply lt_0_INR; destruct xs; [congruence|simpl; lia]).
  assert (HM : 0 < INR (length ys)) by (apply lt_0_INR; destruct ys; [congruence|simpl; lia]).
  assert (HNM : 0 < INR (length xs) * INR (length ys)) by (apply Rmult_lt_0_compat; assumption).
  assert (Hlo : 0 <= sum_over (fun x => sum_over (k x) ys) xs).
  { apply sum_over_nonneg, Forall_forall. intros x _.
    apply sum_over_nonneg, Forall_forall. intros y _. destruct (Hk x y). lra. }
  assert (Hhi : sum_over (fun x => sum_over (k x) ys) xs <= INR (length xs) * INR (length ys)).
  { transitivity (sum_over (fun _ : list R => INR (length ys)) xs).
    - apply sum_over_le. intros x.
      transitivity (sum_over (fun _ : list R => 1) ys).
      + apply sum_over_le. intros y. destruct (Hk x y). assumption.
      + rewrite sum_over_const. lra.
    - rewrite sum_over_const. lra. }
  split.
  - apply Rmult_le_pos; [exact Hlo|]. left. apply Rinv_0_lt_compat, HNM.
  - apply (Rmult_le_reg_r (INR (length xs) * INR (length ys))); [exact HNM|].
    unfold Rdiv. rewrite Rmult_assoc, Rinv_l by lra. lra.
Qed.

Lemma radicand_upper (k : list R -> list R -> R) (xs ys : list (list R)) :
  (forall x y, 0 < k x y <= 1) -> xs <> [] -> ys <> [] ->
  radicand k xs ys <= 2 + 1 / 1000000.
Proof.
  intros Hk Hx Hy. unfold radicand.
  pose proof (mean2_range k xs xs Hk Hx Hx).
  pose proof (mean2_range k ys ys Hk Hy Hy).
  pose proof (mean2_range k xs ys Hk Hx Hy). lra.
Qed.

Lemma mmd_reference_upper (k : list R -> list R -> R) (a b : list (list (list R)))
    (B N M d : nat) (v : list R) :
  (forall x y, 0 < k x y <= 1) ->
  (0 < N)%nat -> (0 < M)%nat -> shape3 B N d a -> shape3 B M d b ->
  mmd_reference k a b = Ok v ->
  Forall (fun x => x <= sqrt (2 + 1 / 1000000)) v.
Proof.
  intros Hk HN HM Ha Hb.
  assert (E : length a = length b) by (destruct Ha, Hb; congruence).
  apply (shape3_items B N d a HN) in Ha. apply (shape3_items B M d b HM) in Hb.
  assert (Ha' : Forall (fun xs : list (list R) => xs <> []) a)
    by (eapply Forall_impl; [exact Ha|]; intros ? [? ?]; assumption).
  assert (Hb' : Forall (fun xs : list (list R) => xs <> []) b)
    by (eapply Forall_impl; [exact Hb|]; intros ? [? ?]; assumption).
  rewrite mmd_reference_radicands by assumption.
  clear Ha Hb. revert b v E Hb'. induction Ha' as [|xs a Hxs _ IH]; intros [|ys b] v E Hb';
    try discriminate; simpl.
  - intros Hv. injection Hv as <-. constructor.
  - inversion Hb' as [|? ? Hys Hb'']; subst.
    destruct (Rsqrt_res (radicand k xs ys)) as [y|] eqn:Ey; [|intros Hv; discriminate Hv].
    destruct (mapR Rsqrt_res (zip_with (radicand k) a b)) as [w|] eqn:Ew;
      [|intros Hv; discriminate Hv].
    intros Hv. injection Hv as <-. constructor.
    + unfold Rsqrt_res in Ey. destruct (Rle_dec 0 (radicand k xs ys)); [|discriminate].
      injection Ey as <-. apply sqrt_le_1_alt. apply radicand_upper; assumption.
    + apply (IH b); [simpl in E; lia|exact Hb''|exact Ew].
Qed.

(** X4: for a positive bandwidth and batches of shapes (B, N, d) and
    (B, M, d) with N, M >= 1, both estimators return one value per batch
    item, each below 1.5: the kernel values lie in (0, 1], so the sum under
    the square root is at most 2 + 1e-6. *)
Theorem mmd_below_three_halves (sigma : R) (a b : list (list (list R))) (B N M d : nat) :
  0 < sigma -> (0 < N)%nat -> (0 < M)%nat -> shape3 B N d a -> shape3 B M d b ->
  (exists v, mmd_loss_gaussian a b sigma = Ok v /\ length v = B /\
             Forall (fun x => x < 3 / 2) v) /\
  (exists v, mmd_loss_laplacian a b sigma = Ok v /\ length v = B /\
             Forall (fun x => x < 3 / 2) v).
Proof.
  intros Hs HN HM Ha Hb.
  assert (Hs' : sigma <> 0) by lra.
  assert (E : length a = length b) by (destruct Ha, Hb; congruence).
  pose proof (shape3_same_dim B N d a Ha) as Da.
  pose proof (shape3_same_dim B M d b Hb) as Db.
  rewrite (mmd_loss_gaussian_reference sigma a b d Hs' E Da Db).
  rewrite (mmd_loss_laplacian_reference sigma a b d Hs' E Da Db).
  assert (H32 : sqrt (2 + 1 / 1000000) < 3 / 2).
  { replace (3 / 2) with (sqrt ((3 / 2) * (3 / 2))) by (apply sqrt_square; lra).
    apply sqrt_lt_1_alt. lra. }
  split.
  - destruct (mmd_reference_bound (gaussian_value sigma) a b B N M d) as [v [Ev [Lv _]]];
      try assumption.
    { intros. apply (radicand_gaussian sigma d); assumption. }
    exists v. split; [exact Ev|]. split; [exact Lv|].
    eapply Forall_impl;
      [apply (mmd_reference_upper (gaussian_value sigma) a b B N M d v); try assumption;
       intros x y; apply gaussian_value_range, Hs|].
    intros x Hx. simpl in Hx. lra.
  - destruct (mmd_reference_bound (laplacian_value sigma) a b B N M d) as [v [Ev [Lv _]]];
      try assumption.
    { intros. apply (radicand_laplacian sigma d); assumption. }
    exists v. split; [exact Ev|]. split; [exact Lv|].
    eapply Forall_impl;
      [apply (mmd_reference_upper (laplacian_value sigma) a b B N M d v); try assumption;
       intros x y; apply laplacian_value_range, Hs|].
    intros x Hx. simpl in Hx. lra.
Qed.

Section Items.
Context {T : Type} `{Scalar T}.

Lemma mean_dims12_mean_pairs (k : list T -> list T -> T) (a b : list (list (list T))) :
  Forall (fun xs => xs <> []) a -> Forall (fun ys => ys <> []) b ->
  mean_dims12 (zip_with (pairwise k) a b) = Ok (zip_with (mean_pairs k) a b).
Proof.
  intros Ha. revert b. unfold mean_dims12.
  induction Ha as [|xs a Hxs _ IH]; intros b Hb; [reflexivity|].
  destruct Hb as [|ys b Hys Hb]; [reflexivity|].
  simpl. rewrite IH by exact Hb.
  destruct xs as [|x xs]; [congruence|]. destruct ys as [|y ys]; [congruence|].
  reflexivity.
Qed.

Lemma mmd_combine_items (k : list T -> list T -> T) (a b : list (list (list T))) :
  length a = length b ->
  mmd_combine (zip_with (mean_pairs k) a a) (zip_with (mean_pairs k) b b)
    (zip_with (mean_pairs k) a b)
  = zipR (mmd_item k) a b.
Proof.
  intros E. unfold mmd_combine.
  rewrite broadcast_pure by (rewrite !length_zip_with; lia). simpl.
  rewrite broadcast_pure by (rewrite !length_zip_with; lia). simpl.
  revert b E. induction a as [|xs a IH]; intros [|ys b] E; try discriminate; [reflexivity|].
  simpl. rewrite IH by (simpl in E; lia). reflexivity.
Qed.

Lemma shape_nonempty (N d : nat) (a : list (list (list T))) (B : nat) :
  (0 < N)%nat -> shape3 B N d a -> Forall (fun xs => xs <> []) a.
Proof.
  intros HN Ha. apply (shape3_items B N d a HN) in Ha.
  eapply Forall_impl; [exact Ha|]. intros ? [? ?]; assumption.
Qed.

Lemma mmd_loss_gaussian_items (sigma : R) (a b : list (list (list T))) (B N M d : nat) :
  sigma <> 0 -> (0 < N)%nat -> (0 < M)%nat -> shape3 B N d a -> shape3 B M d b ->
  mmd_loss_gaussian a b sigma = zipR (mmd_item (gaussian_entry sigma)) a b.
Proof.
  intros Hs HN HM Ha Hb. assert (Hs' : 2 * sigma <> 0) by lra.
  assert (E : length a = length b) by (destruct Ha, Hb; congruence).
  pose proof (shape3_same_dim B N d a Ha) as Da.
  pose proof (shape3_same_dim B M d b Hb) as Db.
  pose proof (shape_nonempty N d a B HN Ha) as Na.
  pose proof (shape_nonempty M d b B HM Hb) as Nb.
  unfold mmd_loss_gaussian.
  rewrite (gaussian_terms_pairs a a sigma d), (gaussian_terms_pairs a b sigma d),
    (gaussian_terms_pairs b b sigma d) by auto.
  simpl.
  rewrite !(mean_dims12_mean_pairs
              (fun x y => texp (tdiv (tneg (tsum (map tsq (zip_with tsub x y)))) (2 * sigma))))
    by assumption.
  simpl. exact (mmd_combine_items (gaussian_entry sigma) a b E).
Qed.

Lemma mmd_loss_laplacian_items (sigma : R) (a b : list (list (list T))) (B N M d : nat) :
  sigma <> 0 -> (0 < N)%nat -> (0 < M)%nat -> shape3 B N d a -> shape3 B M d b ->
  mmd_loss_laplacian a b sigma = zipR (mmd_item (laplacian_entry sigma)) a b.
Proof.
  intros Hs HN HM Ha Hb. assert (Hs' : 2 * sigma <> 0) by lra.
  assert (E : length a = length b) by (destruct Ha, Hb; congruence).
  pose proof (shape3_same_dim B N d a Ha) as Da.
  pose proof (shape3_same_dim B M d b Hb) as Db.
  pose proof (shape_nonempty N d a B HN Ha) as Na.
  pose proof (shape_nonempty M d b B HM Hb) as Nb.
  unfold mmd_loss_laplacian.
  rewrite (laplacian_terms_pairs a a sigma d), (laplacian_terms_pairs a b sigma d),
    (laplacian_terms_pairs b b sigma d) by auto.
  simpl.
  rewrite !(mean_dims12_mean_pairs
              (fun x y => texp (tdiv (tneg (tsum (map tabs (zip_with tsub x y)))) (2 * sigma))))
    by assumption.
  simpl. exact (mmd_combine_items (laplacian_entry sigma) a b E).
Qed.
End Items.

Section TrackedValues.
Context {G : Type} `{VSpace G}.

Lemma val_tsum (l : list (dual G)) : val (tsum l) = Rsum (map val l).
Proof.
  induction l as [|x l IH]; [reflexivity|].
  change (val (tsum (x :: l))) with (val x + val (tsum l)). rewrite IH. reflexivity.
Qed.

Lemma val_diffs (x y : list (dual G)) :
  map val (zip_with tsub x y) = zip_with Rminus (map val x) (map val y).
Proof.
  revert y. induction x as [|a x IH]; intros [|b y]; simpl; try reflexivity.
  rewrite IH. reflexivity.
Qed.

Lemma val_gaussian_entry (sigma : R) (x y : list (dual G)) :
  val (gaussian_entry sigma x y) = gaussian_value sigma (map val x) (map val y).
Proof.
  unfold gaussian_entry, gaussian_value, sq_distance. simpl.
  rewrite val_tsum, map_map.
  rewrite <- val_diffs, map_map. reflexivity.
Qed.

Lemma val_laplacian_entry (sigma : R) (x y : list (dual G)) :
  val (laplacian_entry sigma x y) = laplacian_value sigma (map val x) (map val y).
Proof.
  unfold laplacian_entry, laplacian_value, l1_distance. simpl.
  rewrite val_tsum, map_map.
  rewrite <- val_diffs, map_map. reflexivity.
Qed.

Lemma val_pairs (kD : list (dual G) -> list (dual G) -> dual G) (k : list R -> list R -> R)
    (xs ys : list (list (dual G))) :
  (forall x y, val (kD x y) = k (map val x) (map val y)) ->
  map val (concat (pairwise kD xs ys))
  = concat (pairwise k (map (map val) xs) (map (map val) ys)).
Proof.
  intros Hk. induction xs as [|x xs IH]; [reflexivity|].
  simpl. rewrite map_app, IH. f_equal.
  rewrite !map_map. apply map_ext. intros y. apply Hk.
Qed.

Lemma val_mean_pairs (kD : list (dual G) -> list (dual G) -> dual G)
    (k : list R -> list R -> R) (xs ys : list (list (dual G))) :
  (forall x y, val (kD x y) = k (map val x) (map val y)) ->
  val (mean_pairs kD xs ys) = mean2 k (map (map val) xs) (map (map val) ys).
Proof.
  intros Hk. unfold mean_pairs, mean2. simpl.
  rewrite val_tsum, (val_pairs kD k xs ys Hk).
  rewrite <- (val_pairs kD k xs ys Hk), length_map. reflexivity.
Qed.

Lemma mmd_item_tracked (kD : list (dual G) -> list (dual G) -> dual G)
    (k : list R -> list R -> R) (xs ys : list (list (dual G))) :
  (forall x y, val (kD x y) = k (map val x) (map val y)) ->
  0 < radicand k (map (map val) xs) (map (map val) ys) ->
  exists m, mmd_item kD xs ys = Ok m /\
            val m = sqrt (radicand k (map (map val) xs) (map (map val) ys)).
Proof.
  intros Hk Hr. unfold mmd_item.
  set (x := tadd (tsub (tadd (mean_pairs kD xs xs) (mean_pairs kD ys ys))
                       (tscale 2 (mean_pairs kD xs ys))) (of_R (1 / 1000000))).
  assert (Hx : val x = radicand k (map (map val) xs) (map (map val) ys)).
  { change (val (mean_pairs kD xs xs) + val (mean_pairs kD ys ys)
            - 2 * val (mean_pairs kD xs ys) + 1 / 1000000
            = radicand k (map (map val) xs) (map (map val) ys)).
    rewrite !(val_mean_pairs kD k) by exact Hk. reflexivity. }
  change (tsqrt x) with (dsqrt x). unfold dsqrt. rewrite Hx.
  destruct (Rlt_dec 0 (radicand k (map (map val) xs) (map (map val) ys))); [|contradiction].
  eexists. split; reflexivity.
Qed.

Lemma zipR_mmd_item_tracked (kD : list (dual G) -> list (dual G) -> dual G)
    (k : list R -> list R -> R) (a b : list (list (list (dual G)))) :
  (forall x y, val (kD x y) = k (map val x) (map val y)) ->
  Forall2 (fun xs ys => 0 < radicand k (map (map val) xs) (map (map val) ys)) a b ->
  exists v, zipR (mmd_item kD) a b = Ok v /\
            map val v = zip_with (fun xs ys => sqrt (radicand k xs ys))
                          (untracked a) (untracked b).
Proof.
  intros Hk. induction 1 as [|xs ys a b Hr _ [v [Ev Hv]]].
  - exists []. split; reflexivity.
  - destruct (mmd_item_tracked kD k xs ys Hk Hr) as [m [Em Hm]].
    exists (m :: v). split.
    + change (zipR (mmd_item kD) (xs :: a) (ys :: b))
        with (z ← mmd_item kD xs ys; zs ← zipR (mmd_item kD) a b; Ok (z :: zs)).
      rewrite Em, Ev. reflexivity.
    + simpl. rewrite Hm, Hv. reflexivity.
Qed.

Lemma shape3_untracked (B N d : nat) (a : list (list (list (dual G)))) :
  shape3 B N d a -> shape3 B N d (untracked a).
Proof.
  intros [L Ha]. split; [unfold untracked; rewrite length_map; exact L|].
  unfold untracked. apply Forall_map. eapply Forall_impl; [exact Ha|].
  intros m [Lm Hm]. simpl. split; [rewrite length_map; exact Lm|].
  apply Forall_map. eapply Forall_impl; [exact Hm|]. intros v Lv. simpl.
  rewrite length_map. exact Lv.
Qed.

Lemma tracked_radicands (k : list R -> list R -> R) (a b : list (list (list (dual G))))
    (B N M d : nat) :
  (forall xs ys, xs <> [] -> ys <> [] ->
                 Forall (fun v => length v = d) xs -> Forall (fun v => length v = d) ys ->
                 1 / 1000000 <= radicand k xs ys) ->
  (0 < N)%nat -> (0 < M)%nat -> shape3 B N d a -> shape3 B M d b ->
  Forall2 (fun xs ys => 1 / 1000000 <= radicand k (map (map val) xs) (map (map val) ys)) a b.
Proof.
  intros Hk HN HM Ha Hb.
  assert (E : length a = length b) by (destruct Ha, Hb; congruence).
  apply (shape3_items B N d a HN) in Ha. apply (shape3_items B M d b HM) in Hb.
  eapply Forall2_of_Forall; [exact E|exact Ha|exact Hb|].
  intros xs ys [Hx Dx] [Hy Dy]. apply Hk.
  - destruct xs; [congruence|discriminate].
  - destruct ys; [congruence|discriminate].
  - apply Forall_map. eapply Forall_impl; [exact Dx|]. intros v Lv. simpl.
    rewrite length_map. exact Lv.
  - apply Forall_map. eapply Forall_impl; [exact Dy|]. intros v Lv. simpl.
    rewrite length_map. exact Lv.
Qed.

Lemma mmd_loss_gaussian_tracked (sigma : R) (a b : list (list (list (dual G))))
    (B N M d : nat) :
  0 < sigma -> (0 < N)%nat -> (0 < M)%nat -> shape3 B N d a -> shape3 B M d b ->
  exists v, mmd_loss_gaussian a b sigma = Ok v /\ length v = B /\
            mmd_loss_gaussian (untracked a) (untracked b) sigma = Ok (map val v).
Proof.
  intros Hs HN HM Ha Hb. assert (Hs' : sigma <> 0) by lra.
  rewrite (mmd_loss_gaussian_items sigma a b B N M d) by assumption.
  pose proof (tracked_radicands (gaussian_value sigma) a b B N M d
                (fun xs ys Hx Hy Dx Dy => radicand_gaussian sigma d xs ys Hs Hx Hy Dx Dy)
                HN HM Ha Hb) as Hr.
  destruct (zipR_mmd_item_tracked (gaussian_entry sigma) (gaussian_value sigma) a b)
    as [v [Ev Hv]].
  - apply val_gaussian_entry.
  - eapply Forall2_impl; [exact Hr|]. intros; simpl in *; lra.
  - exists v. split; [exact Ev|]. split.
    + apply (f_equal length) in Hv. rewrite length_map, length_zip_with in Hv.
      unfold untracked in Hv. rewrite !length_map in Hv.
      destruct Ha as [La _], Hb as [Lb _]. lia.
    + pose proof (shape3_untracked B N d a Ha) as Ha'.
      pose proof (shape3_untracked B M d b Hb) as Hb'.
      rewrite (mmd_loss_gaussian_reference sigma (untracked a) (untracked b) d Hs');
        [|destruct Ha', Hb'; congruence
         |exact (shape3_same_dim B N d _ Ha')|exact (shape3_same_dim B M d _ Hb')].
      rewrite Hv. apply mmd_reference_value.
      * destruct Ha', Hb'; congruence.
      * exact (shape_nonempty N d _ B HN Ha').
      * exact (shape_nonempty M d _ B HM Hb').
      * unfold untracked. apply Forall2_fmap.
        eapply Forall2_impl; [exact Hr|]. intros; simpl in *; lra.
Qed.

Lemma mmd_loss_laplacian_tracked (sigma : R) (a b : list (list (list (dual G))))
    (B N M d : nat) :
  0 < sigma -> (0 < N)%nat -> (0 < M)%nat -> shape3 B N d a -> shape3 B M d b ->
  exists v, mmd_loss_laplacian a b sigma = Ok v /\ length v = B /\
            mmd_loss_laplacian (untracked a) (untracked b) sigma = Ok (map val v).
Proof.
  intros Hs HN HM Ha Hb. assert (Hs' : sigma <> 0) by lra.
  rewrite (mmd_loss_laplacian_items sigma a b B N M d) by assumption.
  pose proof (tracked_radicands (laplacian_value sigma) a b B N M d
                (fun xs ys Hx Hy Dx Dy => radicand_laplacian sigma d xs ys Hs Hx Hy Dx Dy)
                HN HM Ha Hb) as Hr.
  destruct (zipR_mmd_item_tracked (laplacian_entry sigma) (laplacian_value sigma) a b)
    as [v [Ev Hv]].
  - apply val_laplacian_entry.
  - eapply Forall2_impl; [exact Hr|]. intros; simpl in *; lra.
  - exists v. split; [exact Ev|]. split.
    + apply (f_equal length) in Hv. rewrite length_map, length_zip_with in Hv.
      unfold untracked in Hv. rewrite !length_map in Hv.
      destruct Ha as [La _], Hb as [Lb _]. lia.
    + pose proof (shape3_untracked B N d a Ha) as Ha'.
      pose proof (shape3_untracked B M d b Hb) as Hb'.
      rewrite (mmd_loss_laplacian_reference sigma (untracked a) (untracked b) d Hs');
        [|destruct Ha', Hb'; congruence
         |exact (shape3_same_dim B N d _ Ha')|exact (shape3_same_dim B M d _ Hb')].
      rewrite Hv. apply mmd_reference_value.
      * destruct Ha', Hb'; congruence.
      * exact (shape_nonempty N d _ B HN Ha').
      * exact (shape_nonempty M d _ B HM Hb').
      * unfold untracked. apply Forall2_fmap.
        eapply Forall2_impl; [exact Hr|]. intros; simpl in *; lra.
Qed.
End TrackedValues.

(** X5: on samples that carry gradients, as [train] passes them, with
    a positive bandwidth and shapes (B, N, d) and (B, M, d), N, M >= 1, both
    estimators return one value per batch item with a finite gradient -- the
    argument of the square root is positive thanks to the epsilon, also when
    the two sample sets coincide -- and the values are those the estimators
    return on the same samples without gradients. *)
Theorem tracked_mmd_is_finite {G : Type} `{VSpace G} (sigma : R)
    (a b : list (list (list (dual G)))) (B N M d : nat) :
  0 < sigma -> (0 < N)%nat -> (0 < M)%nat -> shape3 B N d a -> shape3 B M d b ->
  (exists v, mmd_loss_gaussian a b sigma = Ok v /\ length v = B /\
             mmd_loss_gaussian (untracked a) (untracked b) sigma = Ok (map val v)) /\
  (exists v, mmd_loss_laplacian a b sigma = Ok v /\ length v = B /\
             mmd_loss_laplacian (untracked a) (untracked b) sigma = Ok (map val v)).
Proof.
  intros Hs HN HM Ha Hb.
  split; [exact (mmd_loss_gaussian_tracked sigma a b B N M d Hs HN HM Ha Hb)|].
  exact (mmd_loss_laplacian_tracked sigma a b B N M d Hs HN HM Ha Hb).
Qed.

(** *** Shapes the estimators reject (lines 121-149) *)





Lemma concat_pairwise_empty {A B C} (k : A -> B -> C) (xs : list A) (ys : list B) :
  xs = [] \/ ys = [] -> concat (pairwise k xs ys) = [].
Proof.
  intros [->| ->]; [reflexivity|].
  induction xs as [|x xs IH]; [reflexivity|exact IH].
Qed.

Lemma mean_dims12_no_samples (k : list R -> list R -> R) (a b : list (list (list R)))
    (B N M d : nat) :
  (0 < B)%nat -> shape3 B N d a -> shape3 B M d b -> N = 0%nat \/ M = 0%nat ->
  mean_dims12 (zip_with (pairwise k) a b) = Err NotFinite.
Proof.
  intros HB [La Ha] [Lb Hb] Hz.
  destruct a as [|xs a]; [simpl in La; lia|]. destruct b as [|ys b]; [simpl in Lb; lia|].
  inversion Ha as [|? ? [Lxs _] _]; subst. inversion Hb as [|? ? [Lys _] _]; subst.
  unfold mean_dims12.
  change (mapR (fun m => tmean (concat m)) (zip_with (pairwise k) (xs :: a) (ys :: b)))
    with (y ← tmean (concat (pairwise k xs ys));
          zs ← mapR (fun m => tmean (concat m)) (zip_with (pairwise k) a b); Ok (y :: zs)).
  rewrite concat_pairwise_empty; [reflexivity|].
  destruct Hz as [Hz|Hz]; [left|right].
  - destruct xs; [reflexivity|simpl in Hz; lia].
  - destruct ys; [reflexivity|simpl in Hz; lia].
Qed.

(** X7: for a non-empty batch in which one of the two sample sets has
    no samples (N = 0 or M = 0), both estimators return nan: a mean is taken
    over no entries. *)
Theorem mmd_without_samples_is_not_a_number (sigma : R) (a b : list (list (list R)))
    (B N M d : nat) :
  sigma <> 0 -> (0 < B)%nat -> shape3 B N d a -> shape3 B M d b ->
  N = 0%nat \/ M = 0%nat ->
  mmd_loss_gaussian a b sigma = Err NotFinite /\
  mmd_loss_laplacian a b sigma = Err NotFinite.
Proof.
  intros Hs HB Ha Hb Hz. assert (Hs' : 2 * sigma <> 0) by lra.
  assert (E : length a = length b) by (destruct Ha, Hb; congruence).
  pose proof (shape3_same_dim B N d a Ha) as Da.
  pose proof (shape3_same_dim B M d b Hb) as Db.
  destruct (Nat.eq_dec N 0%nat) as [HN|HN].
  - split.
    + unfold mmd_loss_gaussian.
      rewrite (gaussian_terms_pairs a a sigma d) by auto. cbn [mbind res_bind].
      rewrite (mean_dims12_no_samples _ a a B N N d) by auto. reflexivity.
    + unfold mmd_loss_laplacian.
      rewrite (laplacian_terms_pairs a a sigma d) by auto. cbn [mbind res_bind].
      rewrite (mean_dims12_no_samples _ a a B N N d) by auto. reflexivity.
  - assert (HM : M = 0%nat) by (destruct Hz; [contradiction|assumption]).
    pose proof (shape_nonempty N d a B (proj1 (Nat.neq_0_lt_0 N) HN) Ha) as Na.
    split.
    + unfold mmd_loss_gaussian.
      rewrite (gaussian_terms_pairs a a sigma d) by auto. cbn [mbind res_bind].
      rewrite (mean_dims12_mean_pairs
                 (fun x y => texp (tdiv (tneg (tsum (map tsq (zip_with tsub x y)))) (2 * sigma))))
        by assumption.
      cbn [mbind res_bind].
      rewrite (gaussian_terms_pairs a b sigma d) by auto. cbn [mbind res_bind].
      rewrite (mean_dims12_no_samples _ a b B N M d) by auto. reflexivity.
    + unfold mmd_loss_laplacian.
      rewrite (laplacian_terms_pairs a a sigma d) by auto. cbn [mbind res_bind].
      rewrite (mean_dims12_mean_pairs
                 (fun x y => texp (tdiv (tneg (tsum (map tabs (zip_with tsub x y)))) (2 * sigma))))
        by assumption.
      cbn [mbind res_bind].
      rewrite (laplacian_terms_pairs a b sigma d) by auto. cbn [mbind res_bind].
      rewrite (mean_dims12_no_samples _ a b B N M d) by auto. reflexivity.
Qed.

(** *** [train] as a whole (lines 151-256) *)

Lemma tmean_ok {T} `{Scalar T} (l : list T) :
  l <> [] -> tmean l = Ok (tdiv (tsum l) (INR (length l))).
Proof. destruct l; [congruence|reflexivity]. Qed.

Lemma mse_loss_ok {T} `{Scalar T} (current : list T) (target : list R) :
  length current = length target -> current <> [] ->
  mse_loss current target
  = Ok (tdiv (tsum (zip_with (fun q t => tsq (tsub q (of_R t))) current target))
             (INR (length current))).
Proof.
  intros E Hne. unfold mse_loss. rewrite broadcast_pure by exact E. simpl.
  rewrite tmean_ok.
  - rewrite length_zip_with. replace (length current `min` length target)%nat
      with (length current) by lia. reflexivity.
  - destruct current; [congruence|]. destruct target; [discriminate|]. discriminate.
Qed.

Lemma bootstrap_value (c : Config) (rews done target_q : list R) :
  length done = length target_q -> length rews = length target_q ->
  bootstrap c rews done target_q
  = Ok (zip_with Rplus rews
          (zip_with Rmult (map (fun d => gamma c * (1 - d)) done) target_q)).
Proof.
  intros Hd Hr. unfold bootstrap.
  rewrite broadcast_pure by (rewrite length_map; exact Hd). simpl.
  rewrite broadcast_pure by (rewrite length_zip_with, length_map; lia).
  reflexivity.
Qed.

Section TrainWhole.
Context {Obs PolicyParams QParams CvaeParams AdamSt Rng : Type}.
Context {V VQ VC : Type} `{VSpace V, VSpace VQ, VSpace VC}.
Variable policy_net : PolicyParams -> Obs -> Rng -> PolicyOut V * Rng.
Variable sample_multiple_without_squash :
  PolicyParams -> Obs -> nat -> Rng -> list (list (dual V)) * Rng.
Variable q_net : forall G, VSpace G -> QParams -> Obs -> list (dual G) -> dual (VQ * G).
Variable cvae_loss_function :
  CvaeParams -> list Obs -> list (list R) -> Rng -> dual VC * Rng.
Variable decode_multiple_without_squash :
  CvaeParams -> Obs -> nat -> Rng -> list (list R) * Rng.
Variable adam_policy : AdamSt -> PolicyParams -> V -> AdamSt * PolicyParams.
Variable adam_q : AdamSt -> QParams -> VQ -> AdamSt * QParams.
Variable adam_cvae : AdamSt -> CvaeParams -> VC -> AdamSt * CvaeParams.
Variable adam_scalar : AdamSt -> R -> R -> AdamSt * R.
Variable soft_target_update : QParams -> QParams -> R -> QParams.
Variable buffer_sample : Rng -> Batch Obs * Rng.

Abbreviation AgentT := (@Agent PolicyParams QParams CvaeParams AdamSt V).
Abbreviation trainT :=
  (train policy_net sample_multiple_without_squash q_net cvae_loss_function
     decode_multiple_without_squash adam_policy adam_q adam_cvae adam_scalar
     soft_target_update buffer_sample).
Abbreviation train_nT :=
  (train_n policy_net sample_multiple_without_squash q_net cvae_loss_function
     decode_multiple_without_squash adam_policy adam_q adam_cvae adam_scalar
     soft_target_update buffer_sample).

(** Everything one successful call of [train] computed, step by step. *)
Lemma train_unfold (s s' : AgentT) (ls : Losses) (r r' : Rng) :
  trainT s r = Ok (ls, s', r') ->
  exists b r1 cvae_loss r2 target_q r3 loss1 loss2 mmd_loss r4 ap_loss pg lap out p_loss
         actor_loss,
    buffer_sample r = (b, r1) /\
    cvae_loss_function (cvae_net s) (obs b) (acts b) r1 = (cvae_loss, r2) /\
    adam_cvae (cvae_optimizer s) (cvae_net s) (grad cvae_loss)
    = (cvae_optimizer s', cvae_net s') /\
    critic_target policy_net q_net s b r2 = Ok (target_q, r3) /\
    critic_update q_net adam_q (q_net1 s) (q_optimizer1 s) b target_q
    = Ok (loss1, (q_optimizer1 s', q_net1 s')) /\
    critic_update q_net adam_q (q_net2 s) (q_optimizer2 s) b target_q
    = Ok (loss2, (q_optimizer2 s', q_net2 s')) /\
    mmd_of sample_multiple_without_squash decode_multiple_without_squash s (cvae_net s') b r3
    = Ok (mmd_loss, r4) /\
    alpha_prime_update adam_scalar s mmd_loss = Ok (ap_loss, pg, alpha_prime_optimizer s', lap) /\
    policy_forward policy_net (policy_params s) (obs b) r4 = Ok (out, r') /\
    policy_loss_of q_net (alpha s) (q_net1 s') (q_net2 s') (obs b) out = Ok p_loss /\
    actor_loss_of (train_step s) (warmup_step (cfg s)) (data lap) p_loss mmd_loss
    = Ok actor_loss /\
    actor_update adam_policy (policy_optimizer s) (policy_params s) lap actor_loss
    = (policy_grad s', (policy_optimizer s', policy_params s'), log_alpha_prime s') /\
    match alpha_tuning s with
    | Some t =>
        exists a_loss t', alpha_update adam_scalar t out = Ok (a_loss, t') /\
                          alpha_loss ls = a_loss /\ alpha s' = exp (log_alpha t') /\
                          alpha_tuning s' = Some t'
    | None => alpha_loss ls = 0 /\ alpha s' = alpha s /\ alpha_tuning s' = None
    end /\
    critic_loss1 ls = val loss1 /\ critic_loss2 ls = val loss2 /\
    policy_loss ls = val p_loss /\ alpha_prime_loss ls = val ap_loss /\
    target_q_net1 s' = soft_target_update (q_net1 s') (target_q_net1 s) (tau (cfg s)) /\
    target_q_net2 s' = soft_target_update (q_net2 s') (target_q_net2 s) (tau (cfg s)) /\
    alpha_prime_param s' = alpha_prime_param s /\
    cfg s' = cfg s /\
    train_step s' = (train_step s + 1)%Z.
Proof.
  unfold train, mbind, M_bind, mret, M_ret, lift, draw. intros Htrain.
  destruct (buffer_sample r) as [b r1] eqn:Eb.
  destruct (cvae_loss_function (cvae_net s) (obs b) (acts b) r1) as [cl r2] eqn:Ec.
  destruct (adam_cvae (cvae_optimizer s) (cvae_net s) (grad cl)) as [copt cvae] eqn:Ea.
  destruct (critic_target policy_net q_net s b r2) as [[tq r3]|] eqn:Et; [|discriminate].
  destruct (critic_update q_net adam_q (q_net1 s) (q_optimizer1 s) b tq)
    as [[l1 [qo1 q1]]|] eqn:E1; [|discriminate].
  destruct (critic_update q_net adam_q (q_net2 s) (q_optimizer2 s) b tq)
    as [[l2 [qo2 q2]]|] eqn:E2; [|discriminate].
  destruct (mmd_of sample_multiple_without_squash decode_multiple_without_squash s cvae b r3)
    as [[mmd r4]|] eqn:Em; [|discriminate].
  destruct (alpha_prime_update adam_scalar s mmd) as [[[[apl pg] apo] lap]|] eqn:Eap;
    [|discriminate].
  destruct (policy_forward policy_net (policy_params s) (obs b) r4) as [[out r5]|] eqn:Ep;
    [|discriminate].
  destruct (policy_loss_of q_net (alpha s) q1 q2 (obs b) out) as [pl|] eqn:Epl; [|discriminate].
  destruct (actor_loss_of (train_step s) (warmup_step (cfg s)) (data lap) pl mmd)
    as [al|] eqn:Eal; [|discriminate].
  destruct (actor_update adam_policy (policy_optimizer s) (policy_params s) lap al)
    as [[pg' [po p]] lap'] eqn:Eau.
  destruct (alpha_tuning s) as [t|] eqn:Etun.
  - destruct (alpha_update adam_scalar t out) as [[a_loss t']|] eqn:Eat; [|discriminate].
    simpl in Htrain. injection Htrain as <- <- <-. simpl.
    exists b, r1, cl, r2, tq, r3, l1, l2, mmd, r4, apl, pg, lap, out, pl, al.
    repeat (split; [first [reflexivity | eassumption]|]).
    split; [exists a_loss, t'; split; [exact Eat|repeat split]|]. repeat split.
  - simpl in Htrain. injection Htrain as <- <- <-. simpl.
    exists b, r1, cl, r2, tq, r3, l1, l2, mmd, r4, apl, pg, lap, out, pl, al.
    repeat (split; [first [reflexivity | eassumption]|]).
    split; [repeat split|]. repeat split.
Qed.

(** *** [train] returns on its intended domain *)

Lemma mapM_rng_draw_Forall {A B} (P : B -> Prop) (f : A -> Rng -> B * Rng)
    (l : list A) (r : Rng) :
  (forall x r, P (fst (f x r))) ->
  exists out r', mapM_rng (fun x => draw (f x)) l r = Ok (out, r') /\
                 length out = length l /\ Forall P out.
Proof.
  intros HP. revert r. induction l as [|x l IH]; intros r; simpl.
  - exists [], r. repeat split. constructor.
  - unfold mbind, M_bind, draw at 1. pose proof (HP x r) as Hx.
    destruct (f x r) as [y r1].
    destruct (IH r1) as [out [r' [E [L F]]]]. rewrite E.
    exists (y :: out), r'. split; [reflexivity|]. split; [simpl; congruence|].
    constructor; assumption.
Qed.

Lemma critic_update_ok (q : QParams) (opt : AdamSt) (b : Batch Obs) (target_q : list R) :
  length (acts b) = length (obs b) -> length target_q = length (obs b) -> obs b <> [] ->
  exists x, critic_update q_net adam_q q opt b target_q = Ok x.
Proof.
  intros Ha Ht Hne. unfold critic_update, rows2.
  rewrite <- Ha, Nat.eqb_refl. simpl.
  rewrite mse_loss_ok.
  - simpl. eexists. reflexivity.
  - rewrite length_zip_with. lia.
  - destruct (obs b); [congruence|]. destruct (acts b); [discriminate|]. discriminate.
Qed.

Lemma alpha_prime_update_ok (s : AgentT) (mmd_loss : list (dual V)) :
  mmd_loss <> [] -> exists x, alpha_prime_update adam_scalar s mmd_loss = Ok x.
Proof.
  intros Hne. unfold alpha_prime_update, alpha_prime_loss_of.
  rewrite tmean_ok by (destruct mmd_loss; [congruence|discriminate]). simpl.
  destruct (step_scalar _ _ _ _) as [o l]. eexists. reflexivity.
Qed.

Lemma policy_loss_of_ok (a : R) (q1 q2 : QParams) (o : list Obs) (out : list (PolicyOut V)) :
  length out = length o -> o <> [] ->
  exists x, policy_loss_of q_net a q1 q2 o out = Ok x.
Proof.
  intros L Hne. unfold policy_loss_of, rows2. rewrite <- L, Nat.eqb_refl. simpl.
  rewrite broadcast_pure by (rewrite length_zip_with; lia). simpl.
  rewrite tmean_ok.
  - eexists. reflexivity.
  - destruct o; [congruence|]. destruct out; [discriminate|]. discriminate.
Qed.

Lemma actor_loss_of_ok (step warmup : Z) (lap : R) (p_loss : dual V)
    (mmd_loss : list (dual V)) :
  mmd_loss <> [] -> exists x, actor_loss_of step warmup lap p_loss mmd_loss = Ok x.
Proof.
  intros Hne. unfold actor_loss_of, bear_actor_loss.
  rewrite tmean_ok by (destruct mmd_loss; [congruence|discriminate]). simpl.
  eexists. reflexivity.
Qed.

Lemma alpha_update_ok (t : AlphaTuning) (out : list (PolicyOut V)) :
  out <> [] -> exists x, alpha_update adam_scalar t out = Ok x.
Proof.
  intros Hne. unfold alpha_update, alpha_loss_of.
  rewrite tmean_ok by (destruct out; [congruence|discriminate]). simpl.
  destruct (alpha_param t); [destruct (adam_scalar _ _ _)|]; eexists; reflexivity.
Qed.

Lemma mapR_length {A B} (f : A -> res B) (l : list A) (m : list B) :
  mapR f l = Ok m -> length m = length l.
Proof.
  revert m. induction l as [|x l IH]; intros m; simpl.
  - intros E. injection E as <-. reflexivity.
  - destruct (f x) as [y|]; [|discriminate]. simpl.
    destruct (mapR f l) as [ys|]; [|discriminate]. simpl.
    intros E. injection E as <-. simpl. rewrite (IH ys eq_refl). reflexivity.
Qed.

(** What a successful target computation did. *)
Lemma critic_target_inv (s : AgentT) (b : Batch Obs) (r r' : Rng) (t : list R) :
  batch_ok b -> critic_target policy_net q_net s b r = Ok (t, r') ->
  exists draws m,
    target_q_draws policy_net q_net s b r = Ok (draws, r') /\
    length draws = (length (obs b) * 10)%nat /\
    mapR max_list (chunks 10 draws) = Ok m /\
    length m = length (obs b) /\
    t = zip_with Rplus (rews b)
          (zip_with Rmult (map (fun d => gamma (cfg s) * (1 - d)) (done b)) m).
Proof.
  intros (Hnext & Hrews & Hdone). unfold critic_target, mbind, M_bind, lift.
  destruct (target_q_draws policy_net q_net s b r) as [[draws r1]|]; [|discriminate].
  unfold reshape_groups.
  destruct (Nat.eqb_spec (length draws) (length (obs b) * 10)) as [L|_]; [|discriminate].
  destruct (mapR max_list (chunks 10 draws)) as [m|] eqn:Em; [|discriminate].
  assert (Lm : length m = length (obs b)).
  { rewrite (mapR_length _ _ _ Em).
    apply (chunks_fuel_groups 10 (length (obs b)) (length draws) draws); [lia|exact L|lia]. }
  rewrite bootstrap_value by lia.
  intros E. injection E as <- <-. exists draws, m. repeat split; assumption.
Qed.

Lemma critic_target_returns (s : AgentT) (b : Batch Obs) (r : Rng) :
  n_target_samples (cfg s) = 10%nat -> batch_ok b ->
  exists t r', critic_target policy_net q_net s b r = Ok (t, r') /\
               length t = length (obs b).
Proof.
  intros Hn Hb. destruct (critic_target_ok policy_net q_net s b r Hn Hb) as [[t r'] E].
  exists t, r'. split; [exact E|].
  destruct (critic_target_inv s b r r' t Hb E) as (draws & m & _ & _ & _ & Lm & ->).
  destruct Hb as (Hnext & Hrews & Hdone).
  rewrite !length_zip_with, length_map. lia.
Qed.

Section Domain.
Variable action_dim : nat.
Hypothesis decode_shape : forall c o n r,
  length (fst (decode_multiple_without_squash c o n r)) = n /\
  Forall (fun v => length v = action_dim) (fst (decode_multiple_without_squash c o n r)).
Hypothesis sample_shape : forall p o n r,
  length (fst (sample_multiple_without_squash p o n r)) = n /\
  Forall (fun v => length v = action_dim) (fst (sample_multiple_without_squash p o n r)).

Lemma mmd_of_ok (s : AgentT) (cvae : CvaeParams) (b : Batch Obs) (r : Rng) :
  0 < mmd_sigma (cfg s) -> (0 < n_mmd_action_samples (cfg s))%nat ->
  exists v r', mmd_of sample_multiple_without_squash decode_multiple_without_squash
                 s cvae b r = Ok (v, r') /\
               length v = length (obs b) /\
               Forall (fun x => 1 / 1000 <= val x <= sqrt (2 + 1 / 1000000)) v.
Proof.
  intros Hs Hn. unfold mmd_of, mbind, M_bind.
  set (n := n_mmd_action_samples (cfg s)) in *.
  destruct (mapM_rng_draw_Forall
              (fun m : list (list R) => length m = n /\ Forall (fun v => length v = action_dim) m)
              (fun o => decode_multiple_without_squash cvae o n) (obs b) r)
    as (raw1 & r1 & E1 & L1 & F1); [intros; apply decode_shape|].
  rewrite E1.
  destruct (mapM_rng_draw_Forall
              (fun m : list (list (dual V)) =>
                 length m = n /\ Forall (fun v => length v = action_dim) m)
              (fun o => sample_multiple_without_squash (policy_params s) o n) (obs b) r1)
    as (raw2 & r2 & E2 & L2 & F2); [intros; apply sample_shape|].
  rewrite E2. unfold lift.
  assert (Ha : shape3 (length (obs b)) n action_dim (map (map (map (dconst (G:=V)))) raw1)).
  { split; [rewrite length_map; exact L1|].
    apply Forall_map. eapply Forall_impl; [exact F1|]. intros m [Lm Fm]. simpl.
    split; [rewrite length_map; exact Lm|].
    apply Forall_map. eapply Forall_impl; [exact Fm|]. intros v Lv. simpl.
    rewrite length_map. exact Lv. }
  assert (Hb : shape3 (length (obs b)) n action_dim raw2) by (split; assumption).
  assert (Hboth : forall v : list (dual V),
             (exists w, (mmd_loss_gaussian (untracked (map (map (map (dconst (G:=V)))) raw1))
                           (untracked raw2) (mmd_sigma (cfg s)) = Ok w
                         \/ mmd_loss_laplacian (untracked (map (map (map (dconst (G:=V)))) raw1))
                              (untracked raw2) (mmd_sigma (cfg s)) = Ok w)
                        /\ w = map val v) ->
             Forall (fun x => 1 / 1000 <= val x <= sqrt (2 + 1 / 1000000)) v).
  { intros v (w & Hw & ->).
    pose proof (shape3_untracked (G:=V) _ _ _ _ Ha) as Ha'.
    pose proof (shape3_untracked (G:=V) _ _ _ _ Hb) as Hb'.
    assert (Hlo : Forall (fun x => 1 / 1000 <= x) (map val v)).
    { destruct Hw as [Hw|Hw].
      - destruct (mmd_reference_bound (gaussian_value (mmd_sigma (cfg s))) _ _ _ n n action_dim
                    (fun xs ys Hx Hy Dx Dy =>
                       radicand_gaussian (mmd_sigma (cfg s)) action_dim xs ys Hs Hx Hy Dx Dy)
                    Hn Hn Ha' Hb') as (w' & Ew & _ & Hw').
        rewrite (mmd_loss_gaussian_reference _ _ _ action_dim) in Hw;
          [|lra|destruct Ha', Hb'; congruence
           |exact (shape3_same_dim _ _ _ _ Ha')|exact (shape3_same_dim _ _ _ _ Hb')].
        congruence.
      - destruct (mmd_reference_bound (laplacian_value (mmd_sigma (cfg s))) _ _ _ n n action_dim
                    (fun xs ys Hx Hy Dx Dy =>
                       radicand_laplacian (mmd_sigma (cfg s)) action_dim xs ys Hs Hx Hy Dx Dy)
                    Hn Hn Ha' Hb') as (w' & Ew & _ & Hw').
        rewrite (mmd_loss_laplacian_reference _ _ _ action_dim) in Hw;
          [|lra|destruct Ha', Hb'; congruence
           |exact (shape3_same_dim _ _ _ _ Ha')|exact (shape3_same_dim _ _ _ _ Hb')].
        congruence. }
    assert (Hhi : Forall (fun x => x <= sqrt (2 + 1 / 1000000)) (map val v)).
    { destruct Hw as [Hw|Hw].
      - rewrite (mmd_loss_gaussian_reference _ _ _ action_dim) in Hw;
          [|lra|destruct Ha', Hb'; congruence
           |exact (shape3_same_dim _ _ _ _ Ha')|exact (shape3_same_dim _ _ _ _ Hb')].
        apply (mmd_reference_upper _ _ _ _ n n action_dim _
                 (fun x y => gaussian_value_range _ x y Hs) Hn Hn Ha' Hb' Hw).
      - rewrite (mmd_loss_laplacian_reference _ _ _ action_dim) in Hw;
          [|lra|destruct Ha', Hb'; congruence
           |exact (shape3_same_dim _ _ _ _ Ha')|exact (shape3_same_dim _ _ _ _ Hb')].
        apply (mmd_reference_upper _ _ _ _ n n action_dim _
                 (fun x y => laplacian_value_range _ x y Hs) Hn Hn Ha' Hb' Hw). }
    rewrite Forall_map in Hlo, Hhi. 
    apply Forall_and. split; assumption. }
  destruct (String.eqb (kernel_type (cfg s)) "gaussian").
  - destruct (mmd_loss_gaussian_tracked (G:=V) (mmd_sigma (cfg s)) _ _ _ n n action_dim Hs Hn Hn Ha Hb)
      as (v & Ev & Lv & Hv).
    rewrite Ev. exists v, r2. split; [reflexivity|]. split; [exact Lv|].
    apply Hboth. exists (map val v). split; [left; exact Hv|reflexivity].
  - destruct (mmd_loss_laplacian_tracked (G:=V) (mmd_sigma (cfg s)) _ _ _ n n action_dim Hs Hn Hn Ha Hb)
      as (v & Ev & Lv & Hv).
    rewrite Ev. exists v, r2. split; [reflexivity|]. split; [exact Lv|].
    apply Hboth. exists (map val v). split; [right; exact Hv|reflexivity].
Qed.

Hypothesis buffer_shape : forall r,
  batch_ok (fst (buffer_sample r)) /\
  length (acts (fst (buffer_sample r))) = length (obs (fst (buffer_sample r))) /\
  obs (fst (buffer_sample r)) <> [].

(** The configuration [train] is meant for. *)
Lemma train_ok (s : AgentT) (r : Rng) :
  n_target_samples (cfg s) = 10%nat -> 0 < mmd_sigma (cfg s) ->
  (0 < n_mmd_action_samples (cfg s))%nat ->
  exists ls s' r', trainT s r = Ok (ls, s', r').
Proof.
  intros Hn Hs Hm. unfold train, mbind, M_bind, mret, M_ret, lift, draw.
  pose proof (buffer_shape r) as (Hb & Hacts & Hne).
  destruct (buffer_sample r) as [b r1]. simpl in Hb, Hacts, Hne.
  destruct (cvae_loss_function (cvae_net s) (obs b) (acts b) r1) as [cl r2].
  destruct (adam_cvae (cvae_optimizer s) (cvae_net s) (grad cl)) as [copt cvae].
  destruct (critic_target_returns s b r2 Hn Hb) as (tq & r3 & Et & Lt). rewrite Et.
  destruct (critic_update_ok (q_net1 s) (q_optimizer1 s) b tq Hacts Lt Hne)
    as [[l1 [qo1 q1]] E1]. rewrite E1.
  destruct (critic_update_ok (q_net2 s) (q_optimizer2 s) b tq Hacts Lt Hne)
    as [[l2 [qo2 q2]] E2]. rewrite E2.
  destruct (mmd_of_ok s cvae b r3 Hs Hm) as (mmd & r4 & Em & Lm & _). rewrite Em.
  assert (Hmmd : mmd <> []).
  { destruct mmd; [|discriminate]. destruct (obs b); [congruence|discriminate]. }
  destruct (alpha_prime_update_ok s mmd Hmmd) as [[[[apl pg] apo] lap] Eap]. rewrite Eap.
  destruct (policy_forward_ok policy_net (policy_params s) (obs b) r4) as (out & r5 & Ep & Lo).
  rewrite Ep.
  destruct (policy_loss_of_ok (alpha s) q1 q2 (obs b) out Lo Hne) as [pl Epl]. rewrite Epl.
  destruct (actor_loss_of_ok (train_step s) (warmup_step (cfg s)) (data lap) pl mmd Hmmd)
    as [al Eal]. rewrite Eal.
  destruct (actor_update adam_policy (policy_optimizer s) (policy_params s) lap al)
    as [[pg' [po p]] lap'].
  destruct (alpha_tuning s) as [t|].
  - assert (Hout : out <> []).
    { destruct out; [|discriminate]. destruct (obs b); [congruence|discriminate]. }
    destruct (alpha_update_ok t out Hout) as [[a_loss t'] Eat]. rewrite Eat. simpl.
    do 3 eexists. reflexivity.
  - simpl. do 3 eexists. reflexivity.
Qed.

(** X8: [train] returns on the inputs it is meant for.  With
    n_target_samples = 10, a positive mmd_sigma, at least one MMD sample,
    sample generators that return n vectors of action_dim entries each, and
    a non-empty batch whose arrays share the leading dimension, one call of
    [train] raises nothing and meets no nan; it advances the step counter by
    one and leaves the configuration alone. *)
Theorem train_returns_on_its_domain (s : AgentT) (r : Rng) :
  n_target_samples (cfg s) = 10%nat -> 0 < mmd_sigma (cfg s) ->
  (0 < n_mmd_action_samples (cfg s))%nat ->
  exists (ls : Losses) (s' : AgentT) (r' : Rng),
    train policy_net sample_multiple_without_squash q_net cvae_loss_function
      decode_multiple_without_squash adam_policy adam_q adam_cvae adam_scalar
      soft_target_update buffer_sample s r = Ok (ls, s', r') /\
    train_step s' = (train_step s + 1)%Z /\ cfg s' = cfg s.
Proof.
  intros Hn Hs Hm. destruct (train_ok s r Hn Hs Hm) as (ls & s' & r' & E).
  exists ls, s', r'. split; [exact E|].
  destruct (train_inv policy_net sample_multiple_without_squash q_net cvae_loss_function
              decode_multiple_without_squash adam_policy adam_q adam_cvae adam_scalar
              soft_target_update buffer_sample s s' ls r r' E)
    as (? & ? & ? & ? & ? & ? & ? & _ & _ & _ & _ & _ & Hc & Ht).
  split; assumption.
Qed.

Lemma train_n_ok (n : nat) (s : AgentT) (r : Rng) :
  n_target_samples (cfg s) = 10%nat -> 0 < mmd_sigma (cfg s) ->
  (0 < n_mmd_action_samples (cfg s))%nat ->
  exists s' r', train_nT n s r = Ok (s', r') /\
                train_step s' = (train_step s + Z.of_nat n)%Z /\ cfg s' = cfg s.
Proof.
  revert s r. induction n as [|n IH]; intros s r Hn Hs Hm.
  - exists s, r. split; [reflexivity|]. split; [lia|reflexivity].
  - destruct (train_ok s r Hn Hs Hm) as (ls & s1 & r1 & E1).
    destruct (train_inv policy_net sample_multiple_without_squash q_net cvae_loss_function
                decode_multiple_without_squash adam_policy adam_q adam_cvae adam_scalar
                soft_target_update buffer_sample s s1 ls r r1 E1)
      as (? & ? & ? & ? & ? & ? & ? & _ & _ & _ & _ & _ & Hc & Ht).
    destruct (IH s1 r1) as (s' & r' & E & Ht' & Hc'); [rewrite Hc; assumption..|].
    exists s', r'. split.
    + simpl. unfold mbind, M_bind. rewrite E1. exact E.
    + split; [lia|congruence].
Qed.
End Domain.
End TrainWhole.

(** *** The actor-critic term (lines 226-229) *)

Lemma zip_with_nested {A B C D} (f : A -> B -> C) (g : B -> C -> D) (l1 : list A)
    (l2 : list B) :
  zip_with g l2 (zip_with f l1 l2) = zip_with (fun x p => g p (f x p)) l1 l2.
Proof.
  revert l2. induction l1 as [|x l1 IH]; intros [|p l2]; simpl; try reflexivity.
  rewrite IH. reflexivity.
Qed.

Section TrackedSums.
Context {G : Type} `{VSpace G}.

Lemma grad_tsum (l : list (dual G)) : grad (tsum l) = foldr vadd vzero (map grad l).
Proof.
  induction l as [|x l IH]; [reflexivity|].
  change (grad (tsum (x :: l))) with (vadd (grad x) (grad (tsum l))). rewrite IH. reflexivity.
Qed.

Lemma val_dmin (x y : dual G) : val (dmin x y) = Rmin (val x) (val y).
Proof.
  unfold dmin. destruct (Rlt_dec (val x) (val y)) as [Hlt|Hge].
  - rewrite Rmin_left by lra. reflexivity.
  - destruct (Rlt_dec (val y) (val x)) as [Hlt|Hge'].
    + rewrite Rmin_right by lra. reflexivity.
    + simpl. rewrite Rmin_left by lra. reflexivity.
Qed.
End TrackedSums.

Section ActorTerm.
Context {Obs PolicyParams QParams Rng : Type}.
Context {V VQ : Type} `{VSpace V, VSpace VQ}.
Variable q_net : forall G, VSpace G -> QParams -> Obs -> list (dual G) -> dual (VQ * G).

(** The actor-critic term on a batch with one policy output per row: the
    mean of alpha * log_prob - min(Q1, Q2), and its gradient w.r.t. the
    policy parameters. *)
Lemma policy_loss_of_value (a : R) (q1 q2 : QParams) (o : list Obs)
    (out : list (PolicyOut V)) (p_loss : dual V) :
  length out = length o ->
  policy_loss_of q_net a q1 q2 o out = Ok p_loss ->
  val p_loss
  = Rsum (zip_with (fun x p => a * val (log_prob p)
                               - Rmin (val (q_through q_net q1 x (action p)))
                                      (val (q_through q_net q2 x (action p)))) o out)
    / INR (length o) /\
  grad p_loss
  = vscale (/ INR (length o))
      (foldr vadd vzero
         (zip_with (fun x p =>
                      vadd (vscale a (grad (log_prob p)))
                           (vscale (-1) (grad (tmin (q_through q_net q1 x (action p))
                                                    (q_through q_net q2 x (action p))))))
            o out)).
Proof.
  intros L. unfold policy_loss_of, rows2. rewrite <- L, Nat.eqb_refl.
  cbn [mbind res_bind].
  rewrite broadcast_pure by (rewrite length_zip_with; lia). cbn [mbind res_bind].
  rewrite zip_with_nested.
  set (F := fun (x : Obs) (p : PolicyOut V) =>
              tsub (tscale a (log_prob p))
                   (tmin (q_through q_net q1 x (action p)) (q_through q_net q2 x (action p)))).
  intros E.
  assert (Hne : zip_with F o out <> []) by (intros Hnil; rewrite Hnil in E; discriminate).
  rewrite (tmean_ok _ Hne) in E.
  pose proof (f_equal (fun x => match x with Ok y => y | Err _ => p_loss end) E) as E'.
  cbv beta iota in E'. subst p_loss. clear E Hne.
  assert (Ld : length (zip_with F o out) = length out) by (rewrite length_zip_with; lia).
  rewrite Ld.
  split.
  - change (val (tsum (zip_with F o out)) / INR (length out)
            = Rsum (zip_with (fun x p => a * val (log_prob p)
                                         - Rmin (val (q_through q_net q1 x (action p)))
                                                (val (q_through q_net q2 x (action p)))) o out)
              / INR (length out)).
    rewrite val_tsum. f_equal. f_equal.
    clear. revert out. induction o as [|x o IH]; intros [|p out]; simpl; try reflexivity.
    rewrite IH, val_dmin. reflexivity.
  - change (vscale (/ INR (length out)) (grad (tsum (zip_with F o out)))
            = vscale (/ INR (length out))
                (foldr vadd vzero
                   (zip_with (fun x p =>
                      vadd (vscale a (grad (log_prob p)))
                           (vscale (-1) (grad (tmin (q_through q_net q1 x (action p))
                                                    (q_through q_net q2 x (action p))))))
                      o out))).
    rewrite grad_tsum. f_equal. f_equal.
    clear. revert out. induction o as [|x o IH]; intros [|p out]; simpl; try reflexivity.
    rewrite IH. reflexivity.
Qed.
End ActorTerm.

(** *** The gate on the actor-critic term (lines 226-236) *)

Section PenaltyTerm.
Context {V : Type} `{VSpace V}.

Lemma penalty_sum_val (lap : R) (mmd_loss : list (dual V)) :
  val (tsum (map (fun d => tmul (texp (leaf_tensor lap)) (from_policy d)) mmd_loss))
  = exp lap * tsum (map val mmd_loss).
Proof.
  induction mmd_loss as [|d l IH]; simpl.
  - lra.
  - transitivity (exp lap * val d + exp lap * tsum (map val l));
      [apply (f_equal (Rplus _)); exact IH | lra].
Qed.

Lemma penalty_sum_policy_grad (lap : R) (mmd_loss : list (dual V)) :
  fst (grad (tsum (map (fun d => tmul (texp (leaf_tensor lap)) (from_policy d)) mmd_loss)))
  = foldr vadd vzero
      (map (fun d => vadd (vscale (val d) (vscale (exp lap) vzero))
                          (vscale (exp lap) (grad d))) mmd_loss).
Proof.
  induction mmd_loss as [|d l IH]; [reflexivity|].
  simpl. apply (f_equal (vadd _)). exact IH.
Qed.

(** The support-penalty term [(log_alpha_prime.exp() * mmd_loss).mean()]:
    its value, and its gradient w.r.t. the policy parameters.  In the
    product rule the factor exp(log_alpha_prime) does not depend on the
    policy, which is the term with [vzero]. *)
Lemma bear_actor_loss_value (lap : R) (mmd_loss : list (dual V)) (penalty : dual (V * R)) :
  bear_actor_loss lap mmd_loss = Ok penalty ->
  val penalty = exp lap * mean_val mmd_loss /\
  fst (grad penalty)
  = vscale (/ INR (length mmd_loss))
      (foldr vadd vzero
         (map (fun d => vadd (vscale (val d) (vscale (exp lap) vzero))
                             (vscale (exp lap) (grad d))) mmd_loss)).
Proof.
  unfold bear_actor_loss, tmean.
  destruct mmd_loss as [|d0 l0]; [discriminate|].
  intros Hp. injection Hp as <-.
  set (f := fun d : dual V => tmul (texp (leaf_tensor lap)) (from_policy d)).
  split.
  - change (val (tsum (map f (d0 :: l0))) / INR (length (map f (d0 :: l0)))
            = exp lap * mean_val (d0 :: l0)).
    unfold f. rewrite penalty_sum_val, length_map. unfold mean_val, Rdiv. lra.
  - change (vscale (/ INR (length (map f (d0 :: l0)))) (fst (grad (tsum (map f (d0 :: l0)))))
            = vscale (/ INR (length (d0 :: l0)))
                (foldr vadd vzero
                   (map (fun d => vadd (vscale (val d) (vscale (exp lap) vzero))
                                       (vscale (exp lap) (grad d))) (d0 :: l0)))).
    unfold f. rewrite penalty_sum_policy_grad, length_map. reflexivity.
Qed.
End PenaltyTerm.

Section ActorGate.
Context {Obs PolicyParams QParams CvaeParams AdamSt Rng : Type}.
Context {V VQ VC : Type} `{VSpace V, VSpace VQ, VSpace VC}.
Variable policy_net : PolicyParams -> Obs -> Rng -> PolicyOut V * Rng.
Variable sample_multiple_without_squash :
  PolicyParams -> Obs -> nat -> Rng -> list (list (dual V)) * Rng.
Variable q_net : forall G, VSpace G -> QParams -> Obs -> list (dual G) -> dual (VQ * G).
Variable cvae_loss_function :
  CvaeParams -> list Obs -> list (list R) -> Rng -> dual VC * Rng.
Variable decode_multiple_without_squash :
  CvaeParams -> Obs -> nat -> Rng -> list (list R) * Rng.
Variable adam_policy : AdamSt -> PolicyParams -> V -> AdamSt * PolicyParams.
Variable adam_q : AdamSt -> QParams -> VQ -> AdamSt * QParams.
Variable adam_cvae : AdamSt -> CvaeParams -> VC -> AdamSt * CvaeParams.
Variable adam_scalar : AdamSt -> R -> R -> AdamSt * R.
Variable soft_target_update : QParams -> QParams -> R -> QParams.
Variable buffer_sample : Rng -> Batch Obs * Rng.

Abbreviation AgentG := (@Agent PolicyParams QParams CvaeParams AdamSt V).
Abbreviation trainG :=
  (train policy_net sample_multiple_without_squash q_net cvae_loss_function
     decode_multiple_without_squash adam_policy adam_q adam_cvae adam_scalar
     soft_target_update buffer_sample).

(** C2: in every call of [train] that returns, let [mmd_loss] be the support
    distance of the step, [lap] the multiplier log_alpha_prime after its own
    update, [penalty] the support-penalty term
    mean(exp(log_alpha_prime) * mmd_loss) and [p_loss] the entropy-regularised
    actor-critic term mean(alpha * log_prob - min(Q1, Q2)) on the policy's
    actions for the batch, which [train] computes and returns as
    [policy_loss] at every step.  While the step counter is at most the
    warm-up step count (in particular before it), the gradient the policy
    optimizer steps on is the gradient of [penalty] alone: [p_loss] does not
    enter.  Once the step counter is past the warm-up step count, it is the
    sum of the gradients of [p_loss] and of [penalty]. *)
Theorem warmup_gates_policy_loss (s s' : AgentG) (ls : Losses) (r r' : Rng) :
  trainG s r = Ok (ls, s', r') ->
  exists (b : Batch Obs) (r1 r3 r4 : Rng) (mmd_loss : list (dual V)) (lap : leaf)
         (out : list (PolicyOut V)) (p_loss : dual V) (penalty : dual (V * R)),
    buffer_sample r = (b, r1) /\
    mmd_of sample_multiple_without_squash decode_multiple_without_squash s (cvae_net s') b r3
    = Ok (mmd_loss, r4) /\
    policy_forward policy_net (policy_params s) (obs b) r4 = Ok (out, r') /\
    data lap = data (log_alpha_prime s') /\
    (* the support-penalty term *)
    bear_actor_loss (data lap) mmd_loss = Ok penalty /\
    val penalty = exp (data lap) * mean_val mmd_loss /\
    fst (grad penalty)
    = vscale (/ INR (length mmd_loss))
        (foldr vadd vzero
           (map (fun d => vadd (vscale (val d) (vscale (exp (data lap)) vzero))
                               (vscale (exp (data lap)) (grad d))) mmd_loss)) /\
    (* the actor-critic term *)
    policy_loss_of q_net (alpha s) (q_net1 s') (q_net2 s') (obs b) out = Ok p_loss /\
    policy_loss ls = val p_loss /\
    val p_loss
    = Rsum (zip_with (fun x p => alpha s * val (log_prob p)
                                 - Rmin (val (q_through q_net (q_net1 s') x (action p)))
                                        (val (q_through q_net (q_net2 s') x (action p))))
              (obs b) out)
      / INR (length (obs b)) /\
    grad p_loss
    = vscale (/ INR (length (obs b)))
        (foldr vadd vzero
           (zip_with (fun x p =>
                        vadd (vscale (alpha s) (grad (log_prob p)))
                             (vscale (-1)
                                (grad (tmin (q_through q_net (q_net1 s') x (action p))
                                            (q_through q_net (q_net2 s') x (action p))))))
              (obs b) out)) /\
    (* the gate *)
    ((train_step s <= warmup_step (cfg s))%Z ->
       policy_grad s' = Some (fst (grad penalty)) /\
       (policy_optimizer s', policy_params s')
       = adam_policy (policy_optimizer s) (policy_params s) (fst (grad penalty))) /\
    ((train_step s > warmup_step (cfg s))%Z ->
       policy_grad s' = Some (vadd (grad p_loss) (fst (grad penalty))) /\
       (policy_optimizer s', policy_params s')
       = adam_policy (policy_optimizer s) (policy_params s)
           (vadd (grad p_loss) (fst (grad penalty)))).
Proof.
  intros Htrain.
  destruct (train_unfold policy_net sample_multiple_without_squash q_net cvae_loss_function
              decode_multiple_without_squash adam_policy adam_q adam_cvae adam_scalar
              soft_target_update buffer_sample s s' ls r r' Htrain)
    as (b & r1 & cvae_loss & r2 & target_q & r3 & loss1 & loss2 & mmd_loss & r4 & ap_loss
        & pg & lap & out & p_loss & actor_loss & Eb & _ & _ & _ & _ & _ & Em & _ & Ef & Epl
        & Eal & Eau & _ & _ & _ & Els & _).
  assert (Lo : length out = length (obs b)).
  { destruct (policy_forward_ok policy_net (policy_params s) (obs b) r4)
      as (out' & r5 & Ef' & Lo).
    rewrite Ef in Ef'. injection Ef' as <- _. exact Lo. }
  destruct (policy_loss_of_value q_net (alpha s) (q_net1 s') (q_net2 s') (obs b) out p_loss
              Lo Epl) as [Hval Hgrad].
  unfold actor_loss_of in Eal.
  destruct (bear_actor_loss (data lap) mmd_loss) as [penalty|] eqn:Ep; [|discriminate].
  destruct (bear_actor_loss_value (data lap) mmd_loss penalty Ep) as [Pval Pgrad].
  cbn [mbind res_bind] in Eal.
  pose proof (f_equal (fun x => match x with Ok y => y | Err _ => actor_loss end) Eal) as Eal'.
  cbv beta iota in Eal'. clear Eal.
  unfold actor_update in Eau.
  pose proof (f_equal (fun x => fst (fst x)) Eau) as Epg.
  pose proof (f_equal (fun x => snd (fst x)) Eau) as Eopt.
  pose proof (f_equal (fun x => data (snd x)) Eau) as Elap.
  cbn [fst snd data] in Epg, Eopt, Elap. clear Eau.
  exists b, r1, r3, r4, mmd_loss, lap, out, p_loss, penalty.
  split; [exact Eb|]. split; [exact Em|]. split; [exact Ef|]. split; [exact Elap|].
  split; [exact Ep|]. split; [exact Pval|]. split; [exact Pgrad|].
  split; [exact Epl|]. split; [exact Els|]. split; [exact Hval|]. split; [exact Hgrad|].
  split.
  - intros Hle. assert (Hg : (train_step s >? warmup_step (cfg s))%Z = false) by lia.
    rewrite Hg in Eal'. subst actor_loss. split; [symmetry; exact Epg|symmetry; exact Eopt].
  - intros Hgt. assert (Hg : (train_step s >? warmup_step (cfg s))%Z = true) by lia.
    rewrite Hg in Eal'. subst actor_loss. split; [symmetry; exact Epg|symmetry; exact Eopt].
Qed.
End ActorGate.

(** *** The losses [train] computes *)

Lemma mapR_Forall {A B} (P : B -> Prop) (f : A -> res B) (l : list A) (m : list B) :
  (forall x y, f x = Ok y -> P y) -> mapR f l = Ok m -> Forall P m.
Proof.
  intros Hf. revert m. induction l as [|x l IH]; intros m; simpl.
  - intros E. injection E as <-. constructor.
  - destruct (f x) as [y|] eqn:Ey; [|discriminate]. simpl.
    destruct (mapR f l) as [ys|]; [|discriminate]. simpl.
    intros E. injection E as <-. constructor; [exact (Hf x y Ey)|apply IH; reflexivity].
Qed.

Lemma zipR_Forall {A B C} (P : C -> Prop) (f : A -> B -> res C) (l1 : list A) (l2 : list B)
    (m : list C) :
  (forall x y z, f x y = Ok z -> P z) -> zipR f l1 l2 = Ok m -> Forall P m.
Proof.
  intros Hf. revert l2 m. induction l1 as [|x l1 IH]; intros [|y l2] m; simpl;
    try (intros E; injection E as <-; constructor).
  destruct (f x y) as [z|] eqn:Ez; [|discriminate]. simpl.
  destruct (zipR f l1 l2) as [zs|] eqn:Ezs; [|discriminate]. simpl.
  intros E. injection E as <-. constructor; [exact (Hf x y z Ez)|exact (IH l2 zs Ezs)].
Qed.

Lemma broadcast_Forall {A B C} (P : C -> Prop) (f : A -> B -> res C) (l1 : list A)
    (l2 : list B) (m : list C) :
  (forall x y z, f x y = Ok z -> P z) -> broadcast f l1 l2 = Ok m -> Forall P m.
Proof.
  intros Hf. unfold broadcast. destruct (length l1 =? length l2)%nat.
  - apply zipR_Forall, Hf.
  - destruct l1 as [|x [|x' l1]]; destruct l2 as [|y [|y' l2]]; try discriminate;
      first [ apply mapR_Forall; intros a c; apply Hf
            | intros E; injection E as <-; constructor ].
Qed.

Section LossSigns.
Context {G : Type} `{VSpace G}.

Lemma Rsum_nonneg (l : list R) : Forall (fun x => 0 <= x) l -> 0 <= Rsum l.
Proof.
  induction 1 as [|x l Hx _ IH]; [unfold Rsum; simpl; lra|].
  change (Rsum (x :: l)) with (x + Rsum l). lra.
Qed.

Lemma mse_loss_nonneg (current : list (dual G)) (target : list R) (m : dual G) :
  mse_loss current target = Ok m -> 0 <= val m.
Proof.
  unfold mse_loss.
  destruct (broadcast (fun q t => Ok (tsq (tsub q (of_R t)))) current target) as [d|] eqn:Ed;
    [|discriminate].
  simpl. unfold tmean. destruct d as [|x d]; [discriminate|].
  intros E. injection E as <-.
  apply (broadcast_Forall (fun z : dual G => 0 <= val z)) in Ed.
  - change (0 <= val (tsum (x :: d)) / INR (length (x :: d))).
    rewrite val_tsum. apply Rmult_le_pos.
    + apply Rsum_nonneg. apply Forall_map. exact Ed.
    + left. apply Rinv_0_lt_compat. apply lt_0_INR. simpl. lia.
  - intros q t z E. injection E as <-. simpl.
    pose proof (Rle_0_sqr (val q - t)) as Hsq. unfold Rsqr in Hsq. exact Hsq.
Qed.
End LossSigns.

Section MultiplierLoss.
Context {V : Type} `{VSpace V}.

Lemma alpha_prime_terms (thresh lap : R) (mmd_loss : list (dual V)) :
  let l := tsum (map (fun d => tmul (texp (leaf_tensor lap))
                                    (tsub (from_policy d) (of_R thresh))) mmd_loss) in
  val l = exp lap * (tsum (map val mmd_loss) - INR (length mmd_loss) * thresh) /\
  snd (grad l) = val l.
Proof.
  induction mmd_loss as [|d l [IHv IHg]].
  - simpl. split; lra.
  - cbv zeta in *. rewrite length_cons, S_INR.
    set (f := fun d : dual V => tmul (texp (leaf_tensor lap))
                                     (tsub (from_policy d) (of_R thresh))) in *.
    change (map f (d :: l)) with (f d :: map f l).
    change (tsum (f d :: map f l)) with (tadd (f d) (tsum (map f l))).
    change (map val (d :: l)) with (val d :: map val l).
    change (tsum (val d :: map val l)) with (val d + tsum (map val l)).
    change (val (tadd (f d) (tsum (map f l)))) with (val (f d) + val (tsum (map f l))).
    change (snd (grad (tadd (f d) (tsum (map f l)))))
      with (snd (grad (f d)) + snd (grad (tsum (map f l)))).
    rewrite IHg, IHv.
    change (val (f d)) with (exp lap * (val d - thresh)).
    change (snd (grad (f d)))
      with ((val d - thresh) * (exp lap * 1) + exp lap * (0 + -1 * 0)).
    split; lra.
Qed.

(** X9: the loss of the multiplier is
    -exp(log_alpha_prime) * (mean(mmd_loss) - lagrange_thresh), and its
    derivative w.r.t. log_alpha_prime is the loss itself.  So the gradient
    is negative, and a gradient step raises log_alpha_prime, exactly when
    the mean support distance exceeds the threshold. *)
Theorem multiplier_gradient_is_its_loss (c : Config) (lap : R) (mmd_loss : list (dual V))
    (loss : dual (V * R)) :
  alpha_prime_loss_of c lap mmd_loss = Ok loss ->
  val loss = - (exp lap * (mean_val mmd_loss - lagrange_thresh c)) /\
  snd (grad loss) = val loss /\
  (snd (grad loss) < 0 <-> lagrange_thresh c < mean_val mmd_loss).
Proof.
  unfold alpha_prime_loss_of, tmean.
  destruct mmd_loss as [|d0 l0]; [discriminate|].
  set (f := fun d : dual V => tmul (texp (leaf_tensor lap))
                                   (tsub (from_policy d) (of_R (lagrange_thresh c)))).
  change (Ok (tneg (tdiv (tsum (map f (d0 :: l0))) (INR (length (map f (d0 :: l0))))))
          = Ok loss -> val loss = - (exp lap * (mean_val (d0 :: l0) - lagrange_thresh c)) /\
                       snd (grad loss) = val loss /\
                       (snd (grad loss) < 0 <-> lagrange_thresh c < mean_val (d0 :: l0))).
  intros E. injection E as E.
  destruct (alpha_prime_terms (lagrange_thresh c) lap (d0 :: l0)) as [Hv Hg].
  fold f in Hv, Hg.
  assert (Hn : 0 < INR (length (d0 :: l0))) by (apply lt_0_INR; simpl; lia).
  assert (Eval : val loss = - (exp lap * (mean_val (d0 :: l0) - lagrange_thresh c))).
  { rewrite <- E.
    change (- (val (tsum (map f (d0 :: l0))) / INR (length (map f (d0 :: l0))))
            = - (exp lap * (mean_val (d0 :: l0) - lagrange_thresh c))).
    rewrite Hv, length_map. unfold mean_val. field. lra. }
  assert (Egrad : snd (grad loss) = - (exp lap * (mean_val (d0 :: l0) - lagrange_thresh c))).
  { rewrite <- E.
    change (-1 * (/ INR (length (map f (d0 :: l0))) * snd (grad (tsum (map f (d0 :: l0)))))
            = - (exp lap * (mean_val (d0 :: l0) - lagrange_thresh c))).
    rewrite Hg, Hv, length_map. unfold mean_val. field. lra. }
  split; [exact Eval|]. split; [rewrite Egrad, Eval; reflexivity|].
  rewrite Egrad. pose proof (exp_pos lap) as Hexp. split; intros Hlt; nra.
Qed.
End MultiplierLoss.

Section TemperatureLoss.
Context {AdamSt V : Type}.

Lemma alpha_terms (la h : R) (out : list (PolicyOut V)) :
  let l := tsum (map (fun p : PolicyOut V =>
                        tmul (Dual la (1 : R)) (of_R (val (log_prob p) + h))) out) in
  val l = la * grad l /\
  grad l = Rsum (map (fun p => val (log_prob p) + h) out).
Proof.
  induction out as [|p out [IHv IHg]].
  - simpl. unfold Rsum. simpl. split; lra.
  - cbv zeta in *.
    set (f := fun p : PolicyOut V => tmul (Dual la (1 : R)) (of_R (val (log_prob p) + h))) in *.
    change (map f (p :: out)) with (f p :: map f out).
    change (tsum (f p :: map f out)) with (tadd (f p) (tsum (map f out))).
    change (val (tadd (f p) (tsum (map f out)))) with (val (f p) + val (tsum (map f out))).
    change (grad (tadd (f p) (tsum (map f out)))) with (grad (f p) + grad (tsum (map f out))).
    change (Rsum (map (fun p => val (log_prob p) + h) (p :: out)))
      with ((val (log_prob p) + h) + Rsum (map (fun p => val (log_prob p) + h) out)).
    rewrite IHv, IHg.
    change (val (f p)) with (la * (val (log_prob p) + h)).
    change (grad (f p)) with ((val (log_prob p) + h) * 1 + la * 0).
    split; lra.
Qed.

(** X10: the derivative of the temperature loss w.r.t. log_alpha is
    -mean(log_prob + target_entropy), whatever log_alpha is, and the loss is
    log_alpha times that derivative. *)
Theorem temperature_gradient_is_the_entropy_gap (t : @AlphaTuning AdamSt)
    (out : list (PolicyOut V)) (loss : dual R) :
  alpha_loss_of t out = Ok loss ->
  grad loss
  = - (Rsum (map (fun p => val (log_prob p) + target_entropy t) out) / INR (length out)) /\
  val loss = log_alpha t * grad loss.
Proof.
  unfold alpha_loss_of, tmean.
  destruct out as [|p0 out0]; [discriminate|].
  set (f := fun p : PolicyOut V =>
              tmul (Dual (log_alpha t) (1 : R)) (of_R (val (log_prob p) + target_entropy t))).
  change (Ok (tneg (tdiv (tsum (map f (p0 :: out0))) (INR (length (map f (p0 :: out0))))))
          = Ok loss ->
          grad loss = - (Rsum (map (fun p => val (log_prob p) + target_entropy t) (p0 :: out0))
                         / INR (length (p0 :: out0))) /\
          val loss = log_alpha t * grad loss).
  intros E. injection E as E.
  destruct (alpha_terms (log_alpha t) (target_entropy t) (p0 :: out0)) as [Hv Hg].
  fold f in Hv, Hg.
  assert (Hn : 0 < INR (length (p0 :: out0))) by (apply lt_0_INR; simpl; lia).
  assert (Egrad : grad loss
                  = - (Rsum (map (fun p => val (log_prob p) + target_entropy t) (p0 :: out0))
                       / INR (length (p0 :: out0)))).
  { rewrite <- E.
    change (-1 * (/ INR (length (map f (p0 :: out0))) * grad (tsum (map f (p0 :: out0))))
            = - (Rsum (map (fun p => val (log_prob p) + target_entropy t) (p0 :: out0))
                 / INR (length (p0 :: out0)))).
    rewrite Hg, length_map. field. lra. }
  split; [exact Egrad|].
  rewrite Egrad, <- E.
  change (- (val (tsum (map f (p0 :: out0))) / INR (length (map f (p0 :: out0))))
          = log_alpha t
            * - (Rsum (map (fun p => val (log_prob p) + target_entropy t) (p0 :: out0))
                 / INR (length (p0 :: out0)))).
  rewrite Hv, Hg, length_map. field. lra.
Qed.
End TemperatureLoss.

Section TrainLosses.
Context {Obs PolicyParams QParams CvaeParams AdamSt Rng : Type}.
Context {V VQ VC : Type} `{VSpace V, VSpace VQ, VSpace VC}.
Variable policy_net : PolicyParams -> Obs -> Rng -> PolicyOut V * Rng.
Variable sample_multiple_without_squash :
  PolicyParams -> Obs -> nat -> Rng -> list (list (dual V)) * Rng.
Variable q_net : forall G, VSpace G -> QParams -> Obs -> list (dual G) -> dual (VQ * G).
Variable cvae_loss_function :
  CvaeParams -> list Obs -> list (list R) -> Rng -> dual VC * Rng.
Variable decode_multiple_without_squash :
  CvaeParams -> Obs -> nat -> Rng -> list (list R) * Rng.
Variable adam_policy : AdamSt -> PolicyParams -> V -> AdamSt * PolicyParams.
Variable adam_q : AdamSt -> QParams -> VQ -> AdamSt * QParams.
Variable adam_cvae : AdamSt -> CvaeParams -> VC -> AdamSt * CvaeParams.
Variable adam_scalar : AdamSt -> R -> R -> AdamSt * R.
Variable soft_target_update : QParams -> QParams -> R -> QParams.
Variable buffer_sample : Rng -> Batch Obs * Rng.

Abbreviation AgentS := (@Agent PolicyParams QParams CvaeParams AdamSt V).
Abbreviation trainS :=
  (train policy_net sample_multiple_without_squash q_net cvae_loss_function
     decode_multiple_without_squash adam_policy adam_q adam_cvae adam_scalar
     soft_target_update buffer_sample).
Abbreviation train_nS :=
  (train_n policy_net sample_multiple_without_squash q_net cvae_loss_function
     decode_multiple_without_squash adam_policy adam_q adam_cvae adam_scalar
     soft_target_update buffer_sample).

Lemma critic_update_nonneg (q : QParams) (opt : AdamSt) (b : Batch Obs) (target_q : list R)
    (loss : dual VQ) (x : AdamSt * QParams) :
  critic_update q_net adam_q q opt b target_q = Ok (loss, x) -> 0 <= val loss.
Proof.
  unfold critic_update. destruct (rows2 _ _ _) as [current|]; [|discriminate]. simpl.
  destruct (mse_loss current target_q) as [m|] eqn:Em; [|discriminate]. simpl.
  intros E. injection E as <- _. exact (mse_loss_nonneg current target_q m Em).
Qed.

(** X11: the two critic losses [train] returns are non-negative; each
    is the mean squared error of one critic, before its update, against the
    target both critics share. *)
Theorem critic_losses_are_nonnegative (s s' : AgentS) (ls : Losses) (r r' : Rng) :
  trainS s r = Ok (ls, s', r') ->
  0 <= critic_loss1 ls /\ 0 <= critic_loss2 ls /\
  exists b target_q loss1 loss2 r1 r2,
    critic_target policy_net q_net s b r1 = Ok (target_q, r2) /\
    critic_update q_net adam_q (q_net1 s) (q_optimizer1 s) b target_q
    = Ok (loss1, (q_optimizer1 s', q_net1 s')) /\
    critic_update q_net adam_q (q_net2 s) (q_optimizer2 s) b target_q
    = Ok (loss2, (q_optimizer2 s', q_net2 s')) /\
    critic_loss1 ls = val loss1 /\ critic_loss2 ls = val loss2.
Proof.
  intros Etr.
  destruct (train_unfold _ _ _ _ _ _ _ _ _ _ _ s s' ls r r' Etr)
    as (b & r1 & cl & r2 & tq & r3 & l1 & l2 & mmd & r4 & apl & pg & lap & out & pl & al &
        _ & _ & _ & Et & E1 & E2 & _ & _ & _ & _ & _ & _ & _ & Hl1 & Hl2 & _).
  split; [rewrite Hl1; exact (critic_update_nonneg _ _ _ _ _ _ E1)|].
  split; [rewrite Hl2; exact (critic_update_nonneg _ _ _ _ _ _ E2)|].
  exists b, tq, l1, l2, r2, r3. repeat split; assumption.
Qed.

(** What one call of [train] does to the temperature. *)
Lemma train_alpha (s s' : AgentS) (ls : Losses) (r r' : Rng) :
  trainS s r = Ok (ls, s', r') ->
  match alpha_tuning s with
  | Some t =>
      exists t', alpha_tuning s' = Some t' /\ alpha s' = exp (log_alpha t') /\
                 target_entropy t' = target_entropy t /\ alpha_param t' = alpha_param t /\
                 (alpha_param t = Replaced -> log_alpha t' = log_alpha t)
  | None => alpha_tuning s' = None /\ alpha s' = alpha s /\ alpha_loss ls = 0
  end.
Proof.
  intros Etr.
  destruct (train_unfold _ _ _ _ _ _ _ _ _ _ _ s s' ls r r' Etr)
    as (b & r1 & cl & r2 & tq & r3 & l1 & l2 & mmd & r4 & apl & pg & lap & out & pl & al &
        _ & _ & _ & _ & _ & _ & _ & _ & _ & _ & _ & _ & Etun & _).
  destruct (alpha_tuning s) as [t|].
  - destruct Etun as (a_loss & t' & Eat & _ & Ha & Et'). exists t'.
    split; [exact Et'|]. split; [exact Ha|].
    unfold alpha_update in Eat. destruct (alpha_loss_of t out); [|discriminate].
    simpl in Eat. destruct (alpha_param t) eqn:Ep.
    + destruct (adam_scalar _ _ _). injection Eat as _ <-. simpl.
      repeat split. discriminate.
    + injection Eat as _ <-. simpl. repeat split.
  - destruct Etun as (Hl & Ha & Ht). repeat split; assumption.
Qed.

(** X12: after any number of calls of [train] on an agent [__init__]
    has built: with automatic entropy tuning, alpha is exp(log_alpha), the
    target entropy is -action_dim and the optimizer still holds log_alpha;
    without it, there is no log_alpha and alpha is the constructor's
    argument. *)
Theorem temperature_follows_log_alpha (adam_init : AdamSt) (c : Config)
    (policy0 : PolicyParams) (q1 q2 : QParams) (cvae0 : CvaeParams) (alpha0 : R)
    (auto : bool) (action_dim n : nat) (s' : AgentS) (r r' : Rng) :
  train_nS n (init adam_init c policy0 q1 q2 cvae0 alpha0 auto action_dim) r = Ok (s', r') ->
  if auto
  then exists t, alpha_tuning s' = Some t /\ alpha s' = exp (log_alpha t) /\
                 target_entropy t = - INR action_dim /\ alpha_param t = Current
  else alpha_tuning s' = None /\ alpha s' = alpha0.
Proof.
  set (s0 := init adam_init c policy0 q1 q2 cvae0 alpha0 auto action_dim).
  assert (H0s : if auto
               then exists t, alpha_tuning s0 = Some t /\ alpha s0 = exp (log_alpha t) /\
                              target_entropy t = - INR action_dim /\ alpha_param t = Current
               else alpha_tuning s0 = None /\ alpha s0 = alpha0).
  { unfold s0. destruct auto; simpl; [|split; reflexivity].
    eexists. split; [reflexivity|]. simpl. repeat split. }
  clearbody s0. revert s0 r H0s. induction n as [|n IH]; intros s0 r H0s; simpl.
  - intros E. injection E as <- <-. exact H0s.
  - unfold mbind, M_bind. destruct (trainS s0 r) as [[[ls s1] r1]|] eqn:Et; [|discriminate].
    apply IH. pose proof (train_alpha s0 s1 ls r r1 Et) as Ha.
    destruct auto.
    + destruct H0s as (t & Et0 & _ & Hte & Hp). rewrite Et0 in Ha.
      destruct Ha as (t' & Et' & Ha' & Hte' & Hp' & _).
      exists t'. repeat split; congruence.
    + destruct H0s as (Et0 & Ha0). rewrite Et0 in Ha.
      destruct Ha as (Et' & Ha' & _). split; congruence.
Qed.

End TrainLosses.

(** *** More on the critic target (lines 174-184) *)

Lemma foldl_Rmax_spec (g : list R) (x : R) :
  foldl Rmax x g ∈ x :: g /\ forall y, y ∈ x :: g -> y <= foldl Rmax x g.
Proof.
  revert x. induction g as [|z g IH]; intros x; simpl.
  - split; [left|]. intros y Hy. apply list_elem_of_singleton in Hy as ->. lra.
  - destruct (IH (Rmax x z)) as [Hin Hmax]. split.
    + apply elem_of_cons in Hin as [Hin|Hin].
      * rewrite Hin. unfold Rmax. destruct (Rle_dec x z); [right; left|left].
      * right. right. exact Hin.
    + intros y Hy. apply elem_of_cons in Hy as [->|Hy].
      * transitivity (Rmax x z); [apply Rmax_l|]. apply Hmax. left.
      * apply elem_of_cons in Hy as [->|Hy].
        -- transitivity (Rmax x z); [apply Rmax_r|]. apply Hmax. left.
        -- apply Hmax. right. exact Hy.
Qed.

Lemma max_list_spec (g : list R) (v : R) :
  max_list g = Ok v -> v ∈ g /\ forall x, x ∈ g -> x <= v.
Proof.
  destruct g as [|x g]; [discriminate|]. simpl. intros E. injection E as <-.
  apply foldl_Rmax_spec.
Qed.

Lemma chunks_fuel_lookup {A} (k fuel : nat) (l : list A) (i : nat) :
  (0 < k)%nat -> (length l <= fuel)%nat -> (i * k < length l)%nat ->
  chunks_fuel fuel k l !! i = Some (take k (drop (i * k) l)).
Proof.
  intros Hk. revert fuel l. induction i as [|i IH]; intros fuel l Hf Hi.
  - destruct l as [|x l]; [simpl in Hi; lia|].
    destruct fuel as [|fuel]; [simpl in Hf; lia|]. reflexivity.
  - destruct l as [|x l]; [simpl in Hi; lia|].
    destruct fuel as [|fuel]; [simpl in Hf; lia|].
    simpl chunks_fuel. simpl lookup.
    change (chunks_fuel fuel k (drop k (x :: l)) !! i
            = Some (take k (drop (S i * k) (x :: l)))).
    rewrite IH.
    + rewrite drop_drop. do 3 f_equal; lia.
    + rewrite length_drop. simpl in *. lia.
    + rewrite length_drop. simpl in *. lia.
Qed.

Lemma mapR_lookup {A B} (f : A -> res B) (l : list A) (m : list B) (i : nat) (v : B) :
  mapR f l = Ok m -> m !! i = Some v -> exists x, l !! i = Some x /\ f x = Ok v.
Proof.
  revert m i. induction l as [|x l IH]; intros m i; simpl.
  - intros E. injection E as <-. intros Hi. discriminate.
  - destruct (f x) as [y|] eqn:Ey; [|discriminate]. simpl.
    destruct (mapR f l) as [ys|] eqn:Eys; [|discriminate]. simpl.
    intros E. injection E as <-. destruct i as [|i]; simpl.
    + intros Hv. injection Hv as <-. exists x. split; [reflexivity|exact Ey].
    + intros Hv. exact (IH ys i eq_refl Hv).
Qed.

Lemma repeat_lookup {A} (x : A) (n j : nat) : (j < n)%nat -> repeat x n !! j = Some x.
Proof.
  revert j. induction n as [|n IH]; intros j Hj; [lia|].
  destruct j as [|j]; [reflexivity|]. simpl. apply IH. lia.
Qed.

Lemma repeat_interleave_lookup {A} (l : list A) (n i j : nat) :
  (j < n)%nat -> repeat_interleave l n !! (i * n + j)%nat = l !! i.
Proof.
  intros Hj. unfold repeat_interleave. revert i. induction l as [|x l IH]; intros i.
  - reflexivity.
  - simpl. destruct i as [|i].
    + rewrite lookup_app_l by (rewrite repeat_length; lia). simpl.
      apply repeat_lookup, Hj.
    + rewrite lookup_app_r by (rewrite repeat_length; lia).
      rewrite repeat_length. replace (S i * n + j - n)%nat with (i * n + j)%nat by lia.
      apply IH.
Qed.

Section CriticTargetMore.
Context {Obs PolicyParams QParams CvaeParams AdamSt Rng : Type}.
Context {V VQ : Type} `{VSpace V, VSpace VQ}.
Variable policy_net : PolicyParams -> Obs -> Rng -> PolicyOut V * Rng.
Variable q_net : forall G, VSpace G -> QParams -> Obs -> list (dual G) -> dual (VQ * G).

Abbreviation AgentQ := (@Agent PolicyParams QParams CvaeParams AdamSt V).

(** X14: when the critic target is computed, transition i of the batch
    gets reward + gamma * (1 - done) * v, where v is the largest of the ten
    soft-clipped values at positions 10 i .. 10 i + 9, the ones computed
    for the copies of next-observation i; for a non-empty batch
    n_target_samples is 10. *)
Theorem critic_target_takes_max_of_own_draws (s : AgentQ) (b : Batch Obs) (r r' : Rng)
    (t : list R) :
  batch_ok b -> critic_target policy_net q_net s b r = Ok (t, r') ->
  exists draws,
    target_q_draws policy_net q_net s b r = Ok (draws, r') /\
    length draws = (length (obs b) * 10)%nat /\
    length t = length (obs b) /\
    (forall i rew d,
        rews b !! i = Some rew -> done b !! i = Some d ->
        exists v, t !! i = Some (rew + gamma (cfg s) * (1 - d) * v) /\
                  (exists j, (j < 10)%nat /\ draws !! (i * 10 + j)%nat = Some v) /\
                  (forall j x, (j < 10)%nat -> draws !! (i * 10 + j)%nat = Some x -> x <= v)) /\
    (obs b <> [] ->
     n_target_samples (cfg s) = 10%nat /\
     forall i j, (j < 10)%nat ->
                 repeat_interleave (next_obs b) (n_target_samples (cfg s)) !! (i * 10 + j)%nat
                 = next_obs b !! i).
Proof.
  intros Hb Et.
  destruct (critic_target_inv policy_net q_net s b r r' t Hb Et)
    as (draws & m & Ed & Ld & Em & Lm & ->).
  destruct Hb as (Hnext & Hrews & Hdone).
  exists draws. split; [exact Ed|]. split; [exact Ld|].
  split; [rewrite !length_zip_with, length_map; lia|]. split.
  - intros i rew d Hrew Hd.
    assert (Hi : (i < length (obs b))%nat) by (apply lookup_lt_Some in Hrew; lia).
    destruct (lookup_lt_is_Some_2 m i) as [v Hv]; [lia|].
    exists v. split.
    + rewrite !lookup_zip_with, list_lookup_fmap, Hrew, Hd, Hv. simpl.
      do 2 f_equal.
    + destruct (mapR_lookup max_list (chunks 10 draws) m i v Em Hv) as (g & Hg & Emax).
      unfold chunks in Hg.
      rewrite chunks_fuel_lookup in Hg by lia. injection Hg as <-.
      apply max_list_spec in Emax as [Hin Hmax]. split.
      * apply elem_of_take in Hin as (j & Hj & Lj). rewrite lookup_drop in Hj.
        exists j. split; [exact Lj|exact Hj].
      * intros j x Hj Hx. apply Hmax. apply elem_of_take.
        exists j. split; [rewrite lookup_drop; exact Hx|exact Hj].
  - intros Hne.
    assert (Hn : n_target_samples (cfg s) = 10%nat).
    { destruct (Nat.eq_dec (n_target_samples (cfg s)) 10%nat) as [E|N]; [exact E|].
      rewrite (critic_target_shape_error policy_net q_net s b r N) in Et;
        [discriminate|repeat split; assumption|exact Hne]. }
    split; [exact Hn|]. intros i j Hj. rewrite Hn. apply repeat_interleave_lookup, Hj.
Qed.

(** X15: the critic target of a terminal transition (done = 1) is its
    reward, whatever the target critics say; with gamma = 0 the target is the
    reward for every transition. *)
Theorem terminal_transitions_bootstrap_nothing (s : AgentQ) (b : Batch Obs) (r r' : Rng)
    (t : list R) :
  batch_ok b -> critic_target policy_net q_net s b r = Ok (t, r') ->
  length t = length (obs b) /\
  (forall i rew, rews b !! i = Some rew -> done b !! i = Some 1 -> t !! i = Some rew) /\
  (gamma (cfg s) = 0 -> t = rews b).
Proof.
  intros Hb Et.
  destruct (critic_target_inv policy_net q_net s b r r' t Hb Et)
    as (draws & m & Ed & Ld & Em & Lm & ->).
  destruct Hb as (Hnext & Hrews & Hdone).
  split; [rewrite !length_zip_with, length_map; lia|]. split.
  - intros i rew Hrew Hd.
    assert (Hi : (i < length (obs b))%nat) by (apply lookup_lt_Some in Hrew; lia).
    destruct (lookup_lt_is_Some_2 m i) as [v Hv]; [lia|].
    rewrite !lookup_zip_with, list_lookup_fmap, Hrew, Hd, Hv. simpl.
    f_equal. lra.
  - intros Hg. apply list_eq. intros i.
    rewrite !lookup_zip_with, list_lookup_fmap.
    destruct (rews b !! i) as [rew|] eqn:Hrew; [|reflexivity]. simpl.
    assert (Hi : (i < length (obs b))%nat) by (apply lookup_lt_Some in Hrew; lia).
    destruct (lookup_lt_is_Some_2 (done b) i) as [d Hd]; [lia|].
    destruct (lookup_lt_is_Some_2 m i) as [v Hv]; [lia|].
    rewrite Hd, Hv. simpl. f_equal. rewrite Hg. lra.
Qed.
End CriticTargetMore.

(** *** [learn] (lines 258-280) *)

Lemma py_mod_Some (a b m : Z) : py_mod a b = Some m -> b <> 0%Z /\ m = (a mod b)%Z.
Proof.
  unfold py_mod. destruct (Z.eqb_spec b 0) as [|Hb]; [discriminate|].
  intros E. injection E as <-. split; [exact Hb|reflexivity].
Qed.

Lemma clamp_idempotent (lo hi x : R) :
  lo <= hi -> clamp lo hi (clamp lo hi x) = clamp lo hi x.
Proof.
  intros Hlh. destruct (clamp_range lo hi x Hlh) as [H1 H2].
  unfold clamp at 1. rewrite Rmax_left by exact H1. apply Rmin_left, H2.
Qed.

Lemma last_multiple_le (L F : Z) : (0 < L)%Z -> (L * (F / L) <= F)%Z.
Proof. intros HL. apply Z.mul_div_le, HL. Qed.

Lemma last_multiple_mod (L F : Z) : (0 < L)%Z -> ((L * (F / L)) mod L = 0)%Z.
Proof. intros HL. rewrite Z.mul_comm. apply Z_mod_mult. Qed.

Lemma last_multiple_ge (L x F : Z) :
  (0 < L)%Z -> (x <= F)%Z -> (x mod L = 0)%Z -> (x <= L * (F / L))%Z.
Proof.
  intros HL Hx Hm.
  assert (Ex : x = (L * (x / L))%Z) by (apply Z_div_exact_full_2; lia).
  rewrite Ex at 1. apply Z.mul_le_mono_nonneg_l; [lia|].
  apply Z.div_le_mono; assumption.
Qed.

Section LearnProps.
Context {Obs PolicyParams QParams CvaeParams AdamSt Rng : Type}.
Context {V VQ VC : Type} `{VSpace V, VSpace VQ, VSpace VC}.
Variable policy_net : PolicyParams -> Obs -> Rng -> PolicyOut V * Rng.
Variable sample_multiple_without_squash :
  PolicyParams -> Obs -> nat -> Rng -> list (list (dual V)) * Rng.
Variable q_net : forall G, VSpace G -> QParams -> Obs -> list (dual G) -> dual (VQ * G).
Variable cvae_loss_function :
  CvaeParams -> list Obs -> list (list R) -> Rng -> dual VC * Rng.
Variable decode_multiple_without_squash :
  CvaeParams -> Obs -> nat -> Rng -> list (list R) * Rng.
Variable adam_policy : AdamSt -> PolicyParams -> V -> AdamSt * PolicyParams.
Variable adam_q : AdamSt -> QParams -> VQ -> AdamSt * QParams.
Variable adam_cvae : AdamSt -> CvaeParams -> VC -> AdamSt * CvaeParams.
Variable adam_scalar : AdamSt -> R -> R -> AdamSt * R.
Variable soft_target_update : QParams -> QParams -> R -> QParams.
Variable buffer_sample : Rng -> Batch Obs * Rng.
Variable evaluate :
  @Agent PolicyParams QParams CvaeParams AdamSt V -> nat -> Rng -> res (R * R * Rng).
Variable del_all_files_in_dir :
  option (gmap string (@CkptVal PolicyParams QParams AdamSt))
  -> option (gmap string (@CkptVal PolicyParams QParams AdamSt)).

Abbreviation AgentL := (@Agent PolicyParams QParams CvaeParams AdamSt V).
Abbreviation CkptL := (gmap string (@CkptVal PolicyParams QParams AdamSt)).
Abbreviation trainL :=
  (train policy_net sample_multiple_without_squash q_net cvae_loss_function
     decode_multiple_without_squash adam_policy adam_q adam_cvae adam_scalar
     soft_target_update buffer_sample).
Abbreviation learn_iterationL :=
  (learn_iteration policy_net sample_multiple_without_squash q_net cvae_loss_function
     decode_multiple_without_squash adam_policy adam_q adam_cvae adam_scalar
     soft_target_update buffer_sample evaluate).
Abbreviation learn_loopL :=
  (learn_loop policy_net sample_multiple_without_squash q_net cvae_loss_function
     decode_multiple_without_squash adam_policy adam_q adam_cvae adam_scalar
     soft_target_update buffer_sample evaluate).
Abbreviation learnL :=
  (learn policy_net sample_multiple_without_squash q_net cvae_loss_function
     decode_multiple_without_squash adam_policy adam_q adam_cvae adam_scalar
     soft_target_update buffer_sample evaluate del_all_files_in_dir).

(** One pass through the body of the loop that reaches its end. *)
Lemma learn_iteration_inv (lc : LearnConfig) (s s' : AgentL) (file file' : option CkptL)
    (log log' : list LogEvent) (r r' : Rng) :
  learn_iterationL lc s file log r = (Returns s' r', file', log') ->
  exists ls r1 evals,
    trainL s r = Ok (ls, s', r1) /\
    eval_freq lc <> 0%Z /\ log_interval lc <> 0%Z /\
    (if (train_step s' mod eval_freq lc =? 0)%Z
     then exists avg_reward avg_length,
            evaluate s' 5%nat r1 = Ok (avg_reward, avg_length, r') /\
            evals = [EvalData avg_length avg_reward (train_step s')]
     else r' = r1 /\ evals = []) /\
    (if (train_step s' mod log_interval lc =? 0)%Z
     then file' = Some (store_agent_checkpoint s') /\
          log' = log ++ evals ++ [TrainData ls (train_step s')]
     else file' = file /\ log' = log ++ evals).
Proof.
  unfold learn_iteration.
  destruct (trainL s r) as [[[ls s1] r1]|e] eqn:Et; [|discriminate].
  destruct (py_mod (train_step s1) (eval_freq lc)) as [m1|] eqn:E1; [|discriminate].
  apply py_mod_Some in E1 as [Hf1 ->].
  destruct (train_step s1 mod eval_freq lc =? 0)%Z eqn:Em1.
  - destruct (evaluate s1 5%nat r1) as [[[rew len] r2]|e] eqn:Eev; [|discriminate].
    destruct (py_mod (train_step s1) (log_interval lc)) as [m2|] eqn:E2; [|discriminate].
    apply py_mod_Some in E2 as [Hf2 ->].
    destruct (train_step s1 mod log_interval lc =? 0)%Z eqn:Em2;
      intros E; injection E as <- <- <- <-;
      exists ls, r1, [EvalData len rew (train_step s1)];
      rewrite Em1, Em2; (repeat split; try assumption);
      try (exists rew, len; split; [exact Eev|reflexivity]).
    rewrite <- app_assoc. reflexivity.
  - destruct (py_mod (train_step s1) (log_interval lc)) as [m2|] eqn:E2; [|discriminate].
    apply py_mod_Some in E2 as [Hf2 ->].
    destruct (train_step s1 mod log_interval lc =? 0)%Z eqn:Em2;
      intros E; injection E as <- <- <- <-;
      exists ls, r1, []; rewrite Em1, Em2; (repeat split; try assumption).
    rewrite app_nil_r. reflexivity.
Qed.

Lemma learn_iteration_step (lc : LearnConfig) (s s' : AgentL) (file file' : option CkptL)
    (log log' : list LogEvent) (r r' : Rng) :
  learn_iterationL lc s file log r = (Returns s' r', file', log') ->
  train_step s' = (train_step s + 1)%Z /\ cfg s' = cfg s /\
  alpha_prime_param s' = alpha_prime_param s.
Proof.
  intros Hi. apply learn_iteration_inv in Hi as (ls & r1 & evals & Et & _).
  destruct (train_inv policy_net sample_multiple_without_squash q_net cvae_loss_function
              decode_multiple_without_squash adam_policy adam_q adam_cvae adam_scalar
              soft_target_update buffer_sample s s' ls r r1 Et)
    as (? & ? & ? & ? & ? & ? & ? & _ & _ & _ & _ & Hp & Hc & Ht).
  repeat split; assumption.
Qed.

(** Enough fuel: the loop is never cut short, and when it returns the step
    counter stands at the bound (or where it stood, if that was beyond). *)
Lemma learn_loop_fuel (fuel : nat) (lc : LearnConfig) (s : AgentL) (file : option CkptL)
    (log : list LogEvent) (r : Rng) :
  (Z.to_nat (max_train_step lc - train_step s) <= fuel)%nat ->
  exists ending file' log',
    learn_loopL fuel lc s file log r = Some (ending, file', log') /\
    forall s' r', ending = Returns s' r' ->
                  train_step s' = Z.max (train_step s) (max_train_step lc) /\
                  cfg s' = cfg s.
Proof.
  revert s file log r. induction fuel as [|fuel IH]; intros s file log r Hfuel.
  - simpl. destruct (Z.ltb_spec (train_step s) (max_train_step lc)) as [Hlt|Hge]; [lia|].
    do 3 eexists. split; [reflexivity|]. intros s' r' E. injection E as <- <-.
    split; [lia|reflexivity].
  - simpl. destruct (Z.ltb_spec (train_step s) (max_train_step lc)) as [Hlt|Hge].
    + destruct (learn_iterationL lc s file log r) as [[[s1 r1|e] file1] log1] eqn:Ei.
      * apply learn_iteration_step in Ei as (Ht & Hc & _).
        destruct (IH s1 file1 log1 r1) as (ending & file' & log' & E & Hend); [lia|].
        exists ending, file', log'. split; [exact E|].
        intros s' r' Hs'. destruct (Hend s' r' Hs') as [Ht' Hc'].
        split; [lia|congruence].
      * do 3 eexists. split; [reflexivity|]. intros s' r' E. discriminate.
    + do 3 eexists. split; [reflexivity|]. intros s' r' E. injection E as <- <-.
      split; [lia|reflexivity].
Qed.

(** X16: without [resume], [learn] comes to an end within
    max_train_step - train_step iterations: it returns or an exception
    leaves it.  When it returns, the step counter stands at max_train_step,
    or where it stood if that was already at or beyond the bound (the loop
    then runs no iteration), and the configuration is unchanged. *)
Theorem learn_stops_at_max_train_step (fuel : nat) (lc : LearnConfig) (s : AgentL)
    (file : option CkptL) (log : list LogEvent) (r : Rng) :
  resume lc = false ->
  (Z.to_nat (max_train_step lc - train_step s) <= fuel)%nat ->
  exists ending file' log',
    learnL fuel lc s file log r = Some (ending, file', log') /\
    forall s' r', ending = Returns s' r' ->
                  train_step s' = Z.max (train_step s) (max_train_step lc) /\
                  cfg s' = cfg s.
Proof.
  intros Hres Hfuel. unfold learn. rewrite Hres.
  apply learn_loop_fuel, Hfuel.
Qed.

(** An invariant of [train] holds when the loop returns. *)
Lemma learn_loop_invariant (P : AgentL -> Prop) (fuel : nat) (lc : LearnConfig)
    (s s' : AgentL) (file file' : option CkptL) (log log' : list LogEvent) (r r' : Rng) :
  (forall s1 s2 ls r1 r2, P s1 -> trainL s1 r1 = Ok (ls, s2, r2) -> P s2) ->
  P s ->
  learn_loopL fuel lc s file log r = Some (Returns s' r', file', log') ->
  P s'.
Proof.
  intros Hstep. revert s file log r. induction fuel as [|fuel IH]; intros s file log r Hs; simpl.
  - destruct (train_step s <? max_train_step lc)%Z; [discriminate|].
    intros E. injection E as <- <- <- <-. exact Hs.
  - destruct (train_step s <? max_train_step lc)%Z.
    + destruct (learn_iterationL lc s file log r) as [[[s1 r1|e] file1] log1] eqn:Ei;
        [|discriminate].
      apply learn_iteration_inv in Ei as (ls & r0 & evals & Et & _).
      apply IH. exact (Hstep s s1 ls r r0 Hs Et).
    + intros E. injection E as <- <- <- <-. exact Hs.
Qed.

Lemma learn_loop_final_step (fuel : nat) (lc : LearnConfig) (s s' : AgentL)
    (file file' : option CkptL) (log log' : list LogEvent) (r r' : Rng) :
  learn_loopL fuel lc s file log r = Some (Returns s' r', file', log') ->
  train_step s' = Z.max (train_step s) (max_train_step lc) /\ cfg s' = cfg s.
Proof.
  revert s file log r. induction fuel as [|fuel IH]; intros s file log r; simpl.
  - destruct (Z.ltb_spec (train_step s) (max_train_step lc)); [discriminate|].
    intros E. injection E as <- <- <- <-. split; [lia|reflexivity].
  - destruct (Z.ltb_spec (train_step s) (max_train_step lc)) as [Hlt|Hge].
    + destruct (learn_iterationL lc s file log r) as [[[s1 r1|e] file1] log1] eqn:Ei;
        [|discriminate].
      apply learn_iteration_step in Ei as (Ht & Hc & _).
      intros E. apply IH in E as [Ht' Hc']. split; [lia|congruence].
    + intros E. injection E as <- <- <- <-. split; [lia|reflexivity].
Qed.

Lemma learn_loop_done (fuel : nat) (lc : LearnConfig) (s : AgentL) (file : option CkptL)
    (log : list LogEvent) (r : Rng) :
  (max_train_step lc <= train_step s)%Z ->
  learn_loopL fuel lc s file log r = Some (Returns s r, file, log).
Proof.
  intros Hge. destruct fuel; simpl;
    destruct (Z.ltb_spec (train_step s) (max_train_step lc)); try lia; reflexivity.
Qed.

(** The checkpoint file when the loop returns: written last at the last
    multiple of [log_interval] the step counter passed. *)
Lemma learn_loop_checkpoint (fuel : nat) (lc : LearnConfig) (s s' : AgentL)
    (file file' : option CkptL) (log log' : list LogEvent) (r r' : Rng) :
  (0 < log_interval lc)%Z ->
  learn_loopL fuel lc s file log r = Some (Returns s' r', file', log') ->
  if (train_step s <? log_interval lc * (train_step s' / log_interval lc))%Z
  then exists sk, file' = Some (store_agent_checkpoint sk) /\
                  train_step sk = (log_interval lc * (train_step s' / log_interval lc))%Z /\
                  cfg sk = cfg s /\
                  (train_step s' = train_step sk -> sk = s')
  else file' = file.
Proof.
  intros HL. revert s file log r. induction fuel as [|fuel IH]; intros s file log r; simpl.
  - destruct (Z.ltb_spec (train_step s) (max_train_step lc)); [discriminate|].
    intros E. injection E as <- <- <- <-.
    pose proof (last_multiple_le (log_interval lc) (train_step s) HL).
    destruct (Z.ltb_spec (train_step s)
                (log_interval lc * (train_step s / log_interval lc))); [lia|reflexivity].
  - destruct (Z.ltb_spec (train_step s) (max_train_step lc)) as [Hlt|Hge].
    + destruct (learn_iterationL lc s file log r) as [[[s1 r1|e] file1] log1] eqn:Ei;
        [|discriminate].
      pose proof (learn_iteration_step _ _ _ _ _ _ _ _ _ Ei) as (Ht & Hc & _).
      apply learn_iteration_inv in Ei as (ls & r0 & evals & Et & _ & _ & _ & Hfile).
      intros E. pose proof (learn_loop_final_step _ _ _ _ _ _ _ _ _ _ E) as [HF _].
      pose proof (IH _ _ _ _ E) as IHE.
      set (k := (log_interval lc * (train_step s' / log_interval lc))%Z) in *.
      assert (Hk : (k <= train_step s')%Z) by (apply last_multiple_le, HL).
      destruct (Z.ltb_spec (train_step s1) k) as [Hlt1|Hge1].
      * destruct (Z.ltb_spec (train_step s) k); [|lia].
        destruct IHE as (sk & Ef & Hsk & Hcsk & Hlast).
        exists sk. repeat split; try assumption. congruence.
      * subst file'.
        destruct (Z.eqb_spec (train_step s1 mod log_interval lc) 0) as [Hm|Hm].
        -- destruct Hfile as [-> _].
           assert (Hs1 : train_step s1 = k).
           { pose proof (last_multiple_ge (log_interval lc) (train_step s1) (train_step s') HL).
             unfold k in *. lia. }
           destruct (Z.ltb_spec (train_step s) k); [|lia].
           exists s1. repeat split; try assumption.
           intros Hs'. rewrite learn_loop_done in E by lia. congruence.
        -- destruct Hfile as [-> _].
           destruct (Z.ltb_spec (train_step s) k) as [Hlt0|Hge0]; [|reflexivity].
           exfalso. assert (Hs1 : train_step s1 = k) by lia.
           apply Hm. rewrite Hs1. apply last_multiple_mod, HL.
    + intros E. injection E as <- <- <- <-.
      pose proof (last_multiple_le (log_interval lc) (train_step s) HL).
      destruct (Z.ltb_spec (train_step s)
                  (log_interval lc * (train_step s / log_interval lc))); [lia|reflexivity].
Qed.

Lemma train_step_succ (s s' : AgentL) (ls : Losses) (r r' : Rng) :
  trainL s r = Ok (ls, s', r') ->
  train_step s' = (train_step s + 1)%Z /\ cfg s' = cfg s /\
  alpha_prime_param s' = alpha_prime_param s.
Proof.
  intros Et.
  destruct (train_inv policy_net sample_multiple_without_squash q_net cvae_loss_function
              decode_multiple_without_squash adam_policy adam_q adam_cvae adam_scalar
              soft_target_update buffer_sample s s' ls r r' Et)
    as (? & ? & ? & ? & ? & ? & ? & _ & _ & _ & _ & Hp & Hc & Ht).
  repeat split; assumption.
Qed.

(** X17: an [eval_freq] or a [log_interval] of 0 makes the first
    iteration of [learn] raise ZeroDivisionError, after [train] has run: no
    checkpoint is written, and with log_interval = 0 an evaluation that was
    due at that step has been logged before.  If the agent is already at
    max_train_step no iteration runs and [learn] returns. *)
Theorem learn_modulo_by_zero (fuel : nat) (lc : LearnConfig) (s s1 : AgentL)
    (file : option CkptL) (log : list LogEvent) (ls : Losses) (r r1 : Rng) :
  resume lc = false ->
  trainL s r = Ok (ls, s1, r1) ->
  ((max_train_step lc <= train_step s)%Z ->
   learnL fuel lc s file log r = Some (Returns s r, del_all_files_in_dir file, log)) /\
  ((train_step s < max_train_step lc)%Z -> eval_freq lc = 0%Z ->
   learnL (S fuel) lc s file log r
   = Some (Raises (Rng:=Rng) ZeroDivisionError, del_all_files_in_dir file, log)) /\
  ((train_step s < max_train_step lc)%Z -> log_interval lc = 0%Z ->
   eval_freq lc <> 0%Z -> ((train_step s + 1) mod eval_freq lc <> 0)%Z ->
   learnL (S fuel) lc s file log r
   = Some (Raises (Rng:=Rng) ZeroDivisionError, del_all_files_in_dir file, log)) /\
  ((train_step s < max_train_step lc)%Z -> log_interval lc = 0%Z ->
   eval_freq lc <> 0%Z -> ((train_step s + 1) mod eval_freq lc = 0)%Z ->
   forall avg_reward avg_length r2,
     evaluate s1 5%nat r1 = Ok (avg_reward, avg_length, r2) ->
     learnL (S fuel) lc s file log r
     = Some (Raises (Rng:=Rng) ZeroDivisionError, del_all_files_in_dir file,
             log ++ [EvalData avg_length avg_reward (train_step s + 1)])).
Proof.
  intros Hres Et. pose proof (train_step_succ s s1 ls r r1 Et) as (Hs1 & _).
  unfold learn. rewrite Hres. split; [|split; [|split]].
  - intros Hge. apply learn_loop_done, Hge.
  - intros Hlt Hev. simpl.
    destruct (Z.ltb_spec (train_step s) (max_train_step lc)); [|lia].
    unfold learn_iteration. rewrite Et, Hev. reflexivity.
  - intros Hlt Hlog Hev Hmod. simpl.
    destruct (Z.ltb_spec (train_step s) (max_train_step lc)); [|lia].
    unfold learn_iteration. rewrite Et, Hs1. unfold py_mod.
    destruct (Z.eqb_spec (eval_freq lc) 0); [contradiction|].
    destruct (Z.eqb_spec ((train_step s + 1) mod eval_freq lc) 0); [contradiction|].
    rewrite Hlog. reflexivity.
  - intros Hlt Hlog Hev Hmod rew len r2 Eev. simpl.
    destruct (Z.ltb_spec (train_step s) (max_train_step lc)); [|lia].
    unfold learn_iteration. rewrite Et, Hs1. unfold py_mod.
    destruct (Z.eqb_spec (eval_freq lc) 0); [contradiction|].
    destruct (Z.eqb_spec ((train_step s + 1) mod eval_freq lc) 0); [|contradiction].
    rewrite Eev, Hlog. reflexivity.
Qed.

(** What [train] does to the two scalar tensors when their optimizers hold
    other tensors. *)
Lemma train_frozen (s s' : AgentL) (ls : Losses) (r r' : Rng) :
  alpha_prime_param s = Replaced ->
  (forall t, alpha_tuning s = Some t -> alpha_param t = Replaced) ->
  trainL s r = Ok (ls, s', r') ->
  data (log_alpha_prime s') = clamp (-5) 10 (data (log_alpha_prime s)) /\
  alpha_prime_optimizer s' = alpha_prime_optimizer s /\
  alpha_prime_param s' = Replaced /\
  option_map log_alpha (alpha_tuning s') = option_map log_alpha (alpha_tuning s) /\
  option_map alpha_optimizer (alpha_tuning s') = option_map alpha_optimizer (alpha_tuning s) /\
  (forall t, alpha_tuning s' = Some t -> alpha_param t = Replaced).
Proof.
  intros Hp Ht Etr.
  destruct (train_unfold _ _ _ _ _ _ _ _ _ _ _ s s' ls r r' Etr)
    as (b & r1 & cl & r2 & tq & r3 & l1 & l2 & mmd & r4 & apl & pg & lap & out & pl & al &
        _ & _ & _ & _ & _ & _ & _ & Eap & _ & _ & _ & Eau & Etun & _ & _ & _ & _ & _ & _ &
        Hp' & _ & _).
  unfold alpha_prime_update in Eap.
  destruct (alpha_prime_loss_of _ _ _) as [a|]; [|discriminate]. simpl in Eap.
  rewrite Hp in Eap. simpl in Eap. injection Eap as _ _ Eopt Elap.
  apply (f_equal (fun x => data (snd x))) in Eau. simpl in Eau.
  split; [rewrite <- Eau, <- Elap; reflexivity|].
  split; [symmetry; exact Eopt|]. split; [congruence|].
  destruct (alpha_tuning s) as [t|].
  - destruct Etun as (a_loss & t' & Eat & _ & _ & ->).
    unfold alpha_update in Eat. destruct (alpha_loss_of t out); [|discriminate].
    simpl in Eat. rewrite (Ht t eq_refl) in Eat. injection Eat as _ <-.
    simpl. repeat split. intros t0 E0. injection E0 as <-. reflexivity.
  - destruct Etun as (_ & _ & ->). repeat split. intros t0 E0. discriminate.
Qed.

Lemma learn_loop_frozen (fuel : nat) (lc : LearnConfig) (s s' : AgentL)
    (file file' : option CkptL) (log log' : list LogEvent) (r r' : Rng) :
  alpha_prime_param s = Replaced ->
  (forall t, alpha_tuning s = Some t -> alpha_param t = Replaced) ->
  learn_loopL fuel lc s file log r = Some (Returns s' r', file', log') ->
  data (log_alpha_prime s')
  = (if (train_step s <? max_train_step lc)%Z
     then clamp (-5) 10 (data (log_alpha_prime s)) else data (log_alpha_prime s)) /\
  alpha_prime_optimizer s' = alpha_prime_optimizer s /\
  option_map log_alpha (alpha_tuning s') = option_map log_alpha (alpha_tuning s) /\
  option_map alpha_optimizer (alpha_tuning s') = option_map alpha_optimizer (alpha_tuning s).
Proof.
  revert s file log r. induction fuel as [|fuel IH]; intros s file log r Hp Ht; simpl.
  - destruct (train_step s <? max_train_step lc)%Z; [discriminate|].
    intros E. injection E as <- <- <- <-. repeat split.
  - destruct (train_step s <? max_train_step lc)%Z.
    + destruct (learn_iterationL lc s file log r) as [[[s1 r1|e] file1] log1] eqn:Ei;
        [|discriminate].
      apply learn_iteration_inv in Ei as (ls & r0 & evals & Et & _).
      destruct (train_frozen s s1 ls r r0 Hp Ht Et) as (Hd & Ho & Hp1 & Hla & Hao & Ht1).
      intros E. destruct (IH s1 file1 log1 r1 Hp1 Ht1 E) as (Hd' & Ho' & Hla' & Hao').
      split; [|repeat split; congruence].
      rewrite Hd', Hd. destruct (train_step s1 <? max_train_step lc)%Z; [|reflexivity].
      apply clamp_idempotent. lra.
    + intros E. injection E as <- <- <- <-. repeat split.
Qed.

(** X18: after a resume, training no longer tunes log_alpha_prime and
    log_alpha.  The load rebinds both attributes to the loaded tensors while
    their optimizers keep the tensors they were built with.  When [learn]
    returns, log_alpha_prime has the record's value, clamped to [-5, 10] if
    an iteration ran, and its optimizer the record's state; log_alpha and
    its optimizer state, if present, are the record's. *)
Theorem resumed_multipliers_are_frozen (fuel : nat) (lc : LearnConfig) (s s' : AgentL)
    (c : CkptL) (file' : option CkptL) (log log' : list LogEvent) (r r' : Rng) :
  resume lc = true ->
  learnL fuel lc s (Some c) log r = Some (Returns s' r', file', log') ->
  exists lap k,
    get_tensor c "log_alpha_prime" = Ok lap /\
    get_int c "train_step" = Ok k /\
    train_step s' = Z.max k (max_train_step lc) /\
    data (log_alpha_prime s')
    = (if (k <? max_train_step lc)%Z then clamp (-5) 10 lap else lap) /\
    get_optim c "alpha_prime_optimizer" = Ok (alpha_prime_optimizer s') /\
    forall t', alpha_tuning s' = Some t' ->
               get_tensor c "log_alpha" = Ok (log_alpha t') /\
               get_optim c "alpha_optimizer" = Ok (alpha_optimizer t').
Proof.
  intros Hres. unfold learn. rewrite Hres.
  destruct (load_agent_checkpoint s c) as [s1|e] eqn:El; [|discriminate].
  intros E. apply load_inv in El.
  destruct El as (_ & _ & _ & _ & _ & _ & Hstep & Hlap & Hopt & Htun & _ & _ & _ & _ & Hp & _).
  assert (Ht : forall t, alpha_tuning s1 = Some t -> alpha_param t = Replaced).
  { intros t Et. destruct (alpha_tuning s) as [t0|].
    - destruct Htun as (la & ao & _ & _ & Et'). rewrite Et' in Et. injection Et as <-.
      reflexivity.
    - rewrite Htun in Et. discriminate. }
  destruct (learn_loop_frozen fuel lc s1 s' (Some c) file' log log' r r' Hp Ht E)
    as (Hd & Ho & Hla & Hao).
  destruct (learn_loop_final_step fuel lc s1 s' (Some c) file' log log' r r' E) as [Hfin _].
  exists (data (log_alpha_prime s1)), (train_step s1).
  split; [exact Hlap|]. split; [exact Hstep|]. split; [exact Hfin|]. split; [exact Hd|].
  split; [rewrite Ho; exact Hopt|].
  intros t' Et'. rewrite Et' in Hla, Hao.
  destruct (alpha_tuning s) as [t0|].
  - destruct Htun as (la & ao & Gla & Gao & Et1). rewrite Et1 in Hla, Hao.
    simpl in Hla, Hao. injection Hla as ->. injection Hao as ->. split; assumption.
  - rewrite Htun in Hla. discriminate.
Qed.

(** X19: without [resume] and with a positive [log_interval], when
    [learn] returns at step T the checkpoint file holds the record saved at
    the last multiple of log_interval up to T, if the run passed one: its
    train_step is that multiple, and it is the record of the returned agent
    only if T is that multiple.  Otherwise the file is as the deletion at
    the start left it. *)
Theorem checkpoint_holds_last_logged_step (fuel : nat) (lc : LearnConfig) (s s' : AgentL)
    (file file' : option CkptL) (log log' : list LogEvent) (r r' : Rng) :
  resume lc = false -> (0 < log_interval lc)%Z ->
  learnL fuel lc s file log r = Some (Returns s' r', file', log') ->
  let last := (log_interval lc * (train_step s' / log_interval lc))%Z in
  (last <= train_step s' < last + log_interval lc)%Z /\
  (if (train_step s <? last)%Z
   then exists sk, file' = Some (store_agent_checkpoint sk) /\
                   train_step sk = last /\ cfg sk = cfg s /\
                   get_int (store_agent_checkpoint sk) "train_step" = Ok last /\
                   (train_step s' = last -> sk = s')
   else file' = del_all_files_in_dir file).
Proof.
  intros Hres HL E last. unfold learn in E. rewrite Hres in E. split.
  - unfold last. pose proof (Z.mul_succ_div_gt (train_step s') (log_interval lc) HL).
    pose proof (last_multiple_le (log_interval lc) (train_step s') HL). lia.
  - pose proof (learn_loop_checkpoint fuel lc s s' _ file' log log' r r' HL E) as Hc.
    fold last in Hc. destruct (train_step s <? last)%Z; [|exact Hc].
    destruct Hc as (sk & Ef & Hk & Hcfg & Hlast).
    exists sk. repeat split; try assumption.
    + rewrite store_train_step, Hk. reflexivity.
    + intros Hs'. apply Hlast. congruence.
Qed.

(** X20: with [resume], [learn] raises FileNotFoundError when there is
    no checkpoint file, and raises what the load raises when the record
    cannot be loaded, without training.  Otherwise training goes on from
    the record's train_step: an agent already at max_train_step is returned
    as loaded, and with max_train_step - train_step iterations [learn] ends,
    at step max_train_step when it returns. *)
Theorem learn_resumes_at_the_saved_step (fuel : nat) (lc : LearnConfig) (s : AgentL)
    (c : CkptL) (log : list LogEvent) (r : Rng) :
  resume lc = true ->
  learnL fuel lc s None log r = Some (Raises (Rng:=Rng) FileNotFoundError, None, log) /\
  match load_agent_checkpoint s c with
  | Err e => learnL fuel lc s (Some c) log r = Some (Raises (Rng:=Rng) (Raised e), Some c, log)
  | Ok s1 =>
      get_int c "train_step" = Ok (train_step s1) /\
      ((max_train_step lc <= train_step s1)%Z ->
       learnL fuel lc s (Some c) log r = Some (Returns s1 r, Some c, log)) /\
      ((Z.to_nat (max_train_step lc - train_step s1) <= fuel)%nat ->
       exists ending file' log',
         learnL fuel lc s (Some c) log r = Some (ending, file', log') /\
         forall s' r', ending = Returns s' r' ->
                       train_step s' = Z.max (train_step s1) (max_train_step lc) /\
                       cfg s' = cfg s)
  end.
Proof.
  intros Hres. unfold learn. rewrite Hres. split; [reflexivity|].
  destruct (load_agent_checkpoint s c) as [s1|e] eqn:El; [|reflexivity].
  apply load_inv in El.
  destruct El as (_ & _ & _ & _ & _ & _ & Hstep & _ & _ & _ & _ & Hcfg & _).
  split; [exact Hstep|]. split.
  - intros Hge. apply learn_loop_done, Hge.
  - intros Hfuel.
    destruct (learn_loop_fuel fuel lc s1 (Some c) log r Hfuel) as (e & f & l & E & Hend).
    exists e, f, l. split; [exact E|]. intros s' r' Es.
    destruct (Hend s' r' Es) as [Ht Hc]. split; [exact Ht|congruence].
Qed.

(** What the loop hands to the tensorboard writer. *)
Lemma learn_loop_log (fuel : nat) (lc : LearnConfig) (s s' : AgentL)
    (file file' : option CkptL) (log log' : list LogEvent) (r r' : Rng) :
  learn_loopL fuel lc s file log r = Some (Returns s' r', file', log') ->
  exists new,
    log' = log ++ new /\
    Forall (fun e => match e with
                     | EvalData _ _ k =>
                         (train_step s < k <= train_step s')%Z /\ (k mod eval_freq lc = 0)%Z
                     | TrainData _ k =>
                         (train_step s < k <= train_step s')%Z /\ (k mod log_interval lc = 0)%Z
                     end) new.
Proof.
  revert s file log r. induction fuel as [|fuel IH]; intros s file log r; simpl.
  - destruct (train_step s <? max_train_step lc)%Z; [discriminate|].
    intros E. injection E as <- <- <- <-. exists []. split; [rewrite app_nil_r; reflexivity|].
    constructor.
  - destruct (train_step s <? max_train_step lc)%Z.
    + destruct (learn_iterationL lc s file log r) as [[[s1 r1|e] file1] log1] eqn:Ei;
        [|discriminate].
      pose proof (learn_iteration_step _ _ _ _ _ _ _ _ _ Ei) as (Ht & _).
      apply learn_iteration_inv in Ei as (ls & r0 & evals & Et & _ & _ & Hev & Hlog).
      intros E. pose proof (learn_loop_final_step _ _ _ _ _ _ _ _ _ _ E) as [HF _].
      destruct (IH _ _ _ _ E) as (new & -> & Hnew).
      assert (Hle : (train_step s1 <= train_step s')%Z) by lia.
      assert (Hevals : Forall (fun e => match e with
                     | EvalData _ _ k =>
                         (train_step s < k <= train_step s')%Z /\ (k mod eval_freq lc = 0)%Z
                     | TrainData _ k =>
                         (train_step s < k <= train_step s')%Z /\ (k mod log_interval lc = 0)%Z
                     end) evals).
      { destruct (Z.eqb_spec (train_step s1 mod eval_freq lc) 0) as [Hm|Hm].
        - destruct Hev as (rew & len & _ & ->). repeat constructor; [lia|lia|exact Hm].
        - destruct Hev as [_ ->]. constructor. }
      assert (Hnew' : Forall (fun e => match e with
                     | EvalData _ _ k =>
                         (train_step s < k <= train_step s')%Z /\ (k mod eval_freq lc = 0)%Z
                     | TrainData _ k =>
                         (train_step s < k <= train_step s')%Z /\ (k mod log_interval lc = 0)%Z
                     end) new).
      { eapply Forall_impl; [exact Hnew|]. intros [? ? k|? k]; simpl; intros [? ?];
          (split; [lia|assumption]). }
      destruct (Z.eqb_spec (train_step s1 mod log_interval lc) 0) as [Hm|Hm].
      * destruct Hlog as [_ ->].
        exists (evals ++ [TrainData ls (train_step s1)] ++ new).
        split; [rewrite <- !app_assoc; reflexivity|].
        apply Forall_app. split; [exact Hevals|].
        constructor; [|exact Hnew']. split; [lia|exact Hm].
      * destruct Hlog as [_ ->]. exists (evals ++ new).
        split; [rewrite <- !app_assoc; reflexivity|].
        apply Forall_app. split; assumption.
    + intros E. injection E as <- <- <- <-. exists []. split; [rewrite app_nil_r; reflexivity|].
      constructor.
Qed.

(** X21: [learn] only appends to the log.  Every evaluation entry it
    adds is logged at a step that is a multiple of eval_freq, every training
    entry at a multiple of log_interval, and all at steps after the initial
    and up to the final step counter. *)
Theorem learn_logs_at_multiples_only (fuel : nat) (lc : LearnConfig) (s s' : AgentL)
    (file file' : option CkptL) (log log' : list LogEvent) (r r' : Rng) :
  resume lc = false ->
  learnL fuel lc s file log r = Some (Returns s' r', file', log') ->
  exists new,
    log' = log ++ new /\
    Forall (fun e => match e with
                     | EvalData _ _ k =>
                         (train_step s < k <= train_step s')%Z /\ (k mod eval_freq lc = 0)%Z
                     | TrainData _ k =>
                         (train_step s < k <= train_step s')%Z /\ (k mod log_interval lc = 0)%Z
                     end) new.
Proof.
  intros Hres. unfold learn. rewrite Hres. apply learn_loop_log.
Qed.

Section LearnDomain.
Variable action_dim : nat.
Hypothesis decode_shape : forall c o n r,
  length (fst (decode_multiple_without_squash c o n r)) = n /\
  Forall (fun v => length v = action_dim) (fst (decode_multiple_without_squash c o n r)).
Hypothesis sample_shape : forall p o n r,
  length (fst (sample_multiple_without_squash p o n r)) = n /\
  Forall (fun v => length v = action_dim) (fst (sample_multiple_without_squash p o n r)).
Hypothesis buffer_shape : forall r,
  batch_ok (fst (buffer_sample r)) /\
  length (acts (fst (buffer_sample r))) = length (obs (fst (buffer_sample r))) /\
  obs (fst (buffer_sample r)) <> [].
Hypothesis evaluate_returns : forall s n r, exists x, evaluate s n r = Ok x.

Lemma learn_loop_ok (fuel : nat) (lc : LearnConfig) (s : AgentL) (file : option CkptL)
    (log : list LogEvent) (r : Rng) :
  n_target_samples (cfg s) = 10%nat -> 0 < mmd_sigma (cfg s) ->
  (0 < n_mmd_action_samples (cfg s))%nat ->
  eval_freq lc <> 0%Z -> log_interval lc <> 0%Z ->
  (Z.to_nat (max_train_step lc - train_step s) <= fuel)%nat ->
  exists s' r' file' log',
    learn_loopL fuel lc s file log r = Some (Returns s' r', file', log').
Proof.
  intros Hn Hs Hm Hev Hlog. revert s file log r Hn Hs Hm.
  induction fuel as [|fuel IH]; intros s file log r Hn Hs Hm Hfuel; simpl.
  - destruct (Z.ltb_spec (train_step s) (max_train_step lc)); [lia|].
    do 4 eexists. reflexivity.
  - destruct (Z.ltb_spec (train_step s) (max_train_step lc)); [|do 4 eexists; reflexivity].
    destruct (train_ok policy_net sample_multiple_without_squash q_net cvae_loss_function
                decode_multiple_without_squash adam_policy adam_q adam_cvae adam_scalar
                soft_target_update buffer_sample action_dim decode_shape sample_shape
                buffer_shape s r Hn Hs Hm) as (ls & s1 & r1 & Et).
    pose proof (train_step_succ s s1 ls r r1 Et) as (Ht & Hc & _).
    unfold learn_iteration. rewrite Et. unfold py_mod.
    destruct (Z.eqb_spec (eval_freq lc) 0); [contradiction|].
    destruct (Z.eqb_spec (log_interval lc) 0); [contradiction|].
    assert (Hnext : forall file1 log1 r2,
               exists s' r' file' log',
                 learn_loopL fuel lc s1 file1 log1 r2 = Some (Returns s' r', file', log')).
    { intros. apply IH; [rewrite Hc; assumption..|lia]. }
    destruct (train_step s1 mod eval_freq lc =? 0)%Z.
    + destruct (evaluate_returns s1 5%nat r1) as [[[rew len] r2] Eev]. rewrite Eev.
      destruct (train_step s1 mod log_interval lc =? 0)%Z; apply Hnext.
    + destruct (train_step s1 mod log_interval lc =? 0)%Z; apply Hnext.
Qed.

(** X22: on the inputs [train] is meant for, with non-zero
    [eval_freq] and [log_interval], an evaluation that returns, and no
    [resume], [learn] returns after max_train_step - train_step iterations,
    with the step counter at max_train_step (or where it stood, if
    beyond). *)
Theorem learn_returns_on_its_domain (fuel : nat) (lc : LearnConfig) (s : AgentL)
    (file : option CkptL) (log : list LogEvent) (r : Rng) :
  resume lc = false ->
  n_target_samples (cfg s) = 10%nat -> 0 < mmd_sigma (cfg s) ->
  (0 < n_mmd_action_samples (cfg s))%nat ->
  eval_freq lc <> 0%Z -> log_interval lc <> 0%Z ->
  (Z.to_nat (max_train_step lc - train_step s) <= fuel)%nat ->
  exists s' r' file' log',
    learnL fuel lc s file log r = Some (Returns s' r', file', log') /\
    train_step s' = Z.max (train_step s) (max_train_step lc).
Proof.
  intros Hres Hn Hs Hm Hev Hlog Hfuel. unfold learn. rewrite Hres.
  destruct (learn_loop_ok fuel lc s (del_all_files_in_dir file) log r Hn Hs Hm Hev Hlog Hfuel)
    as (s' & r' & file' & log' & E).
  exists s', r', file', log'. split; [exact E|].
  apply (learn_loop_final_step _ _ _ _ _ _ _ _ _ _ E).
Qed.
End LearnDomain.
End LearnProps.

(** *** The toy instance lies in the domain *)

Lemma toy_decode_shape (c o : R) (n r : nat) :
  length (fst (Toy.decode_multiple_without_squash c o n r)) = n /\
  Forall (fun v => length v = 1%nat) (fst (Toy.decode_multiple_without_squash c o n r)).
Proof.
  simpl. split; [apply repeat_length|]. apply Forall_forall. intros v Hv.
  apply list_elem_of_In, repeat_spec in Hv. subst. reflexivity.
Qed.

Lemma toy_sample_shape (p o : R) (n r : nat) :
  length (fst (Toy.sample_multiple_without_squash p o n r)) = n /\
  Forall (fun v => length v = 1%nat) (fst (Toy.sample_multiple_without_squash p o n r)).
Proof.
  simpl. split; [apply repeat_length|]. apply Forall_forall. intros v Hv.
  apply list_elem_of_In, repeat_spec in Hv. subst. reflexivity.
Qed.

Lemma toy_buffer_shape (r : nat) :
  batch_ok (fst (Toy.buffer_sample r)) /\
  length (acts (fst (Toy.buffer_sample r))) = length (obs (fst (Toy.buffer_sample r))) /\
  obs (fst (Toy.buffer_sample r)) <> [].
Proof. simpl. repeat split. discriminate. Qed.

Lemma toy_evaluate_returns (s : @Agent R R R unit R) (n r : nat) :
  exists x, ToyLearn.evaluate s n r = Ok x.
Proof. eexists. reflexivity. Qed.

Lemma toy_sigma : 0 < mmd_sigma (Toy.config 10).
Proof. simpl. lra. Qed.

Lemma toy_train_returns (s : @Agent R R R unit R) (r : nat) :
  cfg s = Toy.config 10 -> exists ls s' r', Toy.train s r = Ok (ls, s', r').
Proof.
  intros Hc.
  assert (Hn : n_target_samples (cfg s) = 10%nat) by (rewrite Hc; reflexivity).
  assert (Hs : 0 < mmd_sigma (cfg s)) by (rewrite Hc; exact toy_sigma).
  assert (Hm : (0 < n_mmd_action_samples (cfg s))%nat) by (rewrite Hc; apply Nat.lt_0_1).
  exact (train_ok Toy.policy_net Toy.sample_multiple_without_squash Toy.q_net
           Toy.cvae_loss_function Toy.decode_multiple_without_squash Toy.sgd Toy.sgd Toy.sgd
           Toy.sgd Toy.soft_target_update Toy.buffer_sample 1%nat toy_decode_shape
           toy_sample_shape toy_buffer_shape s r Hn Hs Hm).
Qed.

Lemma toy_learn_loop_returns (fuel : nat) (lc : LearnConfig) (s : @Agent R R R unit R)
    (file : option (gmap string (@CkptVal R R unit))) (log : list LogEvent) (r : nat) :
  cfg s = Toy.config 10 -> eval_freq lc <> 0%Z -> log_interval lc <> 0%Z ->
  (Z.to_nat (max_train_step lc - train_step s) <= fuel)%nat ->
  exists s' r' file' log',
    learn_loop Toy.policy_net Toy.sample_multiple_without_squash Toy.q_net
      Toy.cvae_loss_function Toy.decode_multiple_without_squash Toy.sgd Toy.sgd Toy.sgd
      Toy.sgd Toy.soft_target_update Toy.buffer_sample ToyLearn.evaluate
      fuel lc s file log r
    = Some (Returns s' r', file', log').
Proof.
  intros Hc Hev Hlog Hfuel.
  assert (Hn : n_target_samples (cfg s) = 10%nat) by (rewrite Hc; reflexivity).
  assert (Hs : 0 < mmd_sigma (cfg s)) by (rewrite Hc; exact toy_sigma).
  assert (Hm : (0 < n_mmd_action_samples (cfg s))%nat) by (rewrite Hc; apply Nat.lt_0_1).
  exact (learn_loop_ok Toy.policy_net Toy.sample_multiple_without_squash Toy.q_net
           Toy.cvae_loss_function Toy.decode_multiple_without_squash Toy.sgd Toy.sgd Toy.sgd
           Toy.sgd Toy.soft_target_update Toy.buffer_sample ToyLearn.evaluate 1%nat
           toy_decode_shape toy_sample_shape toy_buffer_shape toy_evaluate_returns
           fuel lc s file log r Hn Hs Hm Hev Hlog Hfuel).
Qed.

Lemma toy_train_n_returns (n : nat) (s : @Agent R R R unit R) (r : nat) :
  cfg s = Toy.config 10 -> exists s' r', Toy.train_n n s r = Ok (s', r').
Proof.
  intros Hc.
  assert (Hn : n_target_samples (cfg s) = 10%nat) by (rewrite Hc; reflexivity).
  assert (Hs : 0 < mmd_sigma (cfg s)) by (rewrite Hc; exact toy_sigma).
  assert (Hm : (0 < n_mmd_action_samples (cfg s))%nat) by (rewrite Hc; apply Nat.lt_0_1).
  destruct (train_n_ok Toy.policy_net Toy.sample_multiple_without_squash Toy.q_net
              Toy.cvae_loss_function Toy.decode_multiple_without_squash Toy.sgd Toy.sgd Toy.sgd
              Toy.sgd Toy.soft_target_update Toy.buffer_sample 1%nat toy_decode_shape
              toy_sample_shape toy_buffer_shape n s r Hn Hs Hm) as (s' & r' & E & _).
  exists s', r'. exact E.
Qed.

Lemma toy_batch_ok : batch_ok Toy.batch.
Proof. repeat split. Qed.

Lemma toy_critic_target_returns (s : @Agent R R R unit R) (b : Batch R) (r : nat) :
  cfg s = Toy.config 10 -> batch_ok b ->
  exists t r', Toy.critic_target s b r = Ok (t, r').
Proof.
  intros Hc Hb.
  assert (Hn : n_target_samples (cfg s) = 10%nat) by (rewrite Hc; reflexivity).
  destruct (critic_target_ok Toy.policy_net Toy.q_net s b r Hn Hb) as [[t r'] E].
  exists t, r'. exact E.
Qed.

Lemma toy_learn_returns (fuel : nat) (lc : LearnConfig) (s : @Agent R R R unit R)
    (file : option (gmap string (@CkptVal R R unit))) (log : list LogEvent) (r : nat) :
  resume lc = false -> cfg s = Toy.config 10 ->
  eval_freq lc <> 0%Z -> log_interval lc <> 0%Z ->
  (Z.to_nat (max_train_step lc - train_step s) <= fuel)%nat ->
  exists s' r' file' log',
    ToyLearn.learn fuel lc s file log r = Some (Returns s' r', file', log').
Proof.
  intros Hres Hc Hev Hlog Hfuel. unfold ToyLearn.learn, learn. rewrite Hres.
  exact (toy_learn_loop_returns fuel lc s (ToyLearn.del_all_files_in_dir file) log r
           Hc Hev Hlog Hfuel).
Qed.

Lemma toy_learn_resumes (fuel : nat) (lc : LearnConfig) (s s1 : @Agent R R R unit R)
    (c : gmap string (@CkptVal R R unit)) (log : list LogEvent) (r : nat) :
  resume lc = true -> load_agent_checkpoint s c = Ok s1 -> cfg s = Toy.config 10 ->
  eval_freq lc <> 0%Z -> log_interval lc <> 0%Z ->
  (Z.to_nat (max_train_step lc - train_step s1) <= fuel)%nat ->
  exists s' r' file' log',
    ToyLearn.learn fuel lc s (Some c) log r = Some (Returns s' r', file', log').
Proof.
  intros Hres El Hc Hev Hlog Hfuel. unfold ToyLearn.learn, learn. rewrite Hres, El.
  apply toy_learn_loop_returns; try assumption.
  apply load_inv in El. destruct El as (_ & _ & _ & _ & _ & _ & _ & _ & _ & _ & _ & Hc1 & _).
  rewrite Hc1. exact Hc.
Qed.

(** The record of the trained toy agent, loaded by the fresh one. *)
Lemma toy_resume_loads :
  exists s1, load_agent_checkpoint (Toy.agent 10) (store_agent_checkpoint Toy.trained_agent)
             = Ok s1 /\ train_step s1 = 4%Z.
Proof.
  destruct (load_store Toy.trained_agent (Toy.agent 10) eq_refl)
    as (s1 & E & (_ & _ & _ & _ & _ & _ & Hstep & _) & _).
  exists s1. split; [exact E|exact Hstep].
Qed.

(** One call of [train] on the toy agent [__init__] builds, at step 0 of a
    warm-up of 1, and one on the trained toy agent, at step 4. *)
Lemma warmup_gates_policy_loss_witness :
  (exists ls s' r',
    Toy.train (Toy.agent 10) 0%nat = Ok (ls, s', r') /\
    (train_step (Toy.agent 10) <= warmup_step (cfg (Toy.agent 10)))%Z /\
    exists (b : Batch R) (r1 r3 r4 : nat) (mmd_loss : list (dual R)) (lap : leaf)
           (out : list (PolicyOut R)) (p_loss : dual R) (penalty : dual (R * R)),
      Toy.buffer_sample 0%nat = (b, r1) /\
      mmd_of Toy.sample_multiple_without_squash Toy.decode_multiple_without_squash
        (Toy.agent 10) (cvae_net s') b r3
      = Ok (mmd_loss, r4) /\
      policy_forward Toy.policy_net (policy_params (Toy.agent 10)) (obs b) r4 = Ok (out, r') /\
      data lap = data (log_alpha_prime s') /\
      bear_actor_loss (data lap) mmd_loss = Ok penalty /\
      val penalty = exp (data lap) * mean_val mmd_loss /\
      fst (grad penalty)
      = vscale (/ INR (length mmd_loss))
          (foldr vadd vzero
             (map (fun d => vadd (vscale (val d) (vscale (exp (data lap)) vzero))
                                 (vscale (exp (data lap)) (grad d))) mmd_loss)) /\
      policy_loss_of Toy.q_net (alpha (Toy.agent 10)) (q_net1 s') (q_net2 s') (obs b) out
      = Ok p_loss /\
      policy_loss ls = val p_loss /\
      val p_loss
      = Rsum (zip_with (fun x p =>
                          alpha (Toy.agent 10) * val (log_prob p)
                          - Rmin (val (q_through Toy.q_net (q_net1 s') x (action p)))
                                 (val (q_through Toy.q_net (q_net2 s') x (action p))))
                (obs b) out)
        / INR (length (obs b)) /\
      grad p_loss
      = vscale (/ INR (length (obs b)))
          (foldr vadd vzero
             (zip_with (fun x p =>
                          vadd (vscale (alpha (Toy.agent 10)) (grad (log_prob p)))
                               (vscale (-1)
                                  (grad (tmin (q_through Toy.q_net (q_net1 s') x (action p))
                                              (q_through Toy.q_net (q_net2 s') x (action p))))))
                (obs b) out)) /\
      ((train_step (Toy.agent 10) <= warmup_step (cfg (Toy.agent 10)))%Z ->
         policy_grad s' = Some (fst (grad penalty)) /\
         (policy_optimizer s', policy_params s')
         = Toy.sgd (policy_optimizer (Toy.agent 10)) (policy_params (Toy.agent 10)) (fst (grad penalty))) /\
      ((train_step (Toy.agent 10) > warmup_step (cfg (Toy.agent 10)))%Z ->
         policy_grad s' = Some (vadd (grad p_loss) (fst (grad penalty))) /\
         (policy_optimizer s', policy_params s')
         = Toy.sgd (policy_optimizer (Toy.agent 10)) (policy_params (Toy.agent 10))
             (vadd (grad p_loss) (fst (grad penalty))))) /\
  (exists ls s' r',
    Toy.train Toy.trained_agent 0%nat = Ok (ls, s', r') /\
    (train_step Toy.trained_agent > warmup_step (cfg Toy.trained_agent))%Z /\
    exists (b : Batch R) (r1 r3 r4 : nat) (mmd_loss : list (dual R)) (lap : leaf)
           (out : list (PolicyOut R)) (p_loss : dual R) (penalty : dual (R * R)),
      Toy.buffer_sample 0%nat = (b, r1) /\
      mmd_of Toy.sample_multiple_without_squash Toy.decode_multiple_without_squash
        Toy.trained_agent (cvae_net s') b r3
      = Ok (mmd_loss, r4) /\
      policy_forward Toy.policy_net (policy_params Toy.trained_agent) (obs b) r4 = Ok (out, r') /\
      data lap = data (log_alpha_prime s') /\
      bear_actor_loss (data lap) mmd_loss = Ok penalty /\
      val penalty = exp (data lap) * mean_val mmd_loss /\
      fst (grad penalty)
      = vscale (/ INR (length mmd_loss))
          (foldr vadd vzero
             (map (fun d => vadd (vscale (val d) (vscale (exp (data lap)) vzero))
                                 (vscale (exp (data lap)) (grad d))) mmd_loss)) /\
      policy_loss_of Toy.q_net (alpha Toy.trained_agent) (q_net1 s') (q_net2 s') (obs b) out
      = Ok p_loss /\
      policy_loss ls = val p_loss /\
      val p_loss
      = Rsum (zip_with (fun x p =>
                          alpha Toy.trained_agent * val (log_prob p)
                          - Rmin (val (q_through Toy.q_net (q_net1 s') x (action p)))
                                 (val (q_through Toy.q_net (q_net2 s') x (action p))))
                (obs b) out)
        / INR (length (obs b)) /\
      grad p_loss
      = vscale (/ INR (length (obs b)))
          (foldr vadd vzero
             (zip_with (fun x p =>
                          vadd (vscale (alpha Toy.trained_agent) (grad (log_prob p)))
                               (vscale (-1)
                                  (grad (tmin (q_through Toy.q_net (q_net1 s') x (action p))
                                              (q_through Toy.q_net (q_net2 s') x (action p))))))
                (obs b) out)) /\
      ((train_step Toy.trained_agent <= warmup_step (cfg Toy.trained_agent))%Z ->
         policy_grad s' = Some (fst (grad penalty)) /\
         (policy_optimizer s', policy_params s')
         = Toy.sgd (policy_optimizer Toy.trained_agent) (policy_params Toy.trained_agent) (fst (grad penalty))) /\
      ((train_step Toy.trained_agent > warmup_step (cfg Toy.trained_agent))%Z ->
         policy_grad s' = Some (vadd (grad p_loss) (fst (grad penalty))) /\
         (policy_optimizer s', policy_params s')
         = Toy.sgd (policy_optimizer Toy.trained_agent) (policy_params Toy.trained_agent)
             (vadd (grad p_loss) (fst (grad penalty))))).
Proof.
  split.
  - destruct (toy_train_returns (Toy.agent 10) 0%nat eq_refl) as (ls & s' & r' & E).
    exists ls, s', r'. split; [exact E|]. split; [simpl; lia|].
    exact (warmup_gates_policy_loss Toy.policy_net Toy.sample_multiple_without_squash
             Toy.q_net Toy.cvae_loss_function Toy.decode_multiple_without_squash
             Toy.sgd Toy.sgd Toy.sgd Toy.sgd Toy.soft_target_update Toy.buffer_sample
             (Toy.agent 10) s' ls 0%nat r' E).
  - destruct (toy_train_returns Toy.trained_agent 0%nat eq_refl) as (ls & s' & r' & E).
    exists ls, s', r'. split; [exact E|]. split; [simpl; lia|].
    exact (warmup_gates_policy_loss Toy.policy_net Toy.sample_multiple_without_squash
             Toy.q_net Toy.cvae_loss_function Toy.decode_multiple_without_squash
             Toy.sgd Toy.sgd Toy.sgd Toy.sgd Toy.soft_target_update Toy.buffer_sample
             Toy.trained_agent s' ls 0%nat r' E).
Defined.

(** *** The properties above on the toy instance *)

(** The fresh toy agent loads the record of the trained one and saves
    again. *)
Lemma stored_record_survives_reload_witness :
  auto_alpha_tuning (Toy.agent 10) = auto_alpha_tuning Toy.trained_agent /\
  exists s',
    load_agent_checkpoint (Toy.agent 10) (store_agent_checkpoint Toy.trained_agent) = Ok s' /\
    store_agent_checkpoint s' = store_agent_checkpoint Toy.trained_agent.
Proof.
  split; [reflexivity|].
  exact (stored_record_survives_reload Toy.trained_agent (Toy.agent 10) eq_refl).
Defined.

(** Both estimators at sigma = 1/5 for the one-sample batches (0) and (1). *)
Lemma mmd_below_three_halves_witness :
  0 < 1 / 5 /\ (0 < 1)%nat /\ shape3 1 1 1 [[[0]]] /\ shape3 1 1 1 [[[1]]] /\
  (exists v, mmd_loss_gaussian [[[0]]] [[[1]]] (1 / 5) = Ok v /\ length v = 1%nat /\
             Forall (fun x => x < 3 / 2) v) /\
  (exists v, mmd_loss_laplacian [[[0]]] [[[1]]] (1 / 5) = Ok v /\ length v = 1%nat /\
             Forall (fun x => x < 3 / 2) v).
Proof.
  assert (Hs : 0 < 1 / 5) by lra.
  split; [exact Hs|]. split; [lia|].
  split; [exact (shape3_single [0])|]. split; [exact (shape3_single [1])|].
  exact (mmd_below_three_halves (1 / 5) [[[0]]] [[[1]]] 1 1 1 1 Hs
           (Nat.lt_0_succ 0) (Nat.lt_0_succ 0) (shape3_single [0]) (shape3_single [1])).
Defined.

(** The tracked estimators at sigma = 1/5 for the one-sample batches (0)
    and (1), each entry with derivative 1. *)
Lemma tracked_mmd_is_finite_witness :
  0 < 1 / 5 /\ (0 < 1)%nat /\
  shape3 1 1 1 [[[Dual 0 (1 : R)]]] /\ shape3 1 1 1 [[[Dual 1 (1 : R)]]] /\
  (exists v, mmd_loss_gaussian [[[Dual 0 (1 : R)]]] [[[Dual 1 (1 : R)]]] (1 / 5) = Ok v /\
             length v = 1%nat /\
             mmd_loss_gaussian (untracked [[[Dual 0 (1 : R)]]]) (untracked [[[Dual 1 (1 : R)]]])
               (1 / 5) = Ok (map val v)) /\
  (exists v, mmd_loss_laplacian [[[Dual 0 (1 : R)]]] [[[Dual 1 (1 : R)]]] (1 / 5) = Ok v /\
             length v = 1%nat /\
             mmd_loss_laplacian (untracked [[[Dual 0 (1 : R)]]]) (untracked [[[Dual 1 (1 : R)]]])
               (1 / 5) = Ok (map val v)).
Proof.
  assert (Hs : 0 < 1 / 5) by lra.
  split; [exact Hs|]. split; [lia|].
  split; [exact (shape3_single [Dual 0 (1 : R)])|].
  split; [exact (shape3_single [Dual 1 (1 : R)])|].
  exact (tracked_mmd_is_finite (G:=R) (1 / 5) [[[Dual 0 1]]] [[[Dual 1 1]]] 1 1 1 1 Hs
           (Nat.lt_0_succ 0) (Nat.lt_0_succ 0)
           (shape3_single [Dual 0 (1 : R)]) (shape3_single [Dual 1 (1 : R)])).
Defined.


(** One batch item without samples against one with the sample (0). *)
Lemma mmd_without_samples_is_not_a_number_witness :
  1 / 5 <> 0 /\ shape3 1 0 1 ([[]] : list (list (list R))) /\ shape3 1 1 1 [[[0]]] /\
  mmd_loss_gaussian [[]] [[[0]]] (1 / 5) = Err NotFinite /\
  mmd_loss_laplacian [[]] [[[0]]] (1 / 5) = Err NotFinite.
Proof.
  assert (Hs : 1 / 5 <> 0) by lra.
  assert (H0 : shape3 1 0 1 ([[]] : list (list (list R))))
    by (split; [reflexivity|repeat constructor]).
  split; [exact Hs|]. split; [exact H0|]. split; [exact (shape3_single [0])|].
  exact (mmd_without_samples_is_not_a_number (1 / 5) [[]] [[[0]]] 1 0 1 1 Hs
           (Nat.lt_0_succ 0) H0 (shape3_single [0]) (or_introl eq_refl)).
Defined.

(** The multiplier loss at log_alpha_prime = 0 for a support distance of 1
    and the threshold 1/20. *)
Lemma multiplier_gradient_is_its_loss_witness :
  exists loss : dual (R * R),
    alpha_prime_loss_of (Toy.config 10) 0 [Dual 1 1] = Ok loss /\
    val loss = - (exp 0 * (mean_val [Dual 1 (1 : R)] - lagrange_thresh (Toy.config 10))) /\
    snd (grad loss) = val loss /\
    (snd (grad loss) < 0 <-> lagrange_thresh (Toy.config 10) < mean_val [Dual 1 (1 : R)]).
Proof.
  eexists. split; [reflexivity|].
  apply (multiplier_gradient_is_its_loss (V:=R) (Toy.config 10) 0 [Dual 1 1]).
  reflexivity.
Defined.

(** The temperature loss at log_alpha = 0 with target entropy -1 for the
    output of the toy policy (log-probability 0). *)
Lemma temperature_gradient_is_the_entropy_gap_witness :
  let t := {| target_entropy := -1; log_alpha := 0; alpha_optimizer := tt;
              alpha_param := Current |} in
  let out := [fst (Toy.policy_net 0 0 0%nat)] in
  exists loss : dual R,
    alpha_loss_of t out = Ok loss /\
    grad loss
    = - (Rsum (map (fun p => val (log_prob p) + target_entropy t) out) / INR (length out)) /\
    val loss = log_alpha t * grad loss.
Proof.
  intros t out. eexists. split; [reflexivity|].
  apply (temperature_gradient_is_the_entropy_gap t out). reflexivity.
Defined.

(** One call of [train] on the toy agent [__init__] builds. *)
Lemma train_returns_on_its_domain_witness :
  n_target_samples (cfg (Toy.agent 10)) = 10%nat /\
  0 < mmd_sigma (cfg (Toy.agent 10)) /\
  (0 < n_mmd_action_samples (cfg (Toy.agent 10)))%nat /\
  exists ls s' r',
    Toy.train (Toy.agent 10) 0%nat = Ok (ls, s', r') /\
    train_step s' = (train_step (Toy.agent 10) + 1)%Z /\ cfg s' = cfg (Toy.agent 10).
Proof.
  split; [reflexivity|]. split; [exact toy_sigma|]. split; [apply Nat.lt_0_1|].
  exact (train_returns_on_its_domain Toy.policy_net Toy.sample_multiple_without_squash
           Toy.q_net Toy.cvae_loss_function Toy.decode_multiple_without_squash Toy.sgd Toy.sgd
           Toy.sgd Toy.sgd Toy.soft_target_update Toy.buffer_sample
           1%nat toy_decode_shape toy_sample_shape toy_buffer_shape (Toy.agent 10) 0%nat
           eq_refl toy_sigma Nat.lt_0_1).
Defined.

(** The critic losses of one call of [train] on the trained toy agent. *)
Lemma critic_losses_are_nonnegative_witness :
  exists ls s' r',
    Toy.train Toy.trained_agent 0%nat = Ok (ls, s', r') /\
    0 <= critic_loss1 ls /\ 0 <= critic_loss2 ls /\
    exists b target_q loss1 loss2 r1 r2,
      Toy.critic_target Toy.trained_agent b r1 = Ok (target_q, r2) /\
      critic_update Toy.q_net Toy.sgd (q_net1 Toy.trained_agent)
        (q_optimizer1 Toy.trained_agent) b target_q
      = Ok (loss1, (q_optimizer1 s', q_net1 s')) /\
      critic_update Toy.q_net Toy.sgd (q_net2 Toy.trained_agent)
        (q_optimizer2 Toy.trained_agent) b target_q
      = Ok (loss2, (q_optimizer2 s', q_net2 s')) /\
      critic_loss1 ls = val loss1 /\ critic_loss2 ls = val loss2.
Proof.
  destruct (toy_train_returns Toy.trained_agent 0%nat eq_refl) as (ls & s' & r' & E).
  exists ls, s', r'. split; [exact E|].
  exact (critic_losses_are_nonnegative Toy.policy_net Toy.sample_multiple_without_squash
           Toy.q_net Toy.cvae_loss_function Toy.decode_multiple_without_squash Toy.sgd Toy.sgd
           Toy.sgd Toy.sgd Toy.soft_target_update Toy.buffer_sample
           Toy.trained_agent s' ls 0%nat r' E).
Defined.

(** Two calls of [train] on the toy agent with automatic entropy tuning. *)
Lemma temperature_follows_log_alpha_witness :
  exists s' r',
    Toy.train_n 2 Toy.tuned_agent 0%nat = Ok (s', r') /\
    exists t, alpha_tuning s' = Some t /\ alpha s' = exp (log_alpha t) /\
              target_entropy t = - INR 1 /\ alpha_param t = Current.
Proof.
  destruct (toy_train_n_returns 2 Toy.tuned_agent 0%nat eq_refl) as (s' & r' & E).
  exists s', r'. split; [exact E|].
  exact (temperature_follows_log_alpha Toy.policy_net Toy.sample_multiple_without_squash
           Toy.q_net Toy.cvae_loss_function Toy.decode_multiple_without_squash Toy.sgd Toy.sgd
           Toy.sgd Toy.sgd Toy.soft_target_update Toy.buffer_sample
           tt (Toy.config 10) 0 1 1 0 (1 / 2) true 1%nat 2%nat s' 0%nat r' E).
Defined.


(** The critic target of the toy agent on its batch of one transition. *)
Lemma critic_target_takes_max_of_own_draws_witness :
  batch_ok Toy.batch /\
  exists t r',
    Toy.critic_target (Toy.agent 10) Toy.batch 0%nat = Ok (t, r') /\
    exists draws,
      target_q_draws Toy.policy_net Toy.q_net (Toy.agent 10) Toy.batch 0%nat
      = Ok (draws, r') /\
      length draws = (length (obs Toy.batch) * 10)%nat /\
      length t = length (obs Toy.batch) /\
      (forall i rew d,
          rews Toy.batch !! i = Some rew -> done Toy.batch !! i = Some d ->
          exists v, t !! i = Some (rew + gamma (cfg (Toy.agent 10)) * (1 - d) * v) /\
                    (exists j, (j < 10)%nat /\ draws !! (i * 10 + j)%nat = Some v) /\
                    (forall j x, (j < 10)%nat -> draws !! (i * 10 + j)%nat = Some x ->
                                 x <= v)) /\
      (obs Toy.batch <> [] ->
       n_target_samples (cfg (Toy.agent 10)) = 10%nat /\
       forall i j, (j < 10)%nat ->
                   repeat_interleave (next_obs Toy.batch)
                     (n_target_samples (cfg (Toy.agent 10))) !! (i * 10 + j)%nat
                   = next_obs Toy.batch !! i).
Proof.
  split; [exact toy_batch_ok|].
  destruct (toy_critic_target_returns (Toy.agent 10) Toy.batch 0%nat eq_refl toy_batch_ok)
    as (t & r' & E).
  exists t, r'. split; [exact E|].
  exact (critic_target_takes_max_of_own_draws Toy.policy_net Toy.q_net (Toy.agent 10)
           Toy.batch 0%nat r' t toy_batch_ok E).
Defined.

(** The critic target of the toy agent on a terminal transition. *)
Lemma terminal_transitions_bootstrap_nothing_witness :
  batch_ok Toy.terminal_batch /\
  exists t r',
    Toy.critic_target (Toy.agent 10) Toy.terminal_batch 0%nat = Ok (t, r') /\
    length t = length (obs Toy.terminal_batch) /\
    (forall i rew, rews Toy.terminal_batch !! i = Some rew ->
                   done Toy.terminal_batch !! i = Some 1 -> t !! i = Some rew) /\
    (gamma (cfg (Toy.agent 10)) = 0 -> t = rews Toy.terminal_batch).
Proof.
  assert (Hb : batch_ok Toy.terminal_batch) by (repeat split).
  split; [exact Hb|].
  destruct (toy_critic_target_returns (Toy.agent 10) Toy.terminal_batch 0%nat eq_refl Hb)
    as (t & r' & E).
  exists t, r'. split; [exact E|].
  exact (terminal_transitions_bootstrap_nothing Toy.policy_net Toy.q_net (Toy.agent 10)
           Toy.terminal_batch 0%nat r' t Hb E).
Defined.

(** [learn] up to step 2 on the fresh toy agent. *)
Lemma learn_stops_at_max_train_step_witness :
  resume (ToyLearn.learn_config 2 2 2 false) = false /\
  (Z.to_nat (max_train_step (ToyLearn.learn_config 2 2 2 false) - train_step (Toy.agent 10))
   <= 2)%nat /\
  exists ending file' log',
    ToyLearn.learn 2 (ToyLearn.learn_config 2 2 2 false) (Toy.agent 10) None [] 0%nat
    = Some (ending, file', log') /\
    forall s' r', ending = Returns s' r' ->
                  train_step s'
                  = Z.max (train_step (Toy.agent 10))
                      (max_train_step (ToyLearn.learn_config 2 2 2 false)) /\
                  cfg s' = cfg (Toy.agent 10).
Proof.
  assert (Hfuel : (Z.to_nat (max_train_step (ToyLearn.learn_config 2 2 2 false)
                             - train_step (Toy.agent 10)) <= 2)%nat) by (simpl; lia).
  split; [reflexivity|]. split; [exact Hfuel|].
  exact (learn_stops_at_max_train_step Toy.policy_net Toy.sample_multiple_without_squash
           Toy.q_net Toy.cvae_loss_function Toy.decode_multiple_without_squash Toy.sgd Toy.sgd
           Toy.sgd Toy.sgd Toy.soft_target_update Toy.buffer_sample ToyLearn.evaluate
           ToyLearn.del_all_files_in_dir
           2%nat (ToyLearn.learn_config 2 2 2 false) (Toy.agent 10) None [] 0%nat
           eq_refl Hfuel).
Defined.

(** [learn] on the fresh toy agent with [eval_freq] 0, and with
    [log_interval] 0 and an evaluation due at every step. *)
Lemma learn_modulo_by_zero_witness :
  exists ls s1 r1,
    Toy.train (Toy.agent 10) 0%nat = Ok (ls, s1, r1) /\
    (resume (ToyLearn.learn_config 2 0 2 false) = false /\
    ((max_train_step (ToyLearn.learn_config 2 0 2 false) <= train_step (Toy.agent 10))%Z ->
     ToyLearn.learn 0 (ToyLearn.learn_config 2 0 2 false) (Toy.agent 10) None [] 0%nat
     = Some (Returns (Toy.agent 10) 0%nat, ToyLearn.del_all_files_in_dir None, [])) /\
    ((train_step (Toy.agent 10) < max_train_step (ToyLearn.learn_config 2 0 2 false))%Z -> eval_freq (ToyLearn.learn_config 2 0 2 false) = 0%Z ->
     ToyLearn.learn 1 (ToyLearn.learn_config 2 0 2 false) (Toy.agent 10) None [] 0%nat
     = Some (Raises (Rng:=nat) ZeroDivisionError, ToyLearn.del_all_files_in_dir None, [])) /\
    ((train_step (Toy.agent 10) < max_train_step (ToyLearn.learn_config 2 0 2 false))%Z -> log_interval (ToyLearn.learn_config 2 0 2 false) = 0%Z ->
     eval_freq (ToyLearn.learn_config 2 0 2 false) <> 0%Z -> ((train_step (Toy.agent 10) + 1) mod eval_freq (ToyLearn.learn_config 2 0 2 false) <> 0)%Z ->
     ToyLearn.learn 1 (ToyLearn.learn_config 2 0 2 false) (Toy.agent 10) None [] 0%nat
     = Some (Raises (Rng:=nat) ZeroDivisionError, ToyLearn.del_all_files_in_dir None, [])) /\
    ((train_step (Toy.agent 10) < max_train_step (ToyLearn.learn_config 2 0 2 false))%Z -> log_interval (ToyLearn.learn_config 2 0 2 false) = 0%Z ->
     eval_freq (ToyLearn.learn_config 2 0 2 false) <> 0%Z -> ((train_step (Toy.agent 10) + 1) mod eval_freq (ToyLearn.learn_config 2 0 2 false) = 0)%Z ->
     forall avg_reward avg_length r2,
       ToyLearn.evaluate s1 5%nat r1 = Ok (avg_reward, avg_length, r2) ->
       ToyLearn.learn 1 (ToyLearn.learn_config 2 0 2 false) (Toy.agent 10) None [] 0%nat
       = Some (Raises (Rng:=nat) ZeroDivisionError, ToyLearn.del_all_files_in_dir None,
               [] ++ [EvalData avg_length avg_reward (train_step (Toy.agent 10) + 1)]))) /\
    (resume (ToyLearn.learn_config 2 1 0 false) = false /\
    ((max_train_step (ToyLearn.learn_config 2 1 0 false) <= train_step (Toy.agent 10))%Z ->
     ToyLearn.learn 0 (ToyLearn.learn_config 2 1 0 false) (Toy.agent 10) None [] 0%nat
     = Some (Returns (Toy.agent 10) 0%nat, ToyLearn.del_all_files_in_dir None, [])) /\
    ((train_step (Toy.agent 10) < max_train_step (ToyLearn.learn_config 2 1 0 false))%Z -> eval_freq (ToyLearn.learn_config 2 1 0 false) = 0%Z ->
     ToyLearn.learn 1 (ToyLearn.learn_config 2 1 0 false) (Toy.agent 10) None [] 0%nat
     = Some (Raises (Rng:=nat) ZeroDivisionError, ToyLearn.del_all_files_in_dir None, [])) /\
    ((train_step (Toy.agent 10) < max_train_step (ToyLearn.learn_config 2 1 0 false))%Z -> log_interval (ToyLearn.learn_config 2 1 0 false) = 0%Z ->
     eval_freq (ToyLearn.learn_config 2 1 0 false) <> 0%Z -> ((train_step (Toy.agent 10) + 1) mod eval_freq (ToyLearn.learn_config 2 1 0 false) <> 0)%Z ->
     ToyLearn.learn 1 (ToyLearn.learn_config 2 1 0 false) (Toy.agent 10) None [] 0%nat
     = Some (Raises (Rng:=nat) ZeroDivisionError, ToyLearn.del_all_files_in_dir None, [])) /\
    ((train_step (Toy.agent 10) < max_train_step (ToyLearn.learn_config 2 1 0 false))%Z -> log_interval (ToyLearn.learn_config 2 1 0 false) = 0%Z ->
     eval_freq (ToyLearn.learn_config 2 1 0 false) <> 0%Z -> ((train_step (Toy.agent 10) + 1) mod eval_freq (ToyLearn.learn_config 2 1 0 false) = 0)%Z ->
     forall avg_reward avg_length r2,
       ToyLearn.evaluate s1 5%nat r1 = Ok (avg_reward, avg_length, r2) ->
       ToyLearn.learn 1 (ToyLearn.learn_config 2 1 0 false) (Toy.agent 10) None [] 0%nat
       = Some (Raises (Rng:=nat) ZeroDivisionError, ToyLearn.del_all_files_in_dir None,
               [] ++ [EvalData avg_length avg_reward (train_step (Toy.agent 10) + 1)]))).
Proof.
  destruct (toy_train_returns (Toy.agent 10) 0%nat eq_refl) as (ls & s1 & r1 & E).
  exists ls, s1, r1. split; [exact E|]. split.
  - split; [reflexivity|].
    exact (learn_modulo_by_zero Toy.policy_net Toy.sample_multiple_without_squash
           Toy.q_net Toy.cvae_loss_function Toy.decode_multiple_without_squash Toy.sgd Toy.sgd
           Toy.sgd Toy.sgd Toy.soft_target_update Toy.buffer_sample ToyLearn.evaluate
           ToyLearn.del_all_files_in_dir
             0%nat (ToyLearn.learn_config 2 0 2 false) (Toy.agent 10) s1 None [] ls 0%nat r1
             eq_refl E).
  - split; [reflexivity|].
    exact (learn_modulo_by_zero Toy.policy_net Toy.sample_multiple_without_squash
           Toy.q_net Toy.cvae_loss_function Toy.decode_multiple_without_squash Toy.sgd Toy.sgd
           Toy.sgd Toy.sgd Toy.soft_target_update Toy.buffer_sample ToyLearn.evaluate
           ToyLearn.del_all_files_in_dir
             0%nat (ToyLearn.learn_config 2 1 0 false) (Toy.agent 10) s1 None [] ls 0%nat r1
             eq_refl E).
Defined.

(** The fresh toy agent resumes from the record of the trained one (step 4)
    and trains up to step 6. *)
Lemma resumed_multipliers_are_frozen_witness :
  resume (ToyLearn.learn_config 6 2 2 true) = true /\
  exists s' r' file' log',
    ToyLearn.learn 2 (ToyLearn.learn_config 6 2 2 true) (Toy.agent 10)
      (Some (store_agent_checkpoint Toy.trained_agent)) [] 0%nat
    = Some (Returns s' r', file', log') /\
    exists lap k,
      get_tensor (store_agent_checkpoint Toy.trained_agent) "log_alpha_prime" = Ok lap /\
      get_int (store_agent_checkpoint Toy.trained_agent) "train_step" = Ok k /\
      train_step s' = Z.max k (max_train_step (ToyLearn.learn_config 6 2 2 true)) /\
      data (log_alpha_prime s')
      = (if (k <? max_train_step (ToyLearn.learn_config 6 2 2 true))%Z
         then clamp (-5) 10 lap else lap) /\
      get_optim (store_agent_checkpoint Toy.trained_agent) "alpha_prime_optimizer"
      = Ok (alpha_prime_optimizer s') /\
      forall t', alpha_tuning s' = Some t' ->
                 get_tensor (store_agent_checkpoint Toy.trained_agent) "log_alpha"
                 = Ok (log_alpha t') /\
                 get_optim (store_agent_checkpoint Toy.trained_agent) "alpha_optimizer"
                 = Ok (alpha_optimizer t').
Proof.
  split; [reflexivity|].
  destruct toy_resume_loads as (s1 & El & Hstep).
  assert (Hfuel : (Z.to_nat (max_train_step (ToyLearn.learn_config 6 2 2 true)
                             - train_step s1) <= 2)%nat) by (rewrite Hstep; simpl; lia).
  assert (Hev : eval_freq (ToyLearn.learn_config 6 2 2 true) <> 0%Z) by (simpl; lia).
  assert (Hlog : log_interval (ToyLearn.learn_config 6 2 2 true) <> 0%Z) by (simpl; lia).
  destruct (toy_learn_resumes 2 (ToyLearn.learn_config 6 2 2 true) (Toy.agent 10) s1
              (store_agent_checkpoint Toy.trained_agent) [] 0%nat eq_refl El eq_refl
              Hev Hlog Hfuel) as (s' & r' & file' & log' & E).
  exists s', r', file', log'. split; [exact E|].
  exact (resumed_multipliers_are_frozen Toy.policy_net Toy.sample_multiple_without_squash
           Toy.q_net Toy.cvae_loss_function Toy.decode_multiple_without_squash Toy.sgd Toy.sgd
           Toy.sgd Toy.sgd Toy.soft_target_update Toy.buffer_sample ToyLearn.evaluate
           ToyLearn.del_all_files_in_dir
           2%nat (ToyLearn.learn_config 6 2 2 true) (Toy.agent 10) s'
           (store_agent_checkpoint Toy.trained_agent) file' [] log' 0%nat r' eq_refl E).
Defined.

(** [learn] up to step 3 with a checkpoint every second step: the file
    holds the agent of step 2. *)
Lemma checkpoint_holds_last_logged_step_witness :
  resume (ToyLearn.learn_config 3 2 2 false) = false /\
  (0 < log_interval (ToyLearn.learn_config 3 2 2 false))%Z /\
  exists s' r' file' log',
    ToyLearn.learn 3 (ToyLearn.learn_config 3 2 2 false) (Toy.agent 10) None [] 0%nat
    = Some (Returns s' r', file', log') /\
    let last := (log_interval (ToyLearn.learn_config 3 2 2 false)
                 * (train_step s' / log_interval (ToyLearn.learn_config 3 2 2 false)))%Z in
    (last <= train_step s' < last + log_interval (ToyLearn.learn_config 3 2 2 false))%Z /\
    (if (train_step (Toy.agent 10) <? last)%Z
     then exists sk, file' = Some (store_agent_checkpoint sk) /\
                     train_step sk = last /\ cfg sk = cfg (Toy.agent 10) /\
                     get_int (store_agent_checkpoint sk) "train_step" = Ok last /\
                     (train_step s' = last -> sk = s')
     else file' = ToyLearn.del_all_files_in_dir None).
Proof.
  assert (Hpos : (0 < log_interval (ToyLearn.learn_config 3 2 2 false))%Z) by (simpl; lia).
  assert (Hev : eval_freq (ToyLearn.learn_config 3 2 2 false) <> 0%Z) by (simpl; lia).
  assert (Hlog : log_interval (ToyLearn.learn_config 3 2 2 false) <> 0%Z) by (simpl; lia).
  assert (Hfuel : (Z.to_nat (max_train_step (ToyLearn.learn_config 3 2 2 false)
                             - train_step (Toy.agent 10)) <= 3)%nat) by (simpl; lia).
  split; [reflexivity|]. split; [exact Hpos|].
  destruct (toy_learn_returns 3 (ToyLearn.learn_config 3 2 2 false) (Toy.agent 10) None []
              0%nat eq_refl eq_refl Hev Hlog Hfuel) as (s' & r' & file' & log' & E).
  exists s', r', file', log'. split; [exact E|].
  exact (checkpoint_holds_last_logged_step Toy.policy_net Toy.sample_multiple_without_squash
           Toy.q_net Toy.cvae_loss_function Toy.decode_multiple_without_squash Toy.sgd Toy.sgd
           Toy.sgd Toy.sgd Toy.soft_target_update Toy.buffer_sample ToyLearn.evaluate
           ToyLearn.del_all_files_in_dir
           3%nat (ToyLearn.learn_config 3 2 2 false) (Toy.agent 10) s' None file' [] log'
           0%nat r' eq_refl Hpos E).
Defined.

(** The fresh toy agent resumes from the record of the trained one. *)
Lemma learn_resumes_at_the_saved_step_witness :
  resume (ToyLearn.learn_config 6 2 2 true) = true /\
  ToyLearn.learn 2 (ToyLearn.learn_config 6 2 2 true) (Toy.agent 10) None [] 0%nat
  = Some (Raises (Rng:=nat) FileNotFoundError, None, []) /\
  match load_agent_checkpoint (Toy.agent 10) (store_agent_checkpoint Toy.trained_agent) with
  | Err e =>
      ToyLearn.learn 2 (ToyLearn.learn_config 6 2 2 true) (Toy.agent 10)
        (Some (store_agent_checkpoint Toy.trained_agent)) [] 0%nat
      = Some (Raises (Rng:=nat) (Raised e),
              Some (store_agent_checkpoint Toy.trained_agent), [])
  | Ok s1 =>
      get_int (store_agent_checkpoint Toy.trained_agent) "train_step" = Ok (train_step s1) /\
      ((max_train_step (ToyLearn.learn_config 6 2 2 true) <= train_step s1)%Z ->
       ToyLearn.learn 2 (ToyLearn.learn_config 6 2 2 true) (Toy.agent 10)
         (Some (store_agent_checkpoint Toy.trained_agent)) [] 0%nat
       = Some (Returns s1 0%nat, Some (store_agent_checkpoint Toy.trained_agent), [])) /\
      ((Z.to_nat (max_train_step (ToyLearn.learn_config 6 2 2 true) - train_step s1)
        <= 2)%nat ->
       exists ending file' log',
         ToyLearn.learn 2 (ToyLearn.learn_config 6 2 2 true) (Toy.agent 10)
           (Some (store_agent_checkpoint Toy.trained_agent)) [] 0%nat
         = Some (ending, file', log') /\
         forall s' r', ending = Returns s' r' ->
                       train_step s'
                       = Z.max (train_step s1)
                           (max_train_step (ToyLearn.learn_config 6 2 2 true)) /\
                       cfg s' = cfg (Toy.agent 10))
  end.
Proof.
  split; [reflexivity|].
  exact (learn_resumes_at_the_saved_step Toy.policy_net Toy.sample_multiple_without_squash
           Toy.q_net Toy.cvae_loss_function Toy.decode_multiple_without_squash Toy.sgd Toy.sgd
           Toy.sgd Toy.sgd Toy.soft_target_update Toy.buffer_sample ToyLearn.evaluate
           ToyLearn.del_all_files_in_dir
           2%nat (ToyLearn.learn_config 6 2 2 true) (Toy.agent 10)
           (store_agent_checkpoint Toy.trained_agent) [] 0%nat eq_refl).
Defined.

(** The events [learn] logs up to step 3, with an evaluation and a
    checkpoint every second step. *)
Lemma learn_logs_at_multiples_only_witness :
  resume (ToyLearn.learn_config 3 2 2 false) = false /\
  exists s' r' file' log',
    ToyLearn.learn 3 (ToyLearn.learn_config 3 2 2 false) (Toy.agent 10) None [] 0%nat
    = Some (Returns s' r', file', log') /\
    exists new,
      log' = [] ++ new /\
      Forall (fun e => match e with
                       | EvalData _ _ k =>
                           (train_step (Toy.agent 10) < k <= train_step s')%Z /\
                           (k mod eval_freq (ToyLearn.learn_config 3 2 2 false) = 0)%Z
                       | TrainData _ k =>
                           (train_step (Toy.agent 10) < k <= train_step s')%Z /\
                           (k mod log_interval (ToyLearn.learn_config 3 2 2 false) = 0)%Z
                       end) new.
Proof.
  assert (Hev : eval_freq (ToyLearn.learn_config 3 2 2 false) <> 0%Z) by (simpl; lia).
  assert (Hlog : log_interval (ToyLearn.learn_config 3 2 2 false) <> 0%Z) by (simpl; lia).
  assert (Hfuel : (Z.to_nat (max_train_step (ToyLearn.learn_config 3 2 2 false)
                             - train_step (Toy.agent 10)) <= 3)%nat) by (simpl; lia).
  split; [reflexivity|].
  destruct (toy_learn_returns 3 (ToyLearn.learn_config 3 2 2 false) (Toy.agent 10) None []
              0%nat eq_refl eq_refl Hev Hlog Hfuel) as (s' & r' & file' & log' & E).
  exists s', r', file', log'. split; [exact E|].
  exact (learn_logs_at_multiples_only Toy.policy_net Toy.sample_multiple_without_squash
           Toy.q_net Toy.cvae_loss_function Toy.decode_multiple_without_squash Toy.sgd Toy.sgd
           Toy.sgd Toy.sgd Toy.soft_target_update Toy.buffer_sample ToyLearn.evaluate
           ToyLearn.del_all_files_in_dir
           3%nat (ToyLearn.learn_config 3 2 2 false) (Toy.agent 10) s' None file' [] log'
           0%nat r' eq_refl E).
Defined.

(** [learn] up to step 3 on the fresh toy agent. *)
Lemma learn_returns_on_its_domain_witness :
  resume (ToyLearn.learn_config 3 2 2 false) = false /\
  n_target_samples (cfg (Toy.agent 10)) = 10%nat /\
  0 < mmd_sigma (cfg (Toy.agent 10)) /\
  (0 < n_mmd_action_samples (cfg (Toy.agent 10)))%nat /\
  eval_freq (ToyLearn.learn_config 3 2 2 false) <> 0%Z /\
  log_interval (ToyLearn.learn_config 3 2 2 false) <> 0%Z /\
  (Z.to_nat (max_train_step (ToyLearn.learn_config 3 2 2 false) - train_step (Toy.agent 10))
   <= 3)%nat /\
  exists s' r' file' log',
    ToyLearn.learn 3 (ToyLearn.learn_config 3 2 2 false) (Toy.agent 10) None [] 0%nat
    = Some (Returns s' r', file', log') /\
    train_step s'
    = Z.max (train_step (Toy.agent 10)) (max_train_step (ToyLearn.learn_config 3 2 2 false)).
Proof.
  assert (Hev : eval_freq (ToyLearn.learn_config 3 2 2 false) <> 0%Z) by (simpl; lia).
  assert (Hlog : log_interval (ToyLearn.learn_config 3 2 2 false) <> 0%Z) by (simpl; lia).
  assert (Hfuel : (Z.to_nat (max_train_step (ToyLearn.learn_config 3 2 2 false)
                             - train_step (Toy.agent 10)) <= 3)%nat) by (simpl; lia).
  split; [reflexivity|]. split; [reflexivity|]. split; [exact toy_sigma|].
  split; [apply Nat.lt_0_1|]. split; [exact Hev|]. split; [exact Hlog|].
  split; [exact Hfuel|].
  exact (learn_returns_on_its_domain Toy.policy_net Toy.sample_multiple_without_squash
           Toy.q_net Toy.cvae_loss_function Toy.decode_multiple_without_squash Toy.sgd Toy.sgd
           Toy.sgd Toy.sgd Toy.soft_target_update Toy.buffer_sample ToyLearn.evaluate
           ToyLearn.del_all_files_in_dir
           1%nat toy_decode_shape toy_sample_shape toy_buffer_shape toy_evaluate_returns
           3%nat (ToyLearn.learn_config 3 2 2 false) (Toy.agent 10) None [] 0%nat
           eq_refl eq_refl toy_sigma Nat.lt_0_1 Hev Hlog Hfuel).
Defined.
